(** * gh-contrib-emails: a shallow embedding of the contributor crawler

    The development follows the Python sources file by file:
    - [Str]: the handful of [str] methods the program relies on;
    - [Config]: constants of [config.py];
    - [Utils]: [utils.py] ([is_valid_email], [parse_repo_url], [clean_blog_url]);
    - [DataHandler]: [data_handler.py] (README link extraction and the
      spreadsheet merge of [save_to_excel]);
    - [Remote], [GitHubAPIClient], [Crawler]: [github_api.py] and [crawler.py]
      over an abstract, stateful remote service whose requests are logged.
    The vocabulary of the statements and the properties follow the embedding.

    Text is modelled as Stdlib strings of 8-bit characters; [str.lower] and the
    regular-expression class [\w] are the ASCII ones.  Sleeping and logging
    are left out. *)

From Stdlib Require Import ZArith String Ascii List Bool Lia.
From stdpp Require Import base gmap sets list strings.

Import ListNotations.
Local Open Scope string_scope.
Local Open Scope list_scope.

(* stdpp freezes string concatenation under [simpl]; the string lemmas below
   compute with it. *)
#[local] Arguments String.append !s1 s2 : simpl nomatch.

(* ===================================================================== *)
(** * Python [str] operations *)
(* ===================================================================== *)

Module Str.

(** Truthiness of a [str]: the empty string is falsy. *)
Definition truthy (s : string) : bool :=
  match s with
  | EmptyString => false
  | String _ _ => true
  end.

Definition is_upper (c : ascii) : bool :=
  let n := nat_of_ascii c in (65 <=? n)%nat && (n <=? 90)%nat.

Definition is_lower (c : ascii) : bool :=
  let n := nat_of_ascii c in (97 <=? n)%nat && (n <=? 122)%nat.

Definition is_digit (c : ascii) : bool :=
  let n := nat_of_ascii c in (48 <=? n)%nat && (n <=? 57)%nat.

Definition is_alpha (c : ascii) : bool := is_upper c || is_lower c.

Definition lower_char (c : ascii) : ascii :=
  if is_upper c then ascii_of_nat (nat_of_ascii c + 32) else c.

(** [s.lower()] *)
Fixpoint lower (s : string) : string :=
  match s with
  | EmptyString => EmptyString
  | String c s' => String (lower_char c) (lower s')
  end.

(** [s.startswith(p)] *)
Fixpoint startswith (p s : string) : bool :=
  match p, s with
  | EmptyString, _ => true
  | String a p', String b s' => Ascii.eqb a b && startswith p' s'
  | String _ _, EmptyString => false
  end.

(** [s[len(p):]] when [s.startswith(p)] *)
Fixpoint drop_prefix (p s : string) : option string :=
  match p, s with
  | EmptyString, _ => Some s
  | String a p', String b s' =>
      if Ascii.eqb a b then drop_prefix p' s' else None
  | String _ _, EmptyString => None
  end.

(** [s.endswith(suffix)] *)
Fixpoint endswith (suffix s : string) : bool :=
  String.eqb s suffix ||
  match s with
  | EmptyString => false
  | String _ s' => endswith suffix s'
  end.

(** [p in s] *)
Fixpoint contains (p s : string) : bool :=
  startswith p s ||
  match s with
  | EmptyString => false
  | String _ s' => contains p s'
  end.

(** [s.split(sep)] for a one-character separator. *)
Fixpoint split (sep : ascii) (s : string) : list string :=
  match s with
  | EmptyString => [EmptyString]
  | String c s' =>
      if Ascii.eqb c sep then EmptyString :: split sep s'
      else match split sep s' with
           | [] => [String c EmptyString]
           | h :: t => String c h :: t
           end
  end.

(** [parts[-1]] of a list that [split] produced (never empty). *)
Definition last_part (parts : list string) : string :=
  List.last parts EmptyString.

(** [s.lstrip(c)] and [s.rstrip(c)] for a one-character set. *)
Fixpoint lstrip (c : ascii) (s : string) : string :=
  match s with
  | EmptyString => EmptyString
  | String a s' => if Ascii.eqb a c then lstrip c s' else s
  end.

Fixpoint rstrip (c : ascii) (s : string) : string :=
  match s with
  | EmptyString => EmptyString
  | String a s' =>
      match rstrip c s' with
      | EmptyString => if Ascii.eqb a c then EmptyString else String a EmptyString
      | r => String a r
      end
  end.

(** [s.strip(c)] *)
Definition strip (c : ascii) (s : string) : string := rstrip c (lstrip c s).

(** [s.replace(old, new)] for a non-empty [old]: every non-overlapping
    occurrence, left to right.  [skip] counts the characters of an occurrence
    that has just been replaced and still have to be passed over. *)
Fixpoint replace_from (skip : nat) (old new s : string) : string :=
  match s with
  | EmptyString => EmptyString
  | String c s' =>
      match skip with
      | S k => replace_from k old new s'
      | O =>
          if startswith old s
          then new +:+ replace_from (String.length old - 1) old new s'
          else String c (replace_from 0 old new s')
      end
  end.

Definition replace (old new s : string) : string := replace_from 0 old new s.

(** [s.lstrip(chars)] for a set of characters given by its test. *)
Fixpoint lstrip_set (p : ascii -> bool) (s : string) : string :=
  match s with
  | EmptyString => EmptyString
  | String a s' => if p a then lstrip_set p s' else s
  end.

(** [s.replace(b, "")] for every character [b] that satisfies [p]. *)
Fixpoint remove (p : ascii -> bool) (s : string) : string :=
  match s with
  | EmptyString => EmptyString
  | String a s' => if p a then remove p s' else String a (remove p s')
  end.

(** [s[k:]] *)
Fixpoint drop (k : nat) (s : string) : string :=
  match k, s with
  | O, _ => s
  | S k', String _ s' => drop k' s'
  | S _, EmptyString => EmptyString
  end.

(** Longest prefix whose characters satisfy [p], and what follows it. *)
Fixpoint span (p : ascii -> bool) (s : string) : string * string :=
  match s with
  | EmptyString => (EmptyString, EmptyString)
  | String c s' =>
      if p c then let '(h, t) := span p s' in (String c h, t)
      else (EmptyString, s)
  end.

(** [(s[:i], s[i+1:])] for the first index [i] with [s[i] == c]. *)
Fixpoint cut (c : ascii) (s : string) : option (string * string) :=
  match s with
  | EmptyString => None
  | String a s' =>
      if Ascii.eqb a c then Some (EmptyString, s')
      else match cut c s' with
           | Some (h, t) => Some (String a h, t)
           | None => None
           end
  end.

End Str.

(* ===================================================================== *)
(** * config.py *)
(* ===================================================================== *)

Module Config.

Definition DEFAULT_MIN_REPO_CONTRIBUTIONS : Z := 100.
Definition DEFAULT_MIN_YEARLY_CONTRIBUTIONS : Z := 400.
Definition DEFAULT_OUTPUT_FILE : string := "github_contributors_results.xlsx".

Definition FAKE_EMAIL_PATTERNS : list string :=
  [ "noreply"; "no-reply"; "donotreply"; "users.noreply.github.com";
    "localhost"; "example.com"; "test.com" ].

End Config.

(* ===================================================================== *)
(** * utils.py *)
(* ===================================================================== *)

Module Utils.

(** [is_valid_email(email)] on a string; the only caller guards the call with
    [email and ...], and [None] is rejected by the first test like [""]. *)
Definition is_valid_email (email : string) : bool :=
  if negb (Str.truthy email) then false
  else
    let email_lower := Str.lower email in
    if existsb (fun pattern => Str.contains pattern email_lower)
               Config.FAKE_EMAIL_PATTERNS
    then false
    else Str.contains "@" email &&
         Str.contains "." (Str.last_part (Str.split "@" email)).

(** [clean_blog_url(blog_url)]; [None] is the JSON null of an absent field. *)
Definition clean_blog_url (blog_url : option string) : option string :=
  match blog_url with
  | Some s =>
      if Str.truthy s && negb (Str.startswith "http" s)
      then Some ("https://" +:+ s)
      else Some s
  | None => None
  end.

(** ** [urllib.parse.urlparse]

    The part of the standard-library parser that [parse_repo_url] reads:
    scheme, network location and path, as CPython 3.11 computes them.
    [urlparse] is the value the parser returns; [urlparse_raises] tells when
    it raises [ValueError] instead.  Of the checks that raise, the one on an
    unbalanced bracket in the network location is modelled; the validation of
    the host inside a balanced pair of brackets and the normalisation check
    of a host that is not ASCII are not, and the statements that depend on
    the parser returning are made for URLs of ASCII characters without
    brackets. *)

Record ParseResult := {
  scheme : string;
  netloc : string;
  path : string
}.

(** The characters stripped from the left of a URL
    ([_WHATWG_C0_CONTROL_OR_SPACE]). *)
Definition is_c0_control_or_space (c : ascii) : bool :=
  (nat_of_ascii c <=? 32)%nat.

(** Tab, carriage return and line feed, removed wherever they stand
    ([_UNSAFE_URL_BYTES_TO_REMOVE]). *)
Definition is_unsafe_byte (c : ascii) : bool :=
  Ascii.eqb c "009" || Ascii.eqb c "013" || Ascii.eqb c "010".

Definition sanitize (url : string) : string :=
  Str.remove is_unsafe_byte (Str.lstrip_set is_c0_control_or_space url).

Definition is_scheme_char (c : ascii) : bool :=
  Str.is_alpha c || Str.is_digit c ||
  Ascii.eqb c "+" || Ascii.eqb c "-" || Ascii.eqb c ".".

Fixpoint all_chars (p : ascii -> bool) (s : string) : bool :=
  match s with
  | EmptyString => true
  | String c s' => p c && all_chars p s'
  end.

(** The scheme and the remainder of the URL. *)
Definition split_scheme (url : string) : string * string :=
  match url with
  | String c0 _ =>
      if Str.is_alpha c0 then
        match Str.cut ":" url with
        | Some (pre, rest) =>
            if all_chars is_scheme_char pre then (Str.lower pre, rest)
            else (EmptyString, url)
        | None => (EmptyString, url)
        end
      else (EmptyString, url)
  | EmptyString => (EmptyString, url)
  end.

Definition is_netloc_end (c : ascii) : bool :=
  Ascii.eqb c "/" || Ascii.eqb c "?" || Ascii.eqb c "#".

Definition until (c : ascii) (s : string) : string :=
  match Str.cut c s with
  | Some (h, _) => h
  | None => s
  end.

(** Parameters (after [;]) belong to the last path segment only. *)
Definition drop_params (p : string) : string :=
  let segs := Str.split "/" p in
  let lastseg := Str.last_part segs in
  match Str.cut ";" lastseg with
  | Some (h, _) =>
      String.substring 0 (String.length p - String.length lastseg) p +:+ h
  | None => p
  end.

Definition urlparse (url : string) : ParseResult :=
  let '(sch, rest) := split_scheme (sanitize url) in
  let '(loc, rest) :=
    match Str.drop_prefix "//" rest with
    | Some r => Str.span (fun c => negb (is_netloc_end c)) r
    | None => (EmptyString, rest)
    end in
  let rest := until "?" (until "#" rest) in
  let rest :=
    if String.eqb sch "http" || String.eqb sch "https"
    then drop_params rest else rest in
  {| scheme := sch; netloc := loc; path := rest |}.

(** The parser raises [ValueError("Invalid IPv6 URL")]: one of the brackets
    occurs in the network location without the other. *)
Definition urlparse_raises (url : string) : bool :=
  let loc := netloc (urlparse url) in
  negb (Bool.eqb (Str.contains "[" loc) (Str.contains "]" loc)).

(** [parse_repo_url(repo_url)]: the pair [(owner, repo)], or [(None, None)],
    that the function returns when [urlparse] does not raise.  The function
    has no [try]: where [urlparse_raises] holds the exception leaves it, and
    each caller that is not inside a [try] of its own tests that first. *)
Definition parse_repo_url (repo_url : string) : option string * option string :=
  let parsed := urlparse repo_url in
  if negb (String.eqb (scheme parsed) "http" || String.eqb (scheme parsed) "https")
  then (None, None)
  else if negb (String.eqb (netloc parsed) "github.com")
  then (None, None)
  else
    match Str.split "/" (Str.strip "/" (path parsed)) with
    | [owner; repo] => (Some owner, Some repo)
    | _ => (None, None)
    end.

End Utils.

(* ===================================================================== *)
(** * data_handler.py *)
(* ===================================================================== *)

Module DataHandler.

(** ** README link extraction *)

(** The character class [[\w\.-]] of the link pattern, on ASCII text: the
    letters and digits outside ASCII that [\w] also matches in a [str] are
    not treated. *)
Definition is_word_char (c : ascii) : bool :=
  Str.is_alpha c || Str.is_digit c || Ascii.eqb c "_".

Definition is_repo_char (c : ascii) : bool :=
  is_word_char c || Ascii.eqb c "." || Ascii.eqb c "-".

(** A match of [https?://github\.com/[\w\.-]+/[\w\.-]+] anchored at the start
    of [s]: the matched text.  No alternative needs backtracking: after
    [http] an [s] can only be the optional letter, and [/] is outside the
    character class, so both repetitions take their longest run. *)
Definition match_repo_url (s : string) : option string :=
  match Str.drop_prefix "http" s with
  | None => None
  | Some r0 =>
      let '(opt_s, r1) :=
        match r0 with
        | String "s" r => ("s", r)
        | _ => (EmptyString, r0)
        end in
      match Str.drop_prefix "://github.com/" r1 with
      | None => None
      | Some r2 =>
          let '(owner, r3) := Str.span is_repo_char r2 in
          match owner, r3 with
          | String _ _, String "/" r4 =>
              let '(name, _) := Str.span is_repo_char r4 in
              match name with
              | String _ _ =>
                  Some ("http" +:+ opt_s +:+ "://github.com/" +:+ owner +:+ "/" +:+ name)
              | EmptyString => None
              end
          | _, _ => None
          end
      end
  end.

(** [re.findall(pattern, s)]: leftmost non-overlapping matches.  [skip]
    counts the characters of the last match still to be passed over. *)
Fixpoint findall_from (skip : nat) (s : string) : list string :=
  match s with
  | EmptyString => []
  | String _ s' =>
      match skip with
      | S k => findall_from k s'
      | O =>
          match match_repo_url s with
          | Some m => m :: findall_from (String.length m - 1) s'
          | None => findall_from 0 s'
          end
      end
  end.

Definition findall_repo_urls (s : string) : list string := findall_from 0 s.

(** How an f-string renders a value that may be [None]. *)
Definition fmt (o : option string) : string :=
  match o with
  | Some s => s
  | None => "None"
  end.

Definition get_list_of_repo_urls_from_readme (readme owner repo : string)
  : list string :=
  let urls := findall_repo_urls readme in
  let current_repo := owner +:+ "/" +:+ repo in
  filter (fun url =>
            let '(sub_rebo_owner, sub_rebo_name) := Utils.parse_repo_url url in
            let target_repo := fmt sub_rebo_owner +:+ "/" +:+ fmt sub_rebo_name in
            Is_true (Str.truthy target_repo &&
                     negb (String.eqb (Str.lower target_repo) current_repo)))
         urls.

(** ** The persisted unit *)

(** One row of the ['All Contributors'] sheet, with the keys of the dict that
    [filter_contributors_for_repo] builds.  [None] is a missing cell (JSON
    null, NaN). *)
Record Contributor := {
  repo_url : option string;
  repo_name : option string;
  username : option string;
  repo_contributions : Z;
  yearly_contributions : Z;
  profile_url : option string;
  name : option string;
  email : option string;
  commit_email : option string;
  website : option string;
  location : option string;
  company : option string;
  twitter : option string;
  bio : option string;
  public_repos : Z;
  followers : Z;
  following : Z;
  account_created : option string
}.

(** [df['username']] *)
Definition usernames (df : list Contributor) : list (option string) :=
  map username df.

(** [set(df['username'].dropna().astype(str))] *)
Definition username_set (df : list Contributor) : gset string :=
  list_to_set (omap username df).

(** [df.drop_duplicates(subset=['username'], keep='first')]; missing
    usernames compare equal to each other, as pandas has it. *)
Fixpoint drop_duplicates_from (seen : gset (option string))
    (df : list Contributor) : list Contributor :=
  match df with
  | [] => []
  | r :: rest =>
      if decide (username r ∈ seen) then drop_duplicates_from seen rest
      else r :: drop_duplicates_from ({[ username r ]} ∪ seen) rest
  end.

Definition drop_duplicates (df : list Contributor) : list Contributor :=
  drop_duplicates_from ∅ df.

(** [df['username'].isin(names)] for one row *)
Definition isin (names : gset string) (r : Contributor) : bool :=
  match username r with
  | Some u => bool_decide (u ∈ names)
  | None => false
  end.

(** [cell.notna() & (cell != '')] *)
Definition filled (cell : option string) : bool :=
  match cell with
  | Some s => Str.truthy s
  | None => false
  end.

Definition has_contact (r : Contributor) : bool :=
  filled (email r) || filled (commit_email r) || filled (website r).

(** ** Files *)

(** The ['Progress Log'] row. *)
Record Progress := {
  last_updated : string;
  total_contributors : nat;
  new_contributors_added : nat;
  contributors_with_email : nat;
  duplicates_removed_internal : nat;
  duplicates_removed_external : nat;
  excel_files_checked : nat;
  directory_scanned : string
}.

(** The sheets [save_to_excel] writes.  The ['Repository Summary'] sheet
    (per-repository means, floating point) is left out. *)
Record Workbook := {
  all_contributors : list Contributor;
  contact_information : list Contributor;
  progress_log : Progress;
  duplicates_filtered : option (list string)
}.

(** What a path holds.  A workbook is the rows of its sheets as the writer
    was given them; what a later [read_excel] makes of them is
    [read_excel] below. *)
Inductive FileContent :=
| Xlsx (w : Workbook)         (* a workbook whose 'All Contributors' sheet has a username column *)
| Csv (rows : list Contributor)
| Unreadable.                 (* anything [read_excel(.., 'All Contributors')['username']] raises on *)

(** Paths are absolute and normalised, so [os.path.abspath] is the identity
    and [os.path.join(d, f)] is [d/f].  [dirs] holds the directories, the
    paths at which [os.path.exists] holds and [os.listdir] returns; a check
    directory that exists as something else (a regular file, a directory
    that cannot be listed), where [os.listdir] raises outside any [try], is
    not treated. *)
Record FileSystem := {
  dirs : gset string;
  files : gmap string FileContent
}.

(** The texts [read_excel] takes for a missing value when it is called
    without [na_values], as here: [STR_NA_VALUES] of pandas 2 (pandas 1 has
    the same list without ["None"]). *)
Definition STR_NA_VALUES : list string :=
  [ ""; "#N/A"; "#N/A N/A"; "#NA"; "-1.#IND"; "-1.#QNAN"; "-NaN"; "-nan";
    "1.#IND"; "1.#QNAN"; "<NA>"; "N/A"; "NA"; "NULL"; "NaN"; "None"; "n/a";
    "nan"; "null" ].

(** A text cell as it is read back. *)
Definition read_cell (cell : option string) : option string :=
  match cell with
  | Some s => if existsb (String.eqb s) STR_NA_VALUES then None else Some s
  | None => None
  end.

(** A stored row as [read_excel] returns it.  The username, which every
    comparison of the merge reads, is parsed for missing values.  The cells
    of the other columns are returned as stored, and the conversion of a
    column all of whose texts are numbers or booleans is left out: both
    depend on the whole column, not on the row. *)
Definition read_row (r : Contributor) : Contributor :=
  {| repo_url := repo_url r;
     repo_name := repo_name r;
     username := read_cell (username r);
     repo_contributions := repo_contributions r;
     yearly_contributions := yearly_contributions r;
     profile_url := profile_url r;
     name := name r;
     email := email r;
     commit_email := commit_email r;
     website := website r;
     location := location r;
     company := company r;
     twitter := twitter r;
     bio := bio r;
     public_repos := public_repos r;
     followers := followers r;
     following := following r;
     account_created := account_created r |}.

(** [pd.read_excel(path, sheet_name='All Contributors')] of a workbook whose
    sheet was written with [rows]. *)
Definition read_excel (rows : list Contributor) : list Contributor :=
  map read_row rows.

(** [path] is an entry of [os.listdir(d)], joined with [d]. *)
Definition in_directory (d path : string) : bool :=
  match Str.drop_prefix (d +:+ "/") path with
  | Some f => Str.truthy f && negb (Str.contains "/" f)
  | None => false
  end.

Definition is_excel_name (path : string) : bool :=
  Str.endswith ".xlsx" path || Str.endswith ".xls" path.

(** The workbooks of [check_directory] that are scanned: [excel_files]. *)
Definition excel_files (check_directory filename : string) (fs : FileSystem)
  : gmap string FileContent :=
  filter (fun kv => Is_true (in_directory check_directory kv.1 &&
                             is_excel_name kv.1 &&
                             negb (String.eqb kv.1 filename)))
         (files fs).

(** One iteration of the scan over [excel_files]. *)
Definition scan_workbook (c : FileContent) (acc : gset string * nat)
  : gset string * nat :=
  match c with
  | Xlsx w => (acc.1 ∪ username_set (read_excel (all_contributors w)), S acc.2)
  | _ => acc
  end.

(** Step 2: usernames of the other workbooks and how many were read. *)
Definition scan_directory (check_directory : option string) (filename : string)
    (fs : FileSystem) : gset string * nat :=
  match check_directory with
  | Some d =>
      if Str.truthy d then
        if bool_decide (d ∈ dirs fs) then
          foldr scan_workbook (∅, O)
                (map snd (map_to_list (excel_files d filename fs)))
        else (∅, O)
      else (∅, O)
  | None => (∅, O)
  end.

(** Step 3: rows of the target file and their usernames. *)
Definition load_existing (filename : string) (fs : FileSystem)
  : list Contributor * gset string :=
  match files fs !! filename with
  | Some (Xlsx w) =>
      let existing_df := read_excel (all_contributors w) in
      (existing_df, username_set existing_df)
  | Some _ => ([], ∅)
  | None => ([], ∅)
  end.

(** Whether the CSV write of the fallback raises, and what the attempt then
    leaves at the backup path.  That write is outside any [try]. *)
Inductive BackupOutcome :=
| BackupOk
| BackupFails (left_at_backup : option FileContent).

(** Whether writing the workbook raises; if so, what the attempt leaves at
    the target path and how the CSV write of the fallback ends. *)
Inductive WriteOutcome :=
| WriteOk
| WriteFails (left_behind : option FileContent) (backup : BackupOutcome).

(** What one call computes before it persists anything. *)
Record Merge := {
  new_df : list Contributor;            (* the batch after steps 1 and 4 *)
  combined_df : list Contributor;       (* after the final pass *)
  duplicates_found : gset string;
  removed_internal : nat;
  removed_external : nat;
  other_files_processed : nat
}.

Definition merge (contributors : list Contributor) (filename : string)
    (check_directory : option string) (fs : FileSystem) : Merge :=
  (* Step 1 *)
  let new1 := drop_duplicates contributors in
  (* Step 2 *)
  let '(other_usernames, processed) := scan_directory check_directory filename fs in
  (* Step 3 *)
  let '(existing_df, current_usernames) := load_existing filename fs in
  let existing_usernames := other_usernames ∪ current_usernames in
  (* Step 4 *)
  let dups := username_set new1 ∩ existing_usernames in
  let new2 :=
    if bool_decide (dups = ∅) then new1
    else List.filter (fun r => negb (isin existing_usernames r)) new1 in
  (* Step 5 and the final pass *)
  let combined :=
    match existing_df with
    | [] => new2
    | _ :: _ => existing_df ++ new2
    end in
  {| new_df := new2;
     combined_df := drop_duplicates combined;
     duplicates_found := dups;
     removed_internal := length contributors - length new1;
     removed_external := length new1 - length new2;
     other_files_processed := processed |}.

(** Step 6: the workbook handed to the writer. *)
Definition workbook_of (now : string) (check_directory : option string)
    (m : Merge) : Workbook :=
  let contact := List.filter has_contact (combined_df m) in
  {| all_contributors := combined_df m;
     contact_information := contact;
     progress_log :=
       {| last_updated := now;
          total_contributors := length (combined_df m);
          new_contributors_added := length (new_df m);
          contributors_with_email := length contact;
          duplicates_removed_internal := removed_internal m;
          duplicates_removed_external := removed_external m;
          excel_files_checked := other_files_processed m;
          directory_scanned :=
            match check_directory with
            | Some d => if Str.truthy d then d else "None"
            | None => "None"
            end |};
     duplicates_filtered :=
       if bool_decide (duplicates_found m = ∅) then None
       else Some (elements (duplicates_found m)) |}.

Definition set_file (path : string) (c : option FileContent) (fs : FileSystem)
  : FileSystem :=
  {| dirs := dirs fs;
     files := match c with
              | Some c => <[path := c]> (files fs)
              | None => delete path (files fs)
              end |}.

(** [save_to_excel(contributors, filename, check_directory)] as a transition
    of the file system; [now] is the clock reading and [write] says whether
    the workbook writer raises.  [save_to_excel_raises] below tells when the
    call ends in an exception; the file system is then the one the call
    leaves behind. *)
Definition save_to_excel (now : string) (write : WriteOutcome)
    (contributors : list Contributor) (filename : string)
    (check_directory : option string) (fs : FileSystem) : FileSystem :=
  match contributors with
  | [] => fs
  | _ :: _ =>
      let m := merge contributors filename check_directory fs in
      match write with
      | WriteOk =>
          set_file filename (Some (Xlsx (workbook_of now check_directory m))) fs
      | WriteFails left_behind backup =>
          let csv_filename := Str.replace ".xlsx" "_backup.csv" filename in
          set_file csv_filename
                   match backup with
                   | BackupOk => Some (Csv (combined_df m))
                   | BackupFails left_at_backup => left_at_backup
                   end
                   (set_file filename left_behind fs)
      end
  end.

(** The call raises: the workbook write failed and the CSV write, outside
    the [try], failed too. *)
Definition save_to_excel_raises (write : WriteOutcome)
    (contributors : list Contributor) : bool :=
  match write, contributors with
  | WriteFails _ (BackupFails _), _ :: _ => true
  | _, _ => false
  end.

(** The ['All Contributors'] rows stored at [path], as the writer was given
    them, if it is a workbook. *)
Definition sheet_at (path : string) (fs : FileSystem) : option (list Contributor) :=
  match files fs !! path with
  | Some (Xlsx w) => Some (all_contributors w)
  | _ => None
  end.

End DataHandler.

(* ===================================================================== *)
(** * The remote service *)
(* ===================================================================== *)

Module Remote.

(** A response that arrived: its status and, for status 200, its decoded
    body. *)
Inductive Response (A : Type) :=
| Status200 (body : A)
| StatusOther (code : nat).
Arguments Status200 {A} body.
Arguments StatusOther {A} code.

(** One entry of the contributor listing. *)
Record Candidate := {
  login : string;
  contributions : Z;
  html_url : string
}.

(** One entry of the public event feed; [created_at] in seconds. *)
Record Event := {
  type : string;
  created_at : Z;
  commits : list string
}.

(** The shapes of a GraphQL answer the client distinguishes: an object with
    the key [errors]; an object whose [data] holds no user; an answer the
    reading of which raises (it is not JSON or not an object, or [data], the
    user, [contributionsCollection] or [contributionCalendar] is not an
    object where the client calls [.get] on it: [data: null] is the plain
    case); and an object with a total, read as the integer the schema makes
    it (a missing total is 0). *)
Inductive GraphQLBody :=
| GqlErrors
| GqlNoUser
| GqlMalformed
| GqlTotal (totalContributions : Z).

(** The profile keys the client reads. *)
Record Profile := {
  email : option string;
  blog : option string;
  location : option string;
  name : option string;
  bio : option string;
  company : option string;
  twitter_username : option string;
  public_repos : Z;
  followers : Z;
  following : Z;
  created_at_ : option string;
  updated_at : option string
}.

(** The query parameters of a listing of a user's repositories. *)
Record RepoQuery := {
  q_sort : string;
  q_direction : string;
  q_per_page : nat;
  q_type : string
}.

(** The remote calls of the program. *)
Inductive Call :=
| GetContributors (owner repo : string) (page : nat)
| PostGraphQL (username : string)
| GetEvents (username : string) (page : nat)
| GetProfile (username : string)
| GetUserRepos (username : string) (params : RepoQuery)
| GetCommits (repo_name author : string)
| GetCommitDetail (repo_name sha : string)
| ScrapePinned (username : string).

(** The user a call asks about, when its address names one. *)
Definition subject (c : Call) : option string :=
  match c with
  | GetContributors _ _ _ => None
  | PostGraphQL u => Some u
  | GetEvents u _ => Some u
  | GetProfile u => Some u
  | GetUserRepos u _ => Some u
  | GetCommits _ author => Some author
  | GetCommitDetail _ _ => None
  | ScrapePinned u => Some u
  end.

(** A logged call.  [behalf] has no counterpart in the source: it names the
    contributor whose iteration of the qualification loop the call is made
    in, and is [None] outside that loop. *)
Record Entry := {
  behalf : option string;
  call : Call
}.

(** The service: a state [W] and, per call, the answer and the next state.
    An answer [None] is a request that raises (transport failure, undecodable
    body).  [pinned_repos] is the profile scraper of [scraper.py], taken as an
    external capability that returns a list or raises. *)
Class Service (W : Type) := {
  clock : W -> Z;
  contributors_page : string -> string -> nat -> W -> option (Response (list Candidate)) * W;
  graphql : string -> W -> option (Response GraphQLBody) * W;
  events_page : string -> nat -> W -> option (Response (list Event)) * W;
  profile : string -> W -> option (Response Profile) * W;
  user_repos : string -> RepoQuery -> W -> option (Response (list string)) * W;
  repo_commits : string -> string -> W -> option (Response (list string)) * W;
  commit_detail : string -> string -> W -> option (Response (option string)) * W;
  pinned_repos : string -> W -> option (list string) * W
}.

(** ** Computations against the service *)

Inductive Result (A : Type) :=
| Val (a : A)
| Exc          (* a Python exception is propagating *)
| Timeout.     (* the bound on an unbounded loop was reached *)
Arguments Val {A} a.
Arguments Exc {A}.
Arguments Timeout {A}.

Record Outcome (W A : Type) := {
  result : Result A;
  world : W;
  log : list Entry
}.
Arguments result {W A} o.
Arguments world {W A} o.
Arguments log {W A} o.

Definition M (W A : Type) : Type := W -> Outcome W A.

Definition ret {W A} (a : A) : M W A :=
  fun w => {| result := Val a; world := w; log := [] |}.

Definition bind {W A B} (m : M W A) (f : A -> M W B) : M W B :=
  fun w =>
    let o := m w in
    match result o with
    | Val a =>
        let o' := f a (world o) in
        {| result := result o'; world := world o'; log := log o ++ log o' |}
    | Exc => {| result := Exc; world := world o; log := log o |}
    | Timeout => {| result := Timeout; world := world o; log := log o |}
    end.

Notation "x <- m ;; k" := (bind m (fun x => k))
  (at level 100, m at next level, right associativity).

(** [try: m except Exception: handler] *)
Definition try_except {W A} (m handler : M W A) : M W A :=
  fun w =>
    let o := m w in
    match result o with
    | Exc =>
        let o' := handler (world o) in
        {| result := result o'; world := world o'; log := log o ++ log o' |}
    | _ => o
    end.

Definition raise {W A} : M W A :=
  fun w => {| result := Exc; world := w; log := [] |}.

Definition timeout {W A} : M W A :=
  fun w => {| result := Timeout; world := w; log := [] |}.

(** Perform one call: log it, let the service answer. *)
Definition request {W A} (c : Call) (endpoint : W -> option A * W) : M W A :=
  fun w =>
    let '(answer, w') := endpoint w in
    {| result := match answer with Some a => Val a | None => Exc end;
       world := w';
       log := [ {| behalf := None; call := c |} ] |}.

(** Read the clock ([datetime.now]). *)
Definition now {W} `{Service W} : M W Z :=
  fun w => {| result := Val (clock w); world := w; log := [] |}.

(** Mark every call of [m] as made for [username]. *)
Definition on_behalf {W A} (username : string) (m : M W A) : M W A :=
  fun w =>
    let o := m w in
    {| result := result o; world := world o;
       log := map (fun e => {| behalf := Some username; call := call e |}) (log o) |}.

Definition calls (l : list Entry) : list Call := map call l.

End Remote.

(* ===================================================================== *)
(** * github_api.py *)
(* ===================================================================== *)

Module GitHubAPIClient.
Import Remote.

(** [self]: only whether a token is configured matters. *)
Record Client := { token : option string }.

Definition has_token (self : Client) : bool :=
  match token self with
  | Some t => Str.truthy t
  | None => false
  end.

(** [timedelta(days=365)], in seconds. *)
Definition DAYS_365 : Z := 365 * 86400.

(** Truthiness of a value that is a string or [None]. *)
Definition truthy_opt (o : option string) : bool :=
  match o with
  | Some s => Str.truthy s
  | None => false
  end.

Section Client.
Context {W : Type} `{Service W}.

(** [get_repo_contributors]: the paging loop, at most [fuel] iterations. *)
Fixpoint get_repo_contributors_from (fuel : nat) (owner repo : string)
    (page : nat) (contributors : list Candidate) : M W (list Candidate) :=
  match fuel with
  | O => timeout
  | S fuel' =>
      response <- request (GetContributors owner repo page)
                          (contributors_page owner repo page) ;;
      match response with
      | StatusOther _ => ret contributors
      | Status200 [] => ret contributors
      | Status200 data =>
          get_repo_contributors_from fuel' owner repo (S page) (contributors ++ data)
      end
  end.

Definition get_repo_contributors (fuel : nat) (owner repo : string)
  : M W (list Candidate) :=
  get_repo_contributors_from fuel owner repo 1 [].

(** The inner loop of [get_commits_from_events] over one page: [inl] is the
    early [return total_commits], [inr] the total when the page is used up. *)
Fixpoint scan_events (cutoff_date : Z) (total_commits : Z) (events : list Event)
  : Z + Z :=
  match events with
  | [] => inr total_commits
  | event :: rest =>
      if String.eqb (type event) "PushEvent" then
        if (cutoff_date <=? created_at event)%Z
        then scan_events cutoff_date
                         (total_commits + Z.of_nat (length (commits event))) rest
        else inl total_commits
      else scan_events cutoff_date total_commits rest
  end.

(** The loop [for page in range(1, 4)], over the pages still to fetch. *)
Fixpoint scan_event_pages (username : string) (cutoff_date : Z)
    (pages : list nat) (total_commits : Z) : M W Z :=
  match pages with
  | [] => ret total_commits
  | page :: later =>
      response <- request (GetEvents username page) (events_page username page) ;;
      match response with
      | StatusOther _ => ret total_commits
      | Status200 [] => ret total_commits
      | Status200 events =>
          match scan_events cutoff_date total_commits events with
          | inl total => ret total
          | inr total => scan_event_pages username cutoff_date later total
          end
      end
  end.

Definition get_commits_from_events (username : string) : M W Z :=
  t <- now ;;
  let cutoff_date := (t - DAYS_365)%Z in
  scan_event_pages username cutoff_date [1; 2; 3]%nat 0%Z.

Definition get_user_contributions_last_year (self : Client) (username : string)
  : M W Z :=
  if negb (has_token self) then get_commits_from_events username
  else
    try_except
      (response <- request (PostGraphQL username) (graphql username) ;;
       match response with
       | StatusOther _ => get_commits_from_events username
       | Status200 GqlErrors => get_commits_from_events username
       | Status200 GqlNoUser => ret 0%Z
       | Status200 GqlMalformed => raise
       | Status200 (GqlTotal total_contributions) => ret total_contributions
       end)
      (get_commits_from_events username).

(** [get_user_profile]: [None] is the empty dict [{}]. *)
Definition get_user_profile (username : string) : M W (option Profile) :=
  response <- request (GetProfile username) (profile username) ;;
  match response with
  | StatusOther _ => ret None
  | Status200 data =>
      ret (Some {| email := email data;
                   blog := Utils.clean_blog_url (blog data);
                   location := location data;
                   name := name data;
                   bio := bio data;
                   company := company data;
                   twitter_username := twitter_username data;
                   public_repos := public_repos data;
                   followers := followers data;
                   following := following data;
                   created_at_ := created_at_ data;
                   updated_at := updated_at data |})
  end.

Definition _get_email_from_commit_api (repo_name commit_sha : string)
  : M W (option string) :=
  try_except
    (response <- request (GetCommitDetail repo_name commit_sha)
                         (commit_detail repo_name commit_sha) ;;
     match response with
     | StatusOther _ => ret None
     | Status200 email => ret email
     end)
    (ret None).

(** The loop over [reversed(commits)]. *)
Fixpoint first_valid_commit_email (repo_name : string) (shas : list string)
  : M W (option string) :=
  match shas with
  | [] => ret None
  | commit_sha :: rest =>
      email <- _get_email_from_commit_api repo_name commit_sha ;;
      match email with
      | Some e =>
          if Str.truthy e && Utils.is_valid_email e then ret (Some e)
          else first_valid_commit_email repo_name rest
      | None => first_valid_commit_email repo_name rest
      end
  end.

Definition _extract_email_from_repo_commits (username repo_name : string)
  : M W (option string) :=
  try_except
    (response <- request (GetCommits repo_name username)
                         (repo_commits repo_name username) ;;
     match response with
     | StatusOther _ => ret None
     | Status200 [] => ret None
     | Status200 commits => first_valid_commit_email repo_name (rev commits)
     end)
    (ret None).

(** The loop [for i, repo in enumerate(repos)] with its [if i >= 9: break];
    [None] when the loop ends without returning. *)
Fixpoint scan_oldest_repos (username : string) (i : nat) (repos : list string)
  : M W (option string) :=
  match repos with
  | [] => ret None
  | repo_name :: rest =>
      email <- _extract_email_from_repo_commits username repo_name ;;
      if truthy_opt email then ret email
      else if (9 <=? i)%nat then ret None
      else scan_oldest_repos username (S i) rest
  end.

(** The loop over [recent_repos[:5]] (the slice is taken by the caller). *)
Fixpoint scan_recent_repos (username : string) (repos : list string)
  : M W (option string) :=
  match repos with
  | [] => ret None
  | repo_name :: rest =>
      email <- _extract_email_from_repo_commits username repo_name ;;
      if truthy_opt email then ret email
      else scan_recent_repos username rest
  end.

(** The two queries of [get_commit_email_from_repo]. *)
Definition params : RepoQuery :=
  {| q_sort := "created"; q_direction := "asc"; q_per_page := 30; q_type := "all" |}.

Definition recent_params : RepoQuery :=
  {| q_sort := "updated"; q_direction := "desc"; q_per_page := 15; q_type := "owner" |}.

(** [get_commit_email_from_repo]; [src_repo] is not used by the source. *)
Definition get_commit_email_from_repo (username src_repo : string)
  : M W (option string) :=
  try_except
    (response <- request (GetUserRepos username params)
                         (user_repos username params) ;;
     match response with
     | StatusOther _ => ret None
     | Status200 [] => ret None
     | Status200 repos =>
         found <- scan_oldest_repos username 0 repos ;;
         match found with
         | Some email => ret (Some email)
         | None =>
             response <- request (GetUserRepos username recent_params)
                                 (user_repos username recent_params) ;;
             match response with
             | Status200 recent_repos =>
                 found <- scan_recent_repos username (take 5 recent_repos) ;;
                 match found with
                 | Some email => ret (Some email)
                 | None => ret None
                 end
             | StatusOther _ => ret None
             end
         end
     end)
    (ret None).

End Client.
End GitHubAPIClient.

(* ===================================================================== *)
(** * crawler.py *)
(* ===================================================================== *)

Module Crawler.
Import Remote.

Section Crawler.
Context {W : Type} `{Service W}.

(** [get_pinned_repos(username)] of [scraper.py], as a call. *)
Definition get_pinned_repos (username : string) : M W (list string) :=
  request (ScrapePinned username) (pinned_repos username).

(** The loop over [pinned_repos]; [commit_email] is the variable it assigns. *)
Fixpoint scan_pinned_repos (username : string) (pinned : list string)
    (commit_email : option string) : M W (option string) :=
  match pinned with
  | [] => ret commit_email
  | pinned_repo :: rest =>
      commit_email <-
        GitHubAPIClient._extract_email_from_repo_commits username pinned_repo ;;
      if GitHubAPIClient.truthy_opt commit_email then ret commit_email
      else scan_pinned_repos username rest commit_email
  end.

(** Lines 58-68 of [filter_contributors_for_repo]: the commit email of one
    qualifying contributor. *)
Definition discover_commit_email (username src_repo : string)
  : M W (option string) :=
  commit_email <- GitHubAPIClient.get_commit_email_from_repo username src_repo ;;
  match commit_email with
  | None =>
      pinned <- get_pinned_repos username ;;
      scan_pinned_repos username pinned commit_email
  | Some _ => ret commit_email
  end.

(** [profile.get(key, default)] on a profile that may be the empty dict. *)
Definition profile_get {A} (p : option Profile) (field : Profile -> A)
    (default : A) : A :=
  match p with
  | Some data => field data
  | None => default
  end.

(** The body of the loop over [high_contributors]: the record appended for a
    contributor that qualifies, [None] for one that does not. *)
Definition qualify_contributor (self : GitHubAPIClient.Client)
    (repo_url owner repo : string) (min_yearly_contributions : Z)
    (contributor : Candidate) : M W (option DataHandler.Contributor) :=
  let username := login contributor in
  yearly_contributions <-
    GitHubAPIClient.get_user_contributions_last_year self username ;;
  if (min_yearly_contributions <=? yearly_contributions)%Z then
    profile <- GitHubAPIClient.get_user_profile username ;;
    commit_email <- discover_commit_email username (owner +:+ "/" +:+ repo) ;;
    ret (Some
      {| DataHandler.repo_url := Some repo_url;
         DataHandler.repo_name := Some (owner +:+ "/" +:+ repo);
         DataHandler.username := Some username;
         DataHandler.repo_contributions := contributions contributor;
         DataHandler.yearly_contributions := yearly_contributions;
         DataHandler.profile_url := Some (html_url contributor);
         DataHandler.name := profile_get profile name (Some "");
         DataHandler.email := profile_get profile email (Some "");
         DataHandler.commit_email :=
           Some (if GitHubAPIClient.truthy_opt commit_email
                 then DataHandler.fmt commit_email else "");
         DataHandler.website := profile_get profile blog (Some "");
         DataHandler.location := profile_get profile location (Some "");
         DataHandler.company := profile_get profile company (Some "");
         DataHandler.twitter := profile_get profile twitter_username (Some "");
         DataHandler.bio := profile_get profile bio (Some "");
         DataHandler.public_repos := profile_get profile public_repos 0%Z;
         DataHandler.followers := profile_get profile followers 0%Z;
         DataHandler.following := profile_get profile following 0%Z;
         DataHandler.account_created := profile_get profile created_at_ (Some "") |})
  else ret None.

(** The loop over [high_contributors], appending to [qualified_contributors]. *)
Fixpoint qualify_contributors (self : GitHubAPIClient.Client)
    (repo_url owner repo : string) (min_yearly_contributions : Z)
    (high_contributors : list Candidate)
    (qualified_contributors : list DataHandler.Contributor)
  : M W (list DataHandler.Contributor) :=
  match high_contributors with
  | [] => ret qualified_contributors
  | contributor :: rest =>
      row <- on_behalf (login contributor)
               (qualify_contributor self repo_url owner repo
                                    min_yearly_contributions contributor) ;;
      qualify_contributors self repo_url owner repo min_yearly_contributions rest
        (match row with
         | Some r => qualified_contributors ++ [r]
         | None => qualified_contributors
         end)
  end.

(** The comprehension that builds [high_contributors]. *)
Definition high_contributors (min_repo_contributions : Z)
    (contributors : list Candidate) : list Candidate :=
  List.filter (fun c => (min_repo_contributions <=? contributions c)%Z) contributors.

(** [filter_contributors_for_repo]; [fuel] bounds the paging of the
    contributor listing.  The URL is parsed before the [try] is entered. *)
Definition filter_contributors_for_repo (self : GitHubAPIClient.Client)
    (fuel : nat) (repo_url : string)
    (min_repo_contributions min_yearly_contributions : Z)
  : M W (list DataHandler.Contributor) :=
  if Utils.urlparse_raises repo_url then raise
  else
    match Utils.parse_repo_url repo_url with
    | (Some owner, Some repo) =>
        if negb (Str.truthy owner) || negb (Str.truthy repo) then ret []
        else
          try_except
            (contributors <- GitHubAPIClient.get_repo_contributors fuel owner repo ;;
             qualify_contributors self repo_url owner repo min_yearly_contributions
               (high_contributors min_repo_contributions contributors) [])
            (ret [])
    | _ => ret []
    end.

End Crawler.
End Crawler.

(* ===================================================================== *)
(** * Vocabulary of the statements *)
(* ===================================================================== *)

(** [p] occurs in [s] as a contiguous substring. *)
Definition occurs_in (p s : string) : Prop :=
  exists pre post, s = pre +:+ p +:+ post.

(** The same character, or the two cases of one letter of the ASCII
    alphabet. *)
Definition same_letter (a b : ascii) : bool :=
  Ascii.eqb a b ||
  (Str.is_alpha a && Str.is_alpha b &&
   (Nat.eqb (nat_of_ascii a + 32) (nat_of_ascii b) ||
    Nat.eqb (nat_of_ascii b + 32) (nat_of_ascii a))).

(** Two texts that differ in the case of their letters at most. *)
Fixpoint same_text (s t : string) : bool :=
  match s, t with
  | EmptyString, EmptyString => true
  | String a s', String b t' => same_letter a b && same_text s' t'
  | _, _ => false
  end.

(** [p] occurs in [s], the case of the letters left aside. *)
Definition occurs_ignoring_case (p s : string) : Prop :=
  exists pre t post, s = pre +:+ t +:+ post /\ same_text p t = true.

(** All characters. *)
Definition all_ascii : list ascii := map ascii_of_nat (seq 0 256).

(** The usernames of a frame, missing ones included, as a set. *)
Definition key_set (df : list DataHandler.Contributor) : gset (option string) :=
  list_to_set (DataHandler.usernames df).

(** One call of [save_to_excel] with everything it depends on. *)
Record Run := {
  run_now : string;
  run_write : DataHandler.WriteOutcome;
  run_contributors : list DataHandler.Contributor;
  run_filename : string;
  run_check_directory : option string
}.

Definition apply_run (fs : DataHandler.FileSystem) (r : Run) : DataHandler.FileSystem :=
  DataHandler.save_to_excel (run_now r) (run_write r) (run_contributors r)
                            (run_filename r) (run_check_directory r) fs.

(** The file system after a sequence of calls. *)
Definition apply_runs (fs : DataHandler.FileSystem) (runs : list Run)
  : DataHandler.FileSystem :=
  fold_left apply_run runs fs.



(** A value has a URL scheme when the text before its first [":"] is a
    scheme name: a letter followed by letters, digits, ["+"], ["-"], ["."]. *)
Definition has_url_scheme (s : string) : bool :=
  match s with
  | String c0 _ =>
      Str.is_alpha c0 &&
      match Str.cut ":" s with
      | Some (pre, _) => Utils.all_chars Utils.is_scheme_char pre
      | None => false
      end
  | EmptyString => false
  end.

(** A row with the given username and repository, nothing else filled in. *)
Definition sample_row (u repo : string) : DataHandler.Contributor :=
  {| DataHandler.repo_url := Some ("https://github.com/" +:+ repo);
     DataHandler.repo_name := Some repo;
     DataHandler.username := Some u;
     DataHandler.repo_contributions := 150;
     DataHandler.yearly_contributions := 500;
     DataHandler.profile_url := Some ("https://github.com/" +:+ u);
     DataHandler.name := None;
     DataHandler.email := None;
     DataHandler.commit_email := Some "";
     DataHandler.website := Some "";
     DataHandler.location := None;
     DataHandler.company := None;
     DataHandler.twitter := None;
     DataHandler.bio := None;
     DataHandler.public_repos := 0;
     DataHandler.followers := 0;
     DataHandler.following := 0;
     DataHandler.account_created := None |}.

(** A workbook holding the given rows and no other information. *)
Definition sample_workbook (rows : list DataHandler.Contributor) : DataHandler.FileContent :=
  DataHandler.Xlsx
    (DataHandler.workbook_of "2024-01-01 00:00:00" None
       {| DataHandler.new_df := rows; DataHandler.combined_df := rows;
          DataHandler.duplicates_found := ∅;
          DataHandler.removed_internal := 0; DataHandler.removed_external := 0;
          DataHandler.other_files_processed := 0 |}).

Definition no_files : DataHandler.FileSystem :=
  {| DataHandler.dirs := ∅; DataHandler.files := ∅ |}.

(** A target with alice and bob next to an older workbook that lists carol. *)
Definition archive_fs : DataHandler.FileSystem :=
  {| DataHandler.dirs := {[ "/data" ]};
     DataHandler.files :=
       {[ "/data/results.xlsx" :=
            sample_workbook [sample_row "alice" "o/r1"; sample_row "bob" "o/r1"];
          "/data/archive.xlsx" := sample_workbook [sample_row "carol" "o/r0"] ]} |}.

(** ** The event feed *)

Definition is_push (e : Remote.Event) : bool :=
  String.eqb (Remote.type e) "PushEvent".

(** A push event inside the window that starts at [cutoff]. *)
Definition in_window (cutoff : Z) (e : Remote.Event) : bool :=
  is_push e && (cutoff <=? Remote.created_at e)%Z.

(** A push event older than [cutoff]. *)
Definition old_push (cutoff : Z) (e : Remote.Event) : bool :=
  is_push e && (Remote.created_at e <? cutoff)%Z.

(** An event of any type older than [cutoff]. *)
Definition older (cutoff : Z) (e : Remote.Event) : bool :=
  (Remote.created_at e <? cutoff)%Z.

(** The commits of the push events of [events] that lie in the window. *)
Fixpoint in_window_commits (cutoff : Z) (events : list Remote.Event) : Z :=
  match events with
  | [] => 0
  | e :: rest =>
      ((if in_window cutoff e then Z.of_nat (length (Remote.commits e)) else 0)
       + in_window_commits cutoff rest)%Z
  end.

(** The events that precede the first push event older than [cutoff]. *)
Fixpoint before_old_push (cutoff : Z) (events : list Remote.Event)
  : list Remote.Event :=
  match events with
  | [] => []
  | e :: rest => if old_push cutoff e then [] else e :: before_old_push cutoff rest
  end.

(** The service answers every request for a page of [username]'s events with
    that page of [feed]; pages past the end are empty. *)
Definition serves_feed {W} `{Remote.Service W} (username : string)
    (feed : list (list Remote.Event)) : Prop :=
  forall (page : nat) (w : W),
    (Remote.events_page username page w).1 =
    Some (Remote.Status200 (nth (page - 1) feed [])).

(** ** Email discovery as an ordered list of strategies *)

Section Strategies.
Import Remote.
Context {W : Type} `{Service W}.

(** Check each repository in turn with the per-repository commit scan; stop
    at the first that yields an email. *)
Fixpoint check_each (username : string) (repos : list string)
  : M W (option string) :=
  match repos with
  | [] => ret None
  | repo_name :: rest =>
      email <- GitHubAPIClient._extract_email_from_repo_commits username repo_name ;;
      match email with
      | Some _ => ret email
      | None => check_each username rest
      end
  end.

(** A repository listing of the user; [None] when it cannot be had. *)
Definition listing (username : string) (query : RepoQuery)
  : M W (option (list string)) :=
  try_except
    (response <- request (GetUserRepos username query) (user_repos username query) ;;
     match response with
     | Status200 repos => ret (Some repos)
     | StatusOther _ => ret None
     end)
    (ret None).

(** Strategy 1: up to 10 repositories of the listing [oldest].  The flag
    tells whether the listing was there and not empty. *)
Definition strategy_oldest (oldest : RepoQuery) (username : string)
  : M W (bool * option string) :=
  repos <- listing username oldest ;;
  match repos with
  | Some (r :: rs) =>
      email <- check_each username (take 10 (r :: rs)) ;;
      ret (true, email)
  | _ => ret (false, None)
  end.

(** Strategy 2: up to 5 repositories of the listing [recent]. *)
Definition strategy_recent (recent : RepoQuery) (username : string)
  : M W (option string) :=
  repos <- listing username recent ;;
  match repos with
  | Some recent_repos => check_each username (take 5 recent_repos)
  | None => ret None
  end.

(** Strategy 3: the pinned repositories. *)
Definition strategy_pinned (username : string) : M W (option string) :=
  pinned <- Crawler.get_pinned_repos username ;;
  check_each username pinned.

(** The strategies in order, each tried only when the ones before found
    nothing; strategy 2 needs the listing of strategy 1 to have been usable. *)
Definition ordered_discovery (oldest recent : RepoQuery) (username : string)
  : M W (option string) :=
  first <- strategy_oldest oldest username ;;
  match first.2 with
  | Some _ => ret first.2
  | None =>
      second <- (if first.1 then strategy_recent recent username else ret None) ;;
      match second with
      | Some _ => ret second
      | None => strategy_pinned username
      end
  end.

End Strategies.

Definition alice_candidate : Remote.Candidate :=
  {| Remote.login := "alice"; Remote.contributions := 150;
     Remote.html_url := "https://github.com/alice" |}.

Definition bob_candidate : Remote.Candidate :=
  {| Remote.login := "bob"; Remote.contributions := 20;
     Remote.html_url := "https://github.com/bob" |}.

(** The user's own repositories, oldest first: the query of strategy 1 as
    the source's comments describe it. *)
Definition own_oldest : Remote.RepoQuery :=
  {| Remote.q_sort := "created"; Remote.q_direction := "asc";
     Remote.q_per_page := 30; Remote.q_type := "owner" |}.

(** The repository [repo_name] ([owner/name]) belongs to [username]. *)
Definition owned_by (username repo_name : string) : bool :=
  Str.startswith (username +:+ "/") repo_name.

(** ** A service with fixed answers *)

Record Static := {
  st_clock : Z;
  st_contributors : string -> string -> list (list Remote.Candidate);
  st_graphql : string -> option (Remote.Response Remote.GraphQLBody);
  st_events : string -> list (list Remote.Event);
  st_profile : string -> option (Remote.Response Remote.Profile);
  st_repos : string -> Remote.RepoQuery -> option (Remote.Response (list string));
  st_commits : string -> string -> option (Remote.Response (list string));
  st_email : string -> string -> option (Remote.Response (option string));
  st_pinned : string -> option (list string)
}.

Definition static_service (s : Static) : Remote.Service unit :=
  {| Remote.clock := fun _ => st_clock s;
     Remote.contributors_page := fun owner repo page w =>
       (Some (Remote.Status200 (nth (page - 1) (st_contributors s owner repo) [])), w);
     Remote.graphql := fun u w => (st_graphql s u, w);
     Remote.events_page := fun u page w =>
       (Some (Remote.Status200 (nth (page - 1) (st_events s u) [])), w);
     Remote.profile := fun u w => (st_profile s u, w);
     Remote.user_repos := fun u query w => (st_repos s u query, w);
     Remote.repo_commits := fun repo author w => (st_commits s repo author, w);
     Remote.commit_detail := fun repo sha w => (st_email s repo sha, w);
     Remote.pinned_repos := fun u w => (st_pinned s u, w) |}.

(** An answer of the commit scan: nothing, or an email that passes the
    validity filter. *)
Definition found_valid (x : option string) : Prop :=
  x = None \/ exists e, x = Some e /\ Utils.is_valid_email e = true.

(** A user whose oldest listed repository belongs to an organisation they
    are a member of; their commits there carry a real address, their own
    repository has no commits of theirs, and nothing is pinned. *)
Definition member_service : Remote.Service unit :=
  static_service
    {| st_clock := 86400000;
       st_contributors := fun _ _ => [];
       st_graphql := fun _ => None;
       st_events := fun _ => [];
       st_profile := fun _ => None;
       st_repos := fun _ query =>
         if String.eqb (Remote.q_type query) "owner"
         then Some (Remote.Status200 ["dev/dotfiles"])
         else Some (Remote.Status200 ["acme/platform"; "dev/dotfiles"]);
       st_commits := fun repo_name _ =>
         if String.eqb repo_name "acme/platform"
         then Some (Remote.Status200 ["sha1"])
         else Some (Remote.Status200 []);
       st_email := fun _ _ => Some (Remote.Status200 (Some "dev@acme.io"));
       st_pinned := fun _ => Some [] |}.

(** ** Statements about computations *)

(** Every logged entry of [m] satisfies [P], from any state. *)
Definition logs_only {W A} (P : Remote.Entry -> Prop) (m : Remote.M W A) : Prop :=
  forall w, Forall P (Remote.log (m w)).

(** [m] returns a value or raises: it contains no unbounded loop. *)
Definition bounded {W A} (m : Remote.M W A) : Prop :=
  forall w, Remote.result (m w) <> Remote.Timeout.

(** [m] returns a value. *)
Definition returns {W A} (m : Remote.M W A) : Prop :=
  forall w, exists a, Remote.result (m w) = Remote.Val a.

(** A repository with two listed contributors, one below the threshold;
    everyone has 500 contributions in the last year, no profile, no
    repositories and nothing pinned. *)
Definition team_service : Remote.Service unit :=
  static_service
    {| st_clock := 86400000;
       st_contributors := fun _ _ => [ [alice_candidate; bob_candidate] ];
       st_graphql := fun _ => Some (Remote.Status200 (Remote.GqlTotal 500));
       st_events := fun _ => [];
       st_profile := fun _ => Some (Remote.StatusOther 404);
       st_repos := fun _ _ => Some (Remote.Status200 []);
       st_commits := fun _ _ => None;
       st_email := fun _ _ => None;
       st_pinned := fun _ => Some [] |}.

(** A logged call that names a user names [u]. *)
Definition about (u : string) (e : Remote.Entry) : Prop :=
  forall v, Remote.subject (Remote.call e) = Some v -> v = u.

(** A logged call made outside the qualification loop that names no user. *)
Definition anonymous (e : Remote.Entry) : Prop :=
  Remote.behalf e = None /\ Remote.subject (Remote.call e) = None.

(** ** Sample services *)

Definition push_recent : Remote.Event :=
  {| Remote.type := "PushEvent"; Remote.created_at := 86000000;
     Remote.commits := ["c1"; "c2"] |}.

Definition watch_old : Remote.Event :=
  {| Remote.type := "WatchEvent"; Remote.created_at := 51000000;
     Remote.commits := [] |}.

Definition watch_older : Remote.Event :=
  {| Remote.type := "WatchEvent"; Remote.created_at := 50000000;
     Remote.commits := [] |}.

Definition push_old : Remote.Event :=
  {| Remote.type := "PushEvent"; Remote.created_at := 49000000;
     Remote.commits := ["c0"] |}.

(** A feed in newest-first order: a recent push, then events of another
    type from before the cutoff, on two pages. *)
Definition watched_feed : list (list Remote.Event) :=
  [ [push_recent; watch_old]; [watch_older] ].

Definition watched_service : Remote.Service unit :=
  static_service
    {| st_clock := 86400000;
       st_contributors := fun _ _ => [];
       st_graphql := fun _ => None;
       st_events := fun _ => watched_feed;
       st_profile := fun _ => None;
       st_repos := fun _ _ => None;
       st_commits := fun _ _ => None;
       st_email := fun _ _ => None;
       st_pinned := fun _ => None |}.

(** A feed whose first page ends with a push from before the cutoff. *)
Definition pushed_feed : list (list Remote.Event) :=
  [ [push_recent; watch_old; push_old]; [push_old] ].

Definition pushed_service : Remote.Service unit :=
  static_service
    {| st_clock := 86400000;
       st_contributors := fun _ _ => [];
       st_graphql := fun _ => None;
       st_events := fun _ => pushed_feed;
       st_profile := fun _ => None;
       st_repos := fun _ _ => None;
       st_commits := fun _ _ => None;
       st_email := fun _ _ => None;
       st_pinned := fun _ => None |}.

(* ===================================================================== *)
(** * Further functions of the sources *)
(* ===================================================================== *)

(** ** utils.py, continued *)

Module UtilsMore.

(** [urllib.parse.uses_params] (as of CPython 3.11): the schemes for which
    the parser splits parameters off the last path segment.  [Utils.urlparse]
    treats the two of them that [parse_repo_url] lets through;
    [is_valid_github_url] does not look at the scheme, so all of them matter
    here. *)
Definition uses_params : list string :=
  [ ""; "ftp"; "hdl"; "prospero"; "http"; "imap"; "https"; "shttp"; "rtsp";
    "rtspu"; "sip"; "sips"; "mms"; "sftp"; "tel" ].

Definition urlparse (url : string) : Utils.ParseResult :=
  let '(sch, rest) := Utils.split_scheme (Utils.sanitize url) in
  let '(loc, rest) :=
    match Str.drop_prefix "//" rest with
    | Some r => Str.span (fun c => negb (Utils.is_netloc_end c)) r
    | None => (EmptyString, rest)
    end in
  let rest := Utils.until "?" (Utils.until "#" rest) in
  let rest :=
    if existsb (String.eqb sch) uses_params
    then Utils.drop_params rest else rest in
  {| Utils.scheme := sch; Utils.netloc := loc; Utils.path := rest |}.

(** [is_valid_github_url(url)], with the truthiness of its result.  The
    parser raises only on a network location that holds a bracket or a
    character that is not ASCII, hence is not ["github.com"]; the [except]
    clause turns the exception into the [False] that the comparison of the
    network location gives here. *)
Definition is_valid_github_url (url : string) : bool :=
  if negb (Str.truthy url) || String.eqb url "nan" then false
  else
    let parsed := urlparse url in
    if negb (String.eqb (Utils.netloc parsed) "github.com") then false
    else
      match Str.split "/" (Str.strip "/" (Utils.path parsed)) with
      | p0 :: p1 :: _ => Str.truthy p0 && Str.truthy p1
      | _ => false
      end.

(** The value of the key ["message"] of a JSON object.  An element of an
    array is [Some text] when it is a string and [None] otherwise; of an
    object the keys are kept. *)
Inductive MessageField :=
| NoMessage                  (* the key is missing *)
| TextMessage (text : string)
| ArrayMessage (items : list (option string))
| ObjectMessage (keys : list string)
| OtherMessage.              (* null, a number, a boolean: not a container *)

(** [phrase == item] for an element of a JSON array. *)
Definition is_text (phrase : string) (item : option string) : bool :=
  match item with
  | Some text => String.eqb phrase text
  | None => false
  end.

(** The body of a response as [response.json()] sees it: not JSON at all
    ([ValueError]), an object, or a JSON value of another kind. *)
Inductive JsonBody :=
| NotJson
| JsonObject (message : MessageField)
| JsonOther.

Record HttpResponse := {
  status_code : nat;
  json : JsonBody
}.

(** The values that reach [is_rate_limit_exceeded] in the program: a
    response object, a string, or [None]. *)
Inductive PyValue :=
| PyNone
| PyStr (s : string)
| PyResponse (r : HttpResponse).

(** [is_rate_limit_exceeded(response)]; [None] is an exception that leaves
    the function: the [AttributeError] of reading [status_code] from a value
    that has none or [get] from a body that is no object, the [TypeError] of
    searching a message that is no container.  The operator [in] looks for
    a substring in a text, for an equal element in an array and for a key in
    an object. *)
Definition is_rate_limit_exceeded (response : PyValue) : option bool :=
  match response with
  | PyResponse r =>
      if Nat.eqb (status_code r) 403 then
        match json r with
        | JsonObject NoMessage => Some (Str.contains "API rate limit exceeded" "")
        | JsonObject (TextMessage text) =>
            Some (Str.contains "API rate limit exceeded" text)
        | JsonObject (ArrayMessage items) =>
            Some (existsb (is_text "API rate limit exceeded") items)
        | JsonObject (ObjectMessage keys) =>
            Some (existsb (String.eqb "API rate limit exceeded") keys)
        | JsonObject OtherMessage => None
        | JsonOther => None
        | NotJson => Some false
        end
      else Some false
  | PyStr _ => None
  | PyNone => None
  end.

End UtilsMore.

(** ** The remote sources of repository URLs and star counts *)

Module RemoteMore.
Import Remote.

(** What the program reads besides the calls of [Remote]: the repository
    record (for its [stargazers_count], [None] when the key is missing), the
    README record (for its base64 [content]), and the export of a sheet (its
    rows' first cells, each as [str(cell).strip()]).  An answer [None] is a
    request that raises.  [decode_readme] is [base64.b64decode] followed by
    [decode('utf-8')], [None] when either raises.  [input_int] is
    [int(input(prompt))].  These reads are not logged. *)
Class Sources (W : Type) := {
  repo_record : string -> string -> W -> option (option Z) * W;
  readme_record : string -> string -> W -> option (Response (option string)) * W;
  decode_readme : string -> option string;
  read_csv : string -> W -> option (list string) * W;
  input_int : W -> option Z * W
}.

(** Perform a read that is not logged. *)
Definition consult {W A} (endpoint : W -> option A * W) : M W A :=
  fun w =>
    let '(answer, w') := endpoint w in
    {| result := match answer with Some a => Val a | None => Exc end;
       world := w';
       log := [] |}.

End RemoteMore.

(** ** data_handler.py, continued *)

Module DataHandlerMore.
Import Remote RemoteMore.

(** [re.sub(r'/edit[?#]gid=', '/export?format=csv&gid=', s)]; [skip] counts
    the characters of the last match still to be passed over. *)
Fixpoint sub_edit_gid_from (skip : nat) (s : string) : string :=
  match s with
  | EmptyString => EmptyString
  | String c s' =>
      match skip with
      | S k => sub_edit_gid_from k s'
      | O =>
          if Str.startswith "/edit?gid=" s || Str.startswith "/edit#gid=" s
          then "/export?format=csv&gid=" +:+ sub_edit_gid_from 9 s'
          else String c (sub_edit_gid_from 0 s')
      end
  end.

(** The CSV export URL computed from the sheet URL. *)
Definition csv_export_url (sheet_url : string) : string :=
  if Str.contains "/edit" sheet_url then
    if Str.contains "?gid=" sheet_url || Str.contains "#gid=" sheet_url
    then sub_edit_gid_from 0 sheet_url
    else Str.replace "/edit" "/export?format=csv" sheet_url
  else sheet_url +:+ "/export?format=csv".

(** [range(a, b)] *)
Definition range (a b : Z) : list Z :=
  map (fun i => (a + Z.of_nat i)%Z) (seq 0 (Z.to_nat (b - a))).

(** The loop over the rows of the loaded sheet; [column] is [df.iloc[:, 0]]
    with each cell as [str(cell).strip()]. *)
Definition extract_repos_from_rows (column : list string) (start_row end_row : Z)
  : list string :=
  let start_idx := Z.max 0 (start_row - 1) in
  let end_idx := Z.min (Z.of_nat (length column)) end_row in
  flat_map
    (fun idx =>
       if (idx <? Z.of_nat (length column))%Z then
         let url := nth (Z.to_nat idx) column EmptyString in
         if UtilsMore.is_valid_github_url url then [url] else []
       else [])
    (range start_idx end_idx).

Section Sheet.
Context {W : Type} `{Sources W}.

(** [extract_repos_from_google_sheet(sheet_url, start_row, end_row)] *)
Definition extract_repos_from_google_sheet (sheet_url : string)
    (start_row end_row : Z) : M W (list string) :=
  let csv_url := csv_export_url sheet_url in
  try_except
    (column <- consult (read_csv csv_url) ;;
     ret (extract_repos_from_rows column start_row end_row))
    (ret []).

End Sheet.
End DataHandlerMore.

(** ** github_api.py, continued *)

Module GitHubAPIClientMore.
Import Remote RemoteMore.

Section Client.
Context {W : Type} `{Sources W}.

(** [get_repo_readme(owner, repo)] *)
Definition get_repo_readme (owner repo : string) : M W (option string) :=
  response <- consult (readme_record owner repo) ;;
  match response with
  | StatusOther _ => ret None
  | Status200 encoded_content =>
      if GitHubAPIClient.truthy_opt encoded_content then
        match decode_readme (DataHandler.fmt encoded_content) with
        | Some text => ret (Some text)
        | None => raise
        end
      else ret None
  end.

(** [get_repo_stars(owner, repo)]: the status of the response is not
    looked at. *)
Definition get_repo_stars (owner repo : string) : M W (option Z) :=
  consult (repo_record owner repo).

End Client.
End GitHubAPIClientMore.

(** ** crawler.py, continued *)

Module CrawlerMore.
Import Remote RemoteMore.

Section Crawler.
Context {W : Type} `{Service W} `{Sources W}.

(** The star test at the head of the loop body of [process_multiple_repos]:
    whether the repository is passed over. *)
Definition skipped_for_stars (repo_url : string) (min_stars : Z) : M W bool :=
  if negb (Z.eqb min_stars 0) then
    if Utils.urlparse_raises repo_url then raise
    else
      let '(owner, repo) := Utils.parse_repo_url repo_url in
      repo_stars <- GitHubAPIClientMore.get_repo_stars (DataHandler.fmt owner)
                                                        (DataHandler.fmt repo) ;;
      match repo_stars with
      | None => ret true
      | Some n => ret (Z.eqb n 0 || (n <? min_stars)%Z)
      end
  else ret false.

(** [process_multiple_repos]; [all_contributors] is the list it extends. *)
Fixpoint process_multiple_repos (self : GitHubAPIClient.Client) (fuel : nat)
    (repo_urls : list string) (min_stars : Z)
    (min_repo_contributions min_yearly_contributions : Z)
    (all_contributors : list DataHandler.Contributor)
  : M W (list DataHandler.Contributor) :=
  match repo_urls with
  | [] => ret all_contributors
  | repo_url :: rest =>
      skip <- skipped_for_stars repo_url min_stars ;;
      if skip then
        process_multiple_repos self fuel rest min_stars min_repo_contributions
                               min_yearly_contributions all_contributors
      else
        contributors <-
          Crawler.filter_contributors_for_repo self fuel repo_url
            min_repo_contributions min_yearly_contributions ;;
        process_multiple_repos self fuel rest min_stars min_repo_contributions
                               min_yearly_contributions
                               (all_contributors ++ contributors)
  end.

(** [count_stars]; [star_counts] is the dict it fills. *)
Fixpoint count_stars (repo_urls : list string) (star_counts : gmap string Z)
  : M W (gmap string Z) :=
  match repo_urls with
  | [] => ret star_counts
  | repo_url :: rest =>
      if Utils.urlparse_raises repo_url then raise
      else
        let '(owner, repo) := Utils.parse_repo_url repo_url in
        stars <- GitHubAPIClientMore.get_repo_stars (DataHandler.fmt owner)
                                                    (DataHandler.fmt repo) ;;
        match stars with
        | None => count_stars rest star_counts
        | Some n =>
            if Z.eqb n 0 then count_stars rest star_counts
            else count_stars rest (<[repo_url := n]> star_counts)
        end
  end.

(** What [readme_content] is when it reaches [is_rate_limit_exceeded]. *)
Definition readme_value (readme_content : option string) : UtilsMore.PyValue :=
  match readme_content with
  | Some text => UtilsMore.PyStr text
  | None => UtilsMore.PyNone
  end.

(** [extract_repos]; the result [None] is a call that returns nothing.  The
    [while] loop tests a value that does not change: it raises, is skipped,
    or never ends. *)
Definition extract_repos (google_sheet_url : option string)
    (start_row end_row : Z) (master_repo : option string)
  : M W (option (list string)) :=
  match google_sheet_url, master_repo with
  | None, None => ret None
  | _, _ =>
      if GitHubAPIClient.truthy_opt master_repo then
        if Utils.urlparse_raises (DataHandler.fmt master_repo) then raise
        else
          let '(owner, repo) := Utils.parse_repo_url (DataHandler.fmt master_repo) in
          readme_content <- GitHubAPIClientMore.get_repo_readme
                              (DataHandler.fmt owner) (DataHandler.fmt repo) ;;
          match UtilsMore.is_rate_limit_exceeded (readme_value readme_content) with
          | None => raise
          | Some true => timeout
          | Some false =>
              if GitHubAPIClient.truthy_opt readme_content then
                ret (Some (DataHandler.get_list_of_repo_urls_from_readme
                             (DataHandler.fmt readme_content)
                             (DataHandler.fmt owner) (DataHandler.fmt repo)))
              else ret None
          end
      else
        match google_sheet_url with
        | Some sheet_url =>
            urls <- DataHandlerMore.extract_repos_from_google_sheet
                      sheet_url start_row end_row ;;
            ret (Some urls)
        | None => raise
        end
  end.

(** [GitHubCrawler.save_to_excel(contributors)] with its default file
    name. *)
Definition save_to_excel (now : string) (write : DataHandler.WriteOutcome)
    (contributors : list DataHandler.Contributor) (fs : DataHandler.FileSystem)
  : DataHandler.FileSystem :=
  DataHandler.save_to_excel now write contributors
                            "github_contributors_results.xlsx" None fs.

End Crawler.
End CrawlerMore.

(** ** main.py *)

Module Main.
Import Remote RemoteMore.

Section Main.
Context {W : Type} `{Service W} `{Sources W}.

(** [row or int(input(prompt))] *)
Definition row_number (row : option Z) : M W Z :=
  match row with
  | Some n => if Z.eqb n 0 then consult input_int else ret n
  | None => consult input_int
  end.

(** [main]: the file system it leaves.  [GITHUB_TOKEN] is the value of the
    environment variable, [now] and [write] are the clock reading and the
    fate of the writes in [save_to_excel], whose exception leaves [main];
    [fuel] bounds the paging of the contributor listings. *)
Definition main (GITHUB_TOKEN : string) (fuel : nat) (now : string)
    (write : DataHandler.WriteOutcome)
    (google_sheet_url : option string) (start_row end_row : option Z)
    (master_repo : option string) (min_stars : Z)
    (fs : DataHandler.FileSystem) : M W DataHandler.FileSystem :=
  START_ROW <- row_number start_row ;;
  END_ROW <- row_number end_row ;;
  let MIN_REPO_CONTRIBUTIONS := Config.DEFAULT_MIN_REPO_CONTRIBUTIONS in
  let MIN_YEARLY_CONTRIBUTIONS := Config.DEFAULT_MIN_YEARLY_CONTRIBUTIONS in
  let crawler := {| GitHubAPIClient.token := Some GITHUB_TOKEN |} in
  repo_urls <- CrawlerMore.extract_repos google_sheet_url START_ROW END_ROW
                                         master_repo ;;
  match repo_urls with
  | None => raise                      (* [len(None)] *)
  | Some [] => ret fs
  | Some repo_urls =>
      all_contributors <-
        CrawlerMore.process_multiple_repos crawler fuel repo_urls
          MIN_REPO_CONTRIBUTIONS MIN_YEARLY_CONTRIBUTIONS min_stars [] ;;
      if DataHandler.save_to_excel_raises write all_contributors then raise
      else ret (CrawlerMore.save_to_excel now write all_contributors fs)
  end.

End Main.
End Main.

(** ** Vocabulary of the further statements *)

(** The service answers every request for a page of the contributor listing
    of [owner/repo] with that page of [pages]; pages past the end are
    empty. *)
Definition serves_listing {W} `{Remote.Service W} (owner repo : string)
    (pages : list (list Remote.Candidate)) : Prop :=
  forall (page : nat) (w : W),
    (Remote.contributors_page owner repo page w).1 =
    Some (Remote.Status200 (nth (page - 1) pages [])).

(** How many logged calls satisfy [p]. *)
Definition count_calls (p : Remote.Call -> bool) (l : list Remote.Entry) : nat :=
  length (List.filter p (Remote.calls l)).

(** [m] logs at most [n] calls that satisfy [p], from any state. *)
Definition logs_at_most {W A} (p : Remote.Call -> bool) (n : nat)
    (m : Remote.M W A) : Prop :=
  forall w, (count_calls p (Remote.log (m w)) <= n)%nat.

Definition is_commit_listing (c : Remote.Call) : bool :=
  match c with Remote.GetCommits _ _ => true | _ => false end.

Definition is_repo_listing (c : Remote.Call) : bool :=
  match c with Remote.GetUserRepos _ _ => true | _ => false end.

(** The rows [lo], ..., [hi] of a column, counted from 1. *)
Definition rows_between (lo hi : nat) (column : list string) : list string :=
  take (S hi - lo) (drop (lo - 1) column).

(** Sources in which every repository has the same star record. *)
Definition fixed_stars (stars : option Z) : RemoteMore.Sources unit :=
  {| RemoteMore.repo_record := fun _ _ w => (Some stars, w);
     RemoteMore.readme_record := fun _ _ w => (Some (Remote.StatusOther 404), w);
     RemoteMore.decode_readme := fun _ => None;
     RemoteMore.read_csv := fun _ w => (None, w);
     RemoteMore.input_int := fun w => (None, w) |}.

(** A character that may stand inside a segment of a path: not one of the
    four that end a path or a segment, and not one of the three that the
    parser removes. *)
Definition is_segment_char (c : ascii) : bool :=
  negb (Ascii.eqb c "/" || Ascii.eqb c "?" || Ascii.eqb c "#" || Ascii.eqb c ";" ||
        Utils.is_unsafe_byte c).

(** A URL on which the parser does not raise: ASCII characters, no
    bracket. *)
Definition is_plain_url_char (c : ascii) : bool :=
  (nat_of_ascii c <? 128)%nat && negb (Ascii.eqb c "[" || Ascii.eqb c "]").

Definition plain_url (url : string) : bool :=
  Utils.all_chars is_plain_url_char url.

(** The exceptions that leave the loops over repository URLs: a star lookup
    that raised, or the parser raising on one of the URLs. *)
Definition loop_exception {W : Type} `{RemoteMore.Sources W}
    (urls : list string) : Prop :=
  (exists owner repo (w' : W), (RemoteMore.repo_record owner repo w').1 = None) \/
  exists url, url ∈ urls /\ Utils.urlparse_raises url = true.

(** A non-empty run of such characters. *)
Definition is_segment (s : string) : bool :=
  Str.truthy s && Utils.all_chars is_segment_char s.

(** The canonical URL of the repository [owner/name]; [opt_s] is ["s"] or
    empty. *)
Definition canonical_url (opt_s owner name : string) : string :=
  "http" +:+ opt_s +:+ "://github.com/" +:+ owner +:+ "/" +:+ name.

(** What a row says about the contributor it was built for. *)
Definition row_for (url owner repo : string) (m2 : Z) (c : Remote.Candidate)
    (r : DataHandler.Contributor) : Prop :=
  DataHandler.repo_url r = Some url /\
  DataHandler.repo_name r = Some (owner +:+ "/" +:+ repo) /\
  DataHandler.username r = Some (Remote.login c) /\
  DataHandler.repo_contributions r = Remote.contributions c /\
  DataHandler.profile_url r = Some (Remote.html_url c) /\
  (m2 <= DataHandler.yearly_contributions r)%Z /\
  exists e, DataHandler.commit_email r = Some e /\
            (e = EmptyString \/ Utils.is_valid_email e = true).

(** What a row returned for [url] under the thresholds [m1], [m2] says. *)
Definition qualified_row (url : string) (m1 m2 : Z) (r : DataHandler.Contributor)
  : Prop :=
  DataHandler.repo_url r = Some url /\
  (exists owner repo,
      Utils.parse_repo_url url = (Some owner, Some repo) /\
      DataHandler.repo_name r = Some (owner +:+ "/" +:+ repo)) /\
  (exists u, DataHandler.username r = Some u) /\
  (m1 <= DataHandler.repo_contributions r)%Z /\
  (m2 <= DataHandler.yearly_contributions r)%Z /\
  exists e, DataHandler.commit_email r = Some e /\
            (e = EmptyString \/ Utils.is_valid_email e = true).

(** A name that a path can have as a segment. *)
Definition is_name (segment : string) : bool :=
  Str.truthy segment && negb (String.eqb segment ".") &&
  negb (String.eqb segment "..").

(** An absolute path in normal form, the form [os.path.abspath] gives: a
    [/] and one or more names separated by single [/], none of them [.] or
    [..].  Two such paths name the same entry of the directory tree only
    when they are equal. *)
Definition is_normal_path (path : string) : bool :=
  match path with
  | String "/" names => forallb is_name (Str.split "/" names)
  | _ => false
  end.

(** The check directory, when one is given, is a path in normal form other
    than [path]. *)
Definition apart_from (check_directory : option string) (path : string) : bool :=
  match check_directory with
  | Some d =>
      if Str.truthy d then is_normal_path d && negb (String.eqb path d)
      else true
  | None => true
  end.

(** [path] is one of the workbooks that the scan of [check_directory]
    reads. *)
Definition scanned (check_directory : option string) (path : string) : bool :=
  match check_directory with
  | Some d => Str.truthy d && DataHandler.in_directory d path &&
              DataHandler.is_excel_name path
  | None => false
  end.

Definition erin_candidate : Remote.Candidate :=
  {| Remote.login := "erin"; Remote.contributions := 450;
     Remote.html_url := "https://github.com/erin" |}.

(** A repository with two listed contributors, of 450 and 150 contributions;
    everyone has 5 contributions in the last year, no profile, no
    repositories and nothing pinned. *)
Definition quiet_service : Remote.Service unit :=
  static_service
    {| st_clock := 86400000;
       st_contributors := fun _ _ => [ [erin_candidate; alice_candidate] ];
       st_graphql := fun _ => Some (Remote.Status200 (Remote.GqlTotal 5));
       st_events := fun _ => [];
       st_profile := fun _ => Some (Remote.StatusOther 404);
       st_repos := fun _ _ => Some (Remote.Status200 []);
       st_commits := fun _ _ => None;
       st_email := fun _ _ => None;
       st_pinned := fun _ => Some [] |}.

(** Sources with a sheet of two rows, one of them a repository URL; every
    repository has 2500 stars and no README. *)
Definition sheet_sources : RemoteMore.Sources unit :=
  {| RemoteMore.repo_record := fun _ _ w => (Some (Some 2500%Z), w);
     RemoteMore.readme_record := fun _ _ w => (Some (Remote.StatusOther 404), w);
     RemoteMore.decode_readme := fun _ => None;
     RemoteMore.read_csv := fun _ w =>
       (Some ["https://github.com/acme/platform"; "nan"], w);
     RemoteMore.input_int := fun w => (None, w) |}.

(* ===================================================================== *)
(** * Properties *)
(* ===================================================================== *)

(** Sample evaluations. *)

Example is_valid_email_noreply :
  Utils.is_valid_email "noreply@users.noreply.github.com" = false.
Proof. reflexivity. Qed.

Example is_valid_email_real :
  Utils.is_valid_email "real.person@gmail.com" = true.
Proof. reflexivity. Qed.

Example parse_repo_url_ex :
  Utils.parse_repo_url "https://github.com/Foo/Bar" = (Some "Foo", Some "Bar").
Proof. reflexivity. Qed.

Example replace_ex :
  Str.replace ".xlsx" "_backup.csv" "a.xlsx.d/b.xlsx" = "a_backup.csv.d/b_backup.csv".
Proof. reflexivity. Qed.

(* --------------------------------------------------------------------- *)
(** ** Strings *)
(* --------------------------------------------------------------------- *)

Section StrFacts.

#[local] Arguments Str.contains : simpl never.

Lemma append_nil_r (s : string) : s +:+ EmptyString = s.
Proof. induction s; simpl; congruence. Qed.

Lemma append_assoc (a b c : string) : (a +:+ b) +:+ c = a +:+ (b +:+ c).
Proof. induction a; simpl; congruence. Qed.

Lemma length_append (a b : string) :
  String.length (a +:+ b) = (String.length a + String.length b)%nat.
Proof. induction a; simpl; auto. Qed.

Lemma startswith_spec (p s : string) :
  Str.startswith p s = true <-> exists t, s = p +:+ t.
Proof.
  revert s. induction p as [|a p IH]; intros s; simpl.
  - split; eauto.
  - destruct s as [|b s].
    + split; [discriminate | intros [t Ht]; discriminate].
    + rewrite andb_true_iff, IH. split.
      * intros [Hab [t ->]]. apply Ascii.eqb_eq in Hab. subst. eauto.
      * intros [t Ht]. injection Ht as -> ->. split; [apply Ascii.eqb_refl | eauto].
Qed.

Lemma contains_unfold (p s : string) :
  Str.contains p s =
  Str.startswith p s ||
  match s with EmptyString => false | String _ s' => Str.contains p s' end.
Proof. destruct s; reflexivity. Qed.

Lemma contains_spec (p s : string) :
  Str.contains p s = true <-> occurs_in p s.
Proof.
  split.
  - induction s as [|c s IH]; rewrite contains_unfold, orb_true_iff.
    + intros [Hp | Hf]; [|discriminate].
      apply startswith_spec in Hp as [t ->]. exists EmptyString, t. reflexivity.
    + intros [Hp | Hc].
      * apply startswith_spec in Hp as [t ->]. exists EmptyString, t. reflexivity.
      * destruct (IH Hc) as (pre & post & ->). exists (String c pre), post. reflexivity.
  - intros (pre & post & ->). induction pre as [|c pre IH].
    + change (EmptyString +:+ p +:+ post) with (p +:+ post).
      rewrite contains_unfold.
      assert (Str.startswith p (p +:+ post) = true) as -> by (apply startswith_spec; eauto).
      reflexivity.
    + change (String c pre +:+ p +:+ post) with (String c (pre +:+ p +:+ post)).
      rewrite contains_unfold, IH. apply orb_true_r.
Qed.

Lemma contains_false (p s : string) :
  Str.contains p s = false <-> ~ occurs_in p s.
Proof. rewrite <- contains_spec. destruct (Str.contains p s); intuition congruence. Qed.

(** Occurrence of a single character. *)
Lemma contains_char_cons (c a : ascii) (s : string) :
  Str.contains (String c EmptyString) (String a s) =
  Ascii.eqb c a || Str.contains (String c EmptyString) s.
Proof.
  rewrite contains_unfold. simpl. rewrite andb_true_r. reflexivity.
Qed.

Lemma split_nonempty (c : ascii) (s : string) : Str.split c s <> [].
Proof.
  destruct s as [|a s]; simpl; [discriminate|].
  destruct (Ascii.eqb a c); [discriminate|].
  destruct (Str.split c s); discriminate.
Qed.

Lemma last_cons_nonempty {A} (x : A) (l : list A) (d : A) :
  l <> [] -> List.last (x :: l) d = List.last l d.
Proof. destruct l; [congruence | reflexivity]. Qed.

Lemma split_no_sep (c : ascii) (s : string) :
  Str.contains (String c EmptyString) s = false -> Str.split c s = [s].
Proof.
  induction s as [|a s IH]; [reflexivity|].
  rewrite contains_char_cons, orb_false_iff. intros [Hca Hs]. simpl.
  rewrite Ascii.eqb_sym, Hca, (IH Hs). reflexivity.
Qed.

(** The part after the last separator contains no separator. *)
Lemma last_part_no_sep (c : ascii) (s : string) :
  Str.contains (String c EmptyString) (Str.last_part (Str.split c s)) = false.
Proof.
  unfold Str.last_part. induction s as [|a s IH]; [reflexivity|].
  simpl. destruct (Ascii.eqb a c) eqn:Hac.
  - rewrite last_cons_nonempty by apply split_nonempty. exact IH.
  - destruct (Str.split c s) as [|h t] eqn:Hs; [now apply split_nonempty in Hs|].
    destruct t as [|h' t].
    + simpl in *. rewrite contains_char_cons, Ascii.eqb_sym, Hac, IH. reflexivity.
    + exact IH.
Qed.

Lemma split_singleton (c : ascii) (s h : string) :
  Str.split c s = [h] ->
  h = s /\ Str.contains (String c EmptyString) s = false.
Proof.
  revert h. induction s as [|b s IH]; intros h E; simpl in E.
  - injection E as <-. split; reflexivity.
  - destruct (Ascii.eqb b c) eqn:Hbc.
    + injection E as _ E. now apply split_nonempty in E.
    + destruct (Str.split c s) as [|g t] eqn:Eg; [now apply split_nonempty in Eg|].
      injection E as <- ->. destruct (IH g eq_refl) as [-> Hno].
      split; [reflexivity|].
      rewrite contains_char_cons, Ascii.eqb_sym, Hbc, Hno. reflexivity.
Qed.

(** A string that contains the separator is cut by its last occurrence. *)
Lemma last_part_cut (c : ascii) (s : string) :
  Str.contains (String c EmptyString) s = true ->
  exists l, s = l +:+ String c (Str.last_part (Str.split c s)).
Proof.
  unfold Str.last_part. induction s as [|a s IH]; [discriminate|].
  rewrite contains_char_cons. intros Hc. simpl.
  destruct (Str.contains (String c EmptyString) s) eqn:Hs.
  - destruct (IH eq_refl) as [l Hl].
    destruct (Str.split c s) as [|h [|h' t]] eqn:E.
    + now apply split_nonempty in E.
    + apply split_singleton in E as [_ E]. congruence.
    + exists (String a l). destruct (Ascii.eqb a c); simpl; f_equal; exact Hl.
  - rewrite orb_false_r in Hc. apply Ascii.eqb_eq in Hc. subst a.
    rewrite Ascii.eqb_refl, (split_no_sep c s Hs). exists EmptyString. reflexivity.
Qed.

(** The last part is determined by any cut whose right side has no separator. *)
Lemma last_part_unique (c : ascii) (l d : string) :
  Str.contains (String c EmptyString) d = false ->
  Str.last_part (Str.split c (l +:+ String c d)) = d.
Proof.
  intros Hd. unfold Str.last_part.
  assert (exists h t, Str.split c (l +:+ String c d) = h :: t /\ t <> [] /\
                      List.last t EmptyString = d) as (h & t & -> & Ht & Hl).
  { induction l as [|a l IH]; simpl.
    - rewrite Ascii.eqb_refl, (split_no_sep c d Hd). eexists _, _. split; [reflexivity|].
      split; [discriminate | reflexivity].
    - destruct IH as (h & t & -> & Ht & Hl). destruct (Ascii.eqb a c).
      + eexists _, _. split; [reflexivity|]. split; [discriminate|].
        rewrite last_cons_nonempty by exact Ht. exact Hl.
      + eexists _, _. split; [reflexivity|]. tauto. }
  rewrite last_cons_nonempty by exact Ht. exact Hl.
Qed.

Lemma startswith_nil (old : string) :
  Str.truthy old = true -> Str.startswith old EmptyString = false.
Proof. destruct old; [discriminate | reflexivity]. Qed.

Lemma contains_nil (old : string) :
  Str.truthy old = true -> Str.contains old EmptyString = false.
Proof. intros Hold. rewrite contains_unfold, startswith_nil by assumption. reflexivity. Qed.

(** Replacing leaves a string without an occurrence as it is. *)
Lemma replace_no_occurrence (old new s : string) :
  Str.contains old s = false -> Str.replace old new s = s.
Proof.
  unfold Str.replace. induction s as [|c s IH]; [reflexivity|].
  rewrite contains_unfold, orb_false_iff. intros [Hstart Hrest].
  cbn [Str.replace_from]. rewrite Hstart, (IH Hrest). reflexivity.
Qed.

Lemma length_replace_from_ge (old new s : string) (skip : nat) :
  (String.length old <= String.length new)%nat -> Str.truthy old = true ->
  (String.length s <= String.length (Str.replace_from skip old new s) + skip)%nat.
Proof.
  intros Hlen Hold. revert skip. induction s as [|c s IH]; intros skip; [simpl; lia|].
  cbn [Str.replace_from]. destruct skip as [|k].
  - destruct (Str.startswith old (String c s)).
    + rewrite length_append. specialize (IH (String.length old - 1)%nat).
      destruct old; [discriminate|]. simpl in *. lia.
    + specialize (IH 0%nat). simpl. lia.
  - specialize (IH k). simpl. lia.
Qed.

Lemma length_replace_from_gt (old new s : string) (skip : nat) :
  (String.length old < String.length new)%nat -> Str.truthy old = true ->
  Str.contains old (Str.drop skip s) = true ->
  (String.length s < String.length (Str.replace_from skip old new s) + skip)%nat.
Proof.
  intros Hlen Hold. revert skip. induction s as [|c s IH]; intros skip Hocc.
  - destruct skip; cbn [Str.drop] in Hocc; rewrite contains_nil in Hocc by assumption;
      discriminate.
  - cbn [Str.replace_from]. destruct skip as [|k].
    + cbn [Str.drop] in Hocc. rewrite contains_unfold in Hocc.
      destruct (Str.startswith old (String c s)) eqn:Hstart.
      * rewrite length_append.
        pose proof (length_replace_from_ge old new s (String.length old - 1)) as Hge.
        destruct old; [discriminate|]. simpl in *. lia.
      * simpl in Hocc. specialize (IH 0%nat Hocc). simpl. lia.
    + cbn [Str.drop] in Hocc. specialize (IH k Hocc). simpl. lia.
Qed.

(** Replacing by a longer text changes a string that has an occurrence. *)
Lemma replace_occurrence (old new s : string) :
  (String.length old < String.length new)%nat -> Str.truthy old = true ->
  Str.contains old s = true -> Str.replace old new s <> s.
Proof.
  intros Hlen Hold Hocc Heq.
  pose proof (length_replace_from_gt old new s 0 Hlen Hold Hocc) as Hgt.
  unfold Str.replace in Heq. rewrite Heq in Hgt. lia.
Qed.

End StrFacts.

(* --------------------------------------------------------------------- *)
(** ** The URL parser *)
(* --------------------------------------------------------------------- *)

Section UrlFacts.

(** On a URL that [parse_repo_url] accepts the parser does not raise: the
    network location is ["github.com"]. *)
Lemma parse_repo_url_quiet (url owner repo : string) :
  Utils.parse_repo_url url = (Some owner, Some repo) ->
  Utils.urlparse_raises url = false.
Proof.
  unfold Utils.parse_repo_url, Utils.urlparse_raises.
  destruct (negb (String.eqb (Utils.scheme (Utils.urlparse url)) "http" ||
                  String.eqb (Utils.scheme (Utils.urlparse url)) "https"));
    [discriminate|].
  destruct (String.eqb (Utils.netloc (Utils.urlparse url)) "github.com") eqn:Hloc;
    [|discriminate].
  apply String.eqb_eq in Hloc. rewrite Hloc. reflexivity.
Qed.

Lemma all_chars_lstrip_set (p q : ascii -> bool) (s : string) :
  Utils.all_chars p s = true -> Utils.all_chars p (Str.lstrip_set q s) = true.
Proof.
  induction s as [|a s IH]; cbn; [easy|].
  intros [Ha Hs]%andb_true_iff. destruct (q a); [auto|].
  cbn. now rewrite Ha, Hs.
Qed.

Lemma all_chars_remove (p q : ascii -> bool) (s : string) :
  Utils.all_chars p s = true -> Utils.all_chars p (Str.remove q s) = true.
Proof.
  induction s as [|a s IH]; cbn; [easy|].
  intros [Ha Hs]%andb_true_iff. destruct (q a); [auto|].
  cbn. now rewrite Ha, IH.
Qed.

Lemma all_chars_cut (p : ascii -> bool) (c : ascii) (s h t : string) :
  Str.cut c s = Some (h, t) -> Utils.all_chars p s = true ->
  Utils.all_chars p h = true /\ Utils.all_chars p t = true.
Proof.
  revert h. induction s as [|a s IH]; cbn; intros h; [discriminate|].
  intros Hcut [Ha Hs]%andb_true_iff.
  destruct (Ascii.eqb a c).
  - injection Hcut as <- <-. now split.
  - destruct (Str.cut c s) as [[h' t']|]; [|discriminate].
    injection Hcut as <- <-. destruct (IH h' eq_refl Hs) as [Hh Ht].
    cbn. now rewrite Ha, Hh.
Qed.

Lemma all_chars_drop_prefix (p : ascii -> bool) (pre s r : string) :
  Str.drop_prefix pre s = Some r -> Utils.all_chars p s = true ->
  Utils.all_chars p r = true.
Proof.
  revert s. induction pre as [|a pre IH]; intros [|b s]; cbn; try discriminate.
  - now intros [= <-].
  - now intros [= <-].
  - destruct (Ascii.eqb a b); [|discriminate].
    intros Hr [_ Hs]%andb_true_iff. eauto.
Qed.

Lemma all_chars_span (p q : ascii -> bool) (s : string) :
  Utils.all_chars p s = true -> Utils.all_chars p (Str.span q s).1 = true.
Proof.
  induction s as [|a s IH]; cbn; [easy|].
  intros [Ha Hs]%andb_true_iff. destruct (q a); [|reflexivity].
  specialize (IH Hs). destruct (Str.span q s) as [h t]. cbn in *.
  now rewrite Ha, IH.
Qed.

Lemma all_chars_no_char (p : ascii -> bool) (c : ascii) (s : string) :
  p c = false -> Utils.all_chars p s = true ->
  Str.contains (String c EmptyString) s = false.
Proof.
  intros Hc. induction s as [|a s IH]; cbn; [easy|].
  intros [Ha Hs]%andb_true_iff. rewrite (IH Hs).
  destruct (Ascii.eqb c a) eqn:Heq; [|reflexivity].
  apply Ascii.eqb_eq in Heq. congruence.
Qed.

Lemma all_chars_netloc (p : ascii -> bool) (url : string) :
  Utils.all_chars p url = true ->
  Utils.all_chars p (Utils.netloc (Utils.urlparse url)) = true.
Proof.
  intros Hurl.
  assert (Hclean : Utils.all_chars p (Utils.sanitize url) = true)
    by (unfold Utils.sanitize; now apply all_chars_remove, all_chars_lstrip_set).
  assert (Hrest : Utils.all_chars p (Utils.split_scheme (Utils.sanitize url)).2 = true).
  { unfold Utils.split_scheme.
    destruct (Utils.sanitize url) as [|c0 u] eqn:Hu; [reflexivity|].
    destruct (Str.is_alpha c0); [|exact Hclean].
    destruct (Str.cut ":" (String c0 u)) as [[pre rest]|] eqn:Hcut; [|exact Hclean].
    destruct (Utils.all_chars Utils.is_scheme_char pre); [|exact Hclean].
    exact (proj2 (all_chars_cut _ _ _ _ _ Hcut Hclean)). }
  unfold Utils.urlparse.
  destruct (Utils.split_scheme (Utils.sanitize url)) as [sch rest]. cbn [snd] in Hrest.
  destruct (Str.drop_prefix "//" rest) as [r|] eqn:Hdrop.
  - pose proof (all_chars_span p (fun c => negb (Utils.is_netloc_end c)) r
                  (all_chars_drop_prefix _ _ _ _ Hdrop Hrest)) as Hloc.
    destruct (Str.span _ r) as [loc rest']. exact Hloc.
  - reflexivity.
Qed.

(** On a URL of ASCII characters without brackets the parser does not
    raise. *)
Lemma plain_url_quiet (url : string) :
  plain_url url = true -> Utils.urlparse_raises url = false.
Proof.
  intros Hplain. apply all_chars_netloc in Hplain.
  unfold Utils.urlparse_raises.
  rewrite (all_chars_no_char is_plain_url_char "[" _ eq_refl Hplain).
  rewrite (all_chars_no_char is_plain_url_char "]" _ eq_refl Hplain).
  reflexivity.
Qed.

End UrlFacts.

(* --------------------------------------------------------------------- *)
(** ** The email validity filter *)
(* --------------------------------------------------------------------- *)

Section EmailValidity.

Lemma fake_pattern_spec (e : string) :
  existsb (fun pattern => Str.contains pattern e) Config.FAKE_EMAIL_PATTERNS = false <->
  forall p, In p Config.FAKE_EMAIL_PATTERNS -> ~ occurs_in p e.
Proof.
  split.
  - intros Hex p Hp Hocc. apply contains_spec in Hocc.
    assert (existsb (fun pattern => Str.contains pattern e)
                    Config.FAKE_EMAIL_PATTERNS = true) as Ht
        by (apply existsb_exists; eauto).
    congruence.
  - intros Hall. destruct (existsb _ _) eqn:Hex; [|reflexivity].
    apply existsb_exists in Hex as (p & Hp & Hc).
    apply contains_spec in Hc. now apply Hall in Hc.
Qed.

(** A string with an ["@"] in it is not empty. *)
Lemma occurs_truthy (p s : string) :
  occurs_in p s -> Str.truthy p = true -> Str.truthy s = true.
Proof.
  intros (pre & post & ->) Hp. destruct pre; [destruct p|]; [discriminate|..]; reflexivity.
Qed.

(** Every character is on the list of all characters. *)
Lemma all_ascii_forall2 (P : ascii -> ascii -> bool) :
  forallb (fun a => forallb (P a) all_ascii) all_ascii = true ->
  forall a b, P a b = true.
Proof.
  intros Hall a b.
  assert (forall c, In c all_ascii) as Hin.
  { intros c. unfold all_ascii. rewrite <- (ascii_nat_embedding c).
    apply in_map, in_seq. pose proof (nat_ascii_bounded c). lia. }
  rewrite forallb_forall in Hall. specialize (Hall a (Hin a)).
  rewrite forallb_forall in Hall. exact (Hall b (Hin b)).
Qed.

Lemma same_letter_lower (a b : ascii) :
  Str.lower_char a = a -> same_letter a b = true -> Str.lower_char b = a.
Proof.
  intros Ha Hab. apply Ascii.eqb_eq.
  pose proof (all_ascii_forall2
                (fun a b => implb (Ascii.eqb (Str.lower_char a) a && same_letter a b)
                                  (Ascii.eqb (Str.lower_char b) a))
                ltac:(vm_compute; reflexivity) a b) as Himp.
  cbv beta in Himp. rewrite Hab, (proj2 (Ascii.eqb_eq _ _) Ha) in Himp. exact Himp.
Qed.

Lemma lower_same_letter (b : ascii) : same_letter (Str.lower_char b) b = true.
Proof.
  exact (all_ascii_forall2 (fun _ b => same_letter (Str.lower_char b) b)
           ltac:(vm_compute; reflexivity) b b).
Qed.

Lemma lower_char_idem (b : ascii) :
  Str.lower_char (Str.lower_char b) = Str.lower_char b.
Proof.
  apply Ascii.eqb_eq.
  exact (all_ascii_forall2
           (fun _ b => Ascii.eqb (Str.lower_char (Str.lower_char b)) (Str.lower_char b))
           ltac:(vm_compute; reflexivity) b b).
Qed.

Lemma lower_append (s t : string) :
  Str.lower (s +:+ t) = Str.lower s +:+ Str.lower t.
Proof. induction s as [|a s IH]; cbn; [reflexivity | now rewrite IH]. Qed.

(** A part of the lower-cased text is the lower-cased part of the text. *)
Lemma lower_split (s x y : string) :
  Str.lower s = x +:+ y ->
  exists s1 s2, s = s1 +:+ s2 /\ Str.lower s1 = x /\ Str.lower s2 = y.
Proof.
  revert s. induction x as [|a x IH]; intros s Hs.
  - exists EmptyString, s. repeat split. exact Hs.
  - destruct s as [|b s]; [discriminate|]. cbn in Hs. injection Hs as Hb Hs.
    destruct (IH s Hs) as (s1 & s2 & -> & H1 & H2).
    exists (String b s1), s2. cbn. rewrite Hb, H1. repeat split. exact H2.
Qed.

Lemma same_text_lower (p t : string) :
  Str.lower p = p -> same_text p t = true -> Str.lower t = p.
Proof.
  revert t. induction p as [|a p IH]; intros [|b t]; cbn; try discriminate;
    [reflexivity|].
  intros [= Ha Hp] [Hab Hpt]%andb_true_iff.
  rewrite (same_letter_lower a b Ha Hab), (IH t Hp Hpt). reflexivity.
Qed.

Lemma lower_same_text (t : string) : same_text (Str.lower t) t = true.
Proof.
  induction t as [|b t IH]; cbn; [reflexivity|].
  now rewrite lower_same_letter, IH.
Qed.

(** For a pattern in lower case, to occur in the lower-cased text is to
    occur in the text but for the case of the letters. *)
Lemma occurs_lower (p s : string) :
  Str.lower p = p ->
  occurs_in p (Str.lower s) <-> occurs_ignoring_case p s.
Proof.
  intros Hp. split.
  - intros (x & y & Hs).
    apply lower_split in Hs as (s1 & s23 & -> & _ & H23).
    apply lower_split in H23 as (s2 & s3 & -> & H2 & _).
    exists s1, s2, s3. split; [reflexivity|]. rewrite <- H2. apply lower_same_text.
  - intros (pre & t & post & -> & Hsame).
    exists (Str.lower pre), (Str.lower post).
    rewrite !lower_append, (same_text_lower p t Hp Hsame). reflexivity.
Qed.

Lemma FAKE_EMAIL_PATTERNS_lower (p : string) :
  In p Config.FAKE_EMAIL_PATTERNS -> Str.lower p = p.
Proof.
  unfold Config.FAKE_EMAIL_PATTERNS. cbn [In].
  intros H; repeat (destruct H as [<- | H]; [reflexivity|]); destruct H.
Qed.

(** C6 as stated fails: the fake substrings are looked for in the
    lower-cased candidate.  None of them occurs in ["x@TEST.COM"], which
    has an ["@"] followed by a domain portion with a ["."], and the
    candidate is rejected. *)
Lemma is_valid_email_counterexample :
  (forall p, In p Config.FAKE_EMAIL_PATTERNS -> ~ occurs_in p "x@TEST.COM") /\
  (exists local domain,
      "x@TEST.COM" = local +:+ "@" +:+ domain /\
      ~ occurs_in "@" domain /\
      occurs_in "." domain) /\
  Utils.is_valid_email "x@TEST.COM" = false.
Proof.
  split; [|split; [|reflexivity]].
  - apply fake_pattern_spec. reflexivity.
  - exists "x", "TEST.COM". split; [reflexivity|]. split.
    + apply contains_false. reflexivity.
    + apply contains_spec. reflexivity.
Qed.

(** C6, amended.  [is_valid_email] accepts a candidate exactly when none of
    the configured fake substrings occurs in it, the case of the letters
    left aside, and it has an ["@"] whose last occurrence is followed by a
    domain portion containing a ["."]; of the two candidates
    ["noreply@users.noreply.github.com"] and ["real.person@gmail.com"] only
    the second is accepted. *)
Theorem is_valid_email_spec :
  (forall email : string,
      Utils.is_valid_email email = true <->
      (forall p, In p Config.FAKE_EMAIL_PATTERNS ->
                 ~ occurs_ignoring_case p email) /\
      (exists local domain,
          email = local +:+ "@" +:+ domain /\
          ~ occurs_in "@" domain /\
          occurs_in "." domain))
  /\ List.filter Utils.is_valid_email
       ["noreply@users.noreply.github.com"; "real.person@gmail.com"]
     = ["real.person@gmail.com"].
Proof.
  split; [|reflexivity].
  intros email.
  assert ((forall p, In p Config.FAKE_EMAIL_PATTERNS ->
                     ~ occurs_ignoring_case p email) <->
          (forall p, In p Config.FAKE_EMAIL_PATTERNS ->
                     ~ occurs_in p (Str.lower email))) as ->.
  { split; intros Hall p Hp Hocc; apply (Hall p Hp);
      apply (occurs_lower p email (FAKE_EMAIL_PATTERNS_lower p Hp)); exact Hocc. }
  unfold Utils.is_valid_email. split.
  - destruct (Str.truthy email); cbn [negb]; [|discriminate].
    destruct (existsb _ _) eqn:Hfake; [discriminate|].
    rewrite andb_true_iff. intros [Hat Hdot]. split.
    + now apply fake_pattern_spec.
    + destruct (last_part_cut "@" email Hat) as [l Hl].
      exists l, (Str.last_part (Str.split "@" email)). split; [exact Hl|]. split.
      * apply contains_false, last_part_no_sep.
      * now apply contains_spec.
  - intros [Hfake (l & d & -> & Hno & Hdot)].
    assert (occurs_in "@" (l +:+ "@" +:+ d)) as Hat by (exists l, d; reflexivity).
    rewrite (occurs_truthy _ _ Hat eq_refl). cbn [negb].
    apply fake_pattern_spec in Hfake. rewrite Hfake.
    apply contains_spec in Hat. rewrite Hat. cbn [andb].
    change (l +:+ "@" +:+ d) with (l +:+ String "@" d).
    rewrite last_part_unique by now apply contains_false.
    now apply contains_spec.
Qed.

End EmailValidity.

(* --------------------------------------------------------------------- *)
(** ** Deduplication by username *)
(* --------------------------------------------------------------------- *)

Section Dedup.
Import DataHandler.

Implicit Types (df : list Contributor) (seen : gset (option string)).

Lemma elem_of_usernames k df :
  k ∈ usernames df <-> exists r, r ∈ df /\ username r = k.
Proof.
  unfold usernames. rewrite list_elem_of_In, in_map_iff.
  split; intros (r & H1 & H2); exists r; [rewrite list_elem_of_In|rewrite <- list_elem_of_In]; tauto.
Qed.

Lemma elem_of_key_set k df : k ∈ key_set df <-> k ∈ usernames df.
Proof. unfold key_set. apply elem_of_list_to_set. Qed.

Lemma elem_of_username_set u df :
  u ∈ username_set df <-> Some u ∈ usernames df.
Proof.
  unfold username_set. rewrite elem_of_list_to_set, list_elem_of_omap, elem_of_usernames.
  reflexivity.
Qed.

Lemma drop_duplicates_from_elem seen df r :
  r ∈ drop_duplicates_from seen df -> r ∈ df /\ username r ∉ seen.
Proof.
  revert seen. induction df as [|a df IH]; intros seen; simpl.
  - intros Hr. inversion Hr.
  - destruct (decide (username a ∈ seen)) as [Hin | Hout].
    + intros Hr. apply IH in Hr as [? ?]. split; [now right | assumption].
    + intros Hr. apply elem_of_cons in Hr as [-> | Hr].
      * split; [now left | assumption].
      * apply IH in Hr as [? Hn]. split; [now right | set_solver].
Qed.

Lemma drop_duplicates_from_NoDup seen df :
  NoDup (usernames (drop_duplicates_from seen df)).
Proof.
  revert seen. induction df as [|a df IH]; intros seen; simpl.
  - constructor.
  - destruct (decide (username a ∈ seen)); [apply IH|].
    simpl. apply NoDup_cons. split; [|apply IH].
    intros Hin. apply elem_of_usernames in Hin as (r & Hr & Heq).
    apply drop_duplicates_from_elem in Hr as [_ Hn]. set_solver.
Qed.


Lemma drop_duplicates_from_app seen df1 df2 :
  drop_duplicates_from seen (df1 ++ df2) =
  drop_duplicates_from seen df1 ++ drop_duplicates_from (seen ∪ key_set df1) df2.
Proof.
  revert seen. induction df1 as [|a df1 IH]; intros seen; simpl.
  - f_equal. unfold key_set. simpl. set_solver.
  - assert (forall s, s ∪ key_set (a :: df1) = ({[username a]} ∪ s) ∪ key_set df1) as Hset.
    { intros s. unfold key_set. simpl. set_solver. }
    destruct (decide (username a ∈ seen)) as [Hin | Hout].
    + rewrite IH. do 2 f_equal. rewrite Hset. set_solver.
    + simpl. rewrite IH, Hset. reflexivity.
Qed.

(** A frame without repeated usernames, none of them seen, is left alone. *)
Lemma drop_duplicates_from_id seen df :
  NoDup (usernames df) -> (forall k, k ∈ usernames df -> k ∉ seen) ->
  drop_duplicates_from seen df = df.
Proof.
  revert seen. induction df as [|a df IH]; intros seen Hnd Hout; simpl in *; [reflexivity|].
  apply NoDup_cons in Hnd as [Ha Hnd].
  rewrite decide_False by (apply Hout; now left).
  f_equal. apply IH; [assumption|].
  intros k Hk. assert (k ∈ username a :: usernames df) as Hk' by now right.
  specialize (Hout k Hk').
  assert (k <> username a) by congruence. set_solver.
Qed.

(** A frame all of whose usernames are seen disappears. *)
Lemma drop_duplicates_from_all_seen seen df :
  (forall k, k ∈ usernames df -> k ∈ seen) -> drop_duplicates_from seen df = [].
Proof.
  induction df as [|a df IH]; intros Hall; simpl in *; [reflexivity|].
  rewrite decide_True by (apply Hall; now left).
  apply IH. intros k Hk. apply Hall. now right.
Qed.

Lemma drop_duplicates_NoDup df : NoDup (usernames (drop_duplicates df)).
Proof. apply drop_duplicates_from_NoDup. Qed.


(** Appending rows whose usernames are all present changes nothing. *)
Lemma drop_duplicates_absorb df extra :
  NoDup (usernames df) ->
  (forall k, k ∈ usernames extra -> k ∈ usernames df) ->
  drop_duplicates (df ++ extra) = df.
Proof.
  intros Hnd Hsub. unfold drop_duplicates.
  rewrite drop_duplicates_from_app, drop_duplicates_from_id, drop_duplicates_from_all_seen.
  - apply app_nil_r.
  - intros k Hk. apply elem_of_union_r, elem_of_key_set, Hsub, Hk.
  - assumption.
  - intros k _. set_solver.
Qed.



End Dedup.

(* --------------------------------------------------------------------- *)
(** ** The merge of [save_to_excel] *)
(* --------------------------------------------------------------------- *)

Section Merge.
Import DataHandler.

Implicit Types (df : list Contributor) (fs : FileSystem).

Lemma filter_all {A} (f : A -> bool) (l : list A) :
  (forall x, x ∈ l -> f x = true) -> List.filter f l = l.
Proof.
  induction l as [|a l IH]; intros Hall; simpl; [reflexivity|].
  rewrite Hall by now left. f_equal. apply IH. intros x Hx. apply Hall. now right.
Qed.

Lemma elem_of_List_filter {A} (f : A -> bool) (l : list A) (x : A) :
  x ∈ List.filter f l <-> x ∈ l /\ f x = true.
Proof. rewrite !list_elem_of_In. apply filter_In. Qed.

Lemma isin_true names r :
  isin names r = true <-> exists u, username r = Some u /\ u ∈ names.
Proof.
  unfold isin. destruct (username r) as [u|].
  - rewrite bool_decide_eq_true. split; [eauto | intros (u' & [= ->] & ?); assumption].
  - split; [discriminate | intros (u & [=] & _)].
Qed.

(** Step 4 filters the batch whether or not a duplicate was detected. *)
Lemma step4_filter df (names : gset string) :
  (if bool_decide (username_set df ∩ names = ∅) then df
   else List.filter (fun r => negb (isin names r)) df)
  = List.filter (fun r => negb (isin names r)) df.
Proof.
  case_bool_decide as Hempty; [|reflexivity].
  symmetry. apply filter_all. intros r Hr.
  destruct (isin names r) eqn:His; [|reflexivity].
  apply isin_true in His as (u & Hu & Hin).
  assert (u ∈ username_set df ∩ names) as Hboth.
  { apply elem_of_intersection. split; [|assumption].
    apply elem_of_username_set, elem_of_usernames. eauto. }
  rewrite Hempty in Hboth. set_solver.
Qed.

Lemma step5_concat df new :
  match df with [] => new | _ :: _ => df ++ new end = df ++ new.
Proof. destruct df; reflexivity. Qed.

(** The rows a call hands to the writer, in closed form. *)
Lemma merge_combined_df contributors filename check_directory fs :
  combined_df (merge contributors filename check_directory fs) =
  drop_duplicates
    ((load_existing filename fs).1 ++
     List.filter
       (fun r => negb (isin ((scan_directory check_directory filename fs).1 ∪
                              (load_existing filename fs).2) r))
       (drop_duplicates contributors)).
Proof.
  unfold merge.
  destruct (scan_directory check_directory filename fs) as [others n].
  destruct (load_existing filename fs) as [existing current]. simpl.
  rewrite step4_filter, step5_concat. reflexivity.
Qed.


Lemma merge_NoDup contributors filename check_directory fs :
  NoDup (usernames (combined_df (merge contributors filename check_directory fs))).
Proof. rewrite merge_combined_df. apply drop_duplicates_NoDup. Qed.

(** A successful call leaves its workbook at the target path. *)
Lemma save_to_excel_target now c contributors filename check_directory fs :
  sheet_at filename
    (save_to_excel now WriteOk (c :: contributors) filename check_directory fs) =
  Some (combined_df (merge (c :: contributors) filename check_directory fs)).
Proof.
  unfold save_to_excel, sheet_at, set_file. simpl files.
  rewrite lookup_insert_eq. reflexivity.
Qed.


(** Rewriting the target does not change what the directory scan finds. *)
Lemma scan_directory_set_target check_directory filename c fs :
  scan_directory check_directory filename (set_file filename c fs) =
  scan_directory check_directory filename fs.
Proof.
  unfold scan_directory, excel_files, set_file. simpl.
  destruct check_directory as [d|]; [|reflexivity].
  destruct (Str.truthy d); [|reflexivity].
  case_bool_decide; [|reflexivity].
  assert (forall y : FileContent,
             ~ Is_true (in_directory d (filename, y).1 &&
                        is_excel_name (filename, y).1 &&
                        negb (String.eqb (filename, y).1 filename))) as Hnot.
  { intros y. simpl. rewrite String.eqb_refl, andb_false_r. exact id. }
  destruct c as [c|].
  - rewrite map_filter_insert_not by exact Hnot. reflexivity.
  - rewrite map_filter_delete_not; [reflexivity|]. intros y _. apply Hnot.
Qed.

End Merge.

(* --------------------------------------------------------------------- *)
(** ** The result store *)
(* --------------------------------------------------------------------- *)

Section ResultStore.
Import DataHandler.

Implicit Types (df : list Contributor) (fs : FileSystem).


(** C1. Whatever the file system was at the start and whatever calls were
    made before, a call of [save_to_excel] with a non-empty batch whose
    workbook is written leaves an ['All Contributors'] sheet at the target in
    which no username occurs twice. *)
Theorem save_to_excel_usernames_unique
    fs0 (runs : list Run) now contributors filename check_directory :
  contributors <> [] ->
  exists rows,
    sheet_at filename
      (save_to_excel now WriteOk contributors filename check_directory
                     (apply_runs fs0 runs)) = Some rows /\
    NoDup (usernames rows).
Proof.
  intros Hne. destruct contributors as [|c cs]; [congruence|].
  eexists. split; [apply save_to_excel_target | apply merge_NoDup].
Qed.

Lemma save_to_excel_usernames_unique_witness :
  exists rows,
    sheet_at "results.xlsx"
      (save_to_excel "t2" WriteOk
         [sample_row "bob" "o/r2"; sample_row "bob" "o/r3"] "results.xlsx" None
         (apply_runs no_files
            [ {| run_now := "t1"; run_write := WriteOk;
                 run_contributors := [sample_row "bob" "o/r1"; sample_row "alice" "o/r1"];
                 run_filename := "results.xlsx";
                 run_check_directory := None |} ])) = Some rows /\
    NoDup (usernames rows).
Proof.
  apply (save_to_excel_usernames_unique no_files). discriminate.
Defined.



(** C2.  A second application with the same batch is not always without
    effect.  A username that [read_excel] takes for a missing value
    (["null"], ["NA"], ["nan"], ...) is stored as its text and read back as
    missing.  Applied a second time with the same one-row batch to the file
    system the first application produced, [save_to_excel] does not find
    the username among the existing ones and appends the row again: the
    sheet has one row after the first application and two after the
    second. *)
Theorem save_to_excel_twice_appends fs now1 now2 r (u : string) filename :
  username r = Some u ->
  u ∈ STR_NA_VALUES ->
  sheet_at filename fs = None ->
  let fs1 := save_to_excel now1 WriteOk [r] filename None fs in
  let fs2 := save_to_excel now2 WriteOk [r] filename None fs1 in
  sheet_at filename fs1 = Some [r] /\
  sheet_at filename fs2 = Some [read_row r; r] /\
  username (read_row r) = None.
Proof.
  intros Hu Hna Hsheet. cbv zeta.
  assert (read_cell (Some u) = None) as Hcell.
  { unfold read_cell.
    assert (existsb (String.eqb u) STR_NA_VALUES = true) as ->; [|reflexivity].
    apply existsb_exists. exists u. split; [now apply list_elem_of_In|].
    apply String.eqb_refl. }
  assert (username (read_row r) = None) as Hread
      by (unfold read_row; cbn [username]; now rewrite Hu).
  assert (load_existing filename fs = ([], ∅)) as Hload.
  { unfold sheet_at in Hsheet. unfold load_existing.
    destruct (files fs !! filename) as [[w| |]|]; [discriminate | reflexivity..]. }
  assert (drop_duplicates [r] = [r]) as Hone.
  { unfold drop_duplicates. cbn [drop_duplicates_from].
    destruct (decide (username r ∈ (∅ : gset (option string)))) as [Hin|_];
      [set_solver | reflexivity]. }
  assert (forall known : gset string,
             u ∉ known ->
             List.filter (fun r0 => negb (isin known r0)) [r] = [r]) as Hfilter.
  { intros known Hknown. cbn [List.filter]. unfold isin. rewrite Hu.
    now rewrite bool_decide_eq_false_2. }
  assert (sheet_at filename (save_to_excel now1 WriteOk [r] filename None fs)
          = Some [r]) as Hfirst.
  { rewrite save_to_excel_target, merge_combined_df, Hload. cbn [fst snd].
    unfold scan_directory. cbn [fst]. rewrite Hone, Hfilter by set_solver.
    cbn [app]. now rewrite Hone. }
  split; [exact Hfirst|]. split; [|exact Hread].
  assert (load_existing filename (save_to_excel now1 WriteOk [r] filename None fs)
          = ([read_row r], ∅)) as Hload1.
  { unfold sheet_at in Hfirst. unfold load_existing.
    destruct (files (save_to_excel now1 WriteOk [r] filename None fs) !! filename)
      as [[w| |]|]; try discriminate.
    injection Hfirst as ->. cbn [read_excel map]. f_equal.
    unfold username_set. cbn -[read_row]. rewrite Hread. reflexivity. }
  rewrite save_to_excel_target, merge_combined_df, Hload1. cbn [fst snd].
  unfold scan_directory. cbn [fst]. rewrite Hone, Hfilter by set_solver.
  cbn [app]. unfold drop_duplicates. cbn [drop_duplicates_from].
  rewrite Hread.
  destruct (decide (None ∈ (∅ : gset (option string)))) as [Hin|_]; [set_solver|].
  rewrite Hu.
  destruct (decide (Some u ∈ ({[None]} ∪ ∅ : gset (option string)))) as [Hin|_];
    [set_solver | reflexivity].
Qed.

(** The username ["null"], saved twice into an empty directory. *)
Lemma save_to_excel_twice_appends_witness :
  let r := sample_row "null" "o/r1" in
  let fs1 := save_to_excel "t1" WriteOk [r] "results.xlsx" None no_files in
  let fs2 := save_to_excel "t2" WriteOk [r] "results.xlsx" None fs1 in
  sheet_at "results.xlsx" fs1 = Some [r] /\
  sheet_at "results.xlsx" fs2 = Some [read_row r; r] /\
  username (read_row r) = None.
Proof.
  apply (save_to_excel_twice_appends no_files "t1" "t2"
           (sample_row "null" "o/r1") "null" "results.xlsx").
  - reflexivity.
  - apply (bool_decide_unpack _). vm_compute. exact I.
  - reflexivity.
Defined.








(** When the workbook cannot be written and the CSV can, the merged rows
    are stored as CSV under the name obtained by replacing [".xlsx"]. *)
Lemma save_to_excel_fallback fs now left_behind c cs filename check_directory :
  files (save_to_excel now (WriteFails left_behind BackupOk) (c :: cs) filename
                       check_directory fs)
        !! Str.replace ".xlsx" "_backup.csv" filename
  = Some (Csv (combined_df (merge (c :: cs) filename check_directory fs))).
Proof. unfold save_to_excel, set_file. simpl files. apply lookup_insert_eq. Qed.

(** C9.  When the workbook cannot be written, the fallback writes the full
    merged rows, no username twice, as CSV under the name obtained by
    replacing [".xlsx"].  That name is the target's own name exactly when
    the target's name holds no [".xlsx"], as for
    [github_contributors_results.xls], where the CSV rows are stored at the
    target path and not under a distinct name.  The CSV write is outside
    any [try]: when it raises too, the call raises and the backup path holds
    what the failed write left, not the rows of the run. *)
Theorem save_to_excel_backup_name_collides
    fs now left_behind backup c cs filename check_directory :
  let rows := fun name => combined_df (merge (c :: cs) name check_directory fs) in
  let after := fun name =>
    save_to_excel now (WriteFails left_behind backup) (c :: cs) name
                  check_directory fs in
  let csv_filename := fun name => Str.replace ".xlsx" "_backup.csv" name in
  match backup with
  | BackupOk =>
      save_to_excel_raises (WriteFails left_behind backup) (c :: cs) = false /\
      files (after filename) !! csv_filename filename = Some (Csv (rows filename)) /\
      files (after "github_contributors_results.xls")
            !! "github_contributors_results.xls"
        = Some (Csv (rows "github_contributors_results.xls"))
  | BackupFails left_at_backup =>
      save_to_excel_raises (WriteFails left_behind backup) (c :: cs) = true /\
      files (after filename) !! csv_filename filename = left_at_backup
  end /\
  NoDup (usernames (rows filename)) /\
  (csv_filename filename = filename <-> Str.contains ".xlsx" filename = false) /\
  csv_filename "github_contributors_results.xls" = "github_contributors_results.xls".
Proof.
  cbv zeta. split; [|split; [apply merge_NoDup|split; [|reflexivity]]].
  - destruct backup as [|left_at_backup].
    + split; [reflexivity|]. split; [apply save_to_excel_fallback|].
      exact (save_to_excel_fallback fs now left_behind c cs
               "github_contributors_results.xls" check_directory).
    + split; [reflexivity|]. unfold save_to_excel, set_file. simpl files.
      destruct left_at_backup as [content|];
        [apply lookup_insert_eq | apply lookup_delete_eq].
  - split.
    + intros Heq. destruct (Str.contains ".xlsx" filename) eqn:Hocc; [|reflexivity].
      exfalso. revert Heq. apply replace_occurrence; [simpl; lia | reflexivity | exact Hocc].
    + apply replace_no_occurrence.
Qed.

End ResultStore.

(* --------------------------------------------------------------------- *)
(** ** README links *)
(* --------------------------------------------------------------------- *)

Section ReadmeLinks.

(** No returned link names, once lower-cased, the text [owner/repo]. *)
Lemma readme_links_differ_from_seed (readme owner repo url o n : string) :
  url ∈ DataHandler.get_list_of_repo_urls_from_readme readme owner repo ->
  Utils.parse_repo_url url = (Some o, Some n) ->
  Str.lower (o +:+ "/" +:+ n) <> owner +:+ "/" +:+ repo.
Proof.
  unfold DataHandler.get_list_of_repo_urls_from_readme.
  intros Hin Hparse. apply list_elem_of_filter in Hin as [Hkeep _].
  rewrite Hparse in Hkeep. simpl in Hkeep.
  apply Is_true_true, andb_true_iff in Hkeep as [_ Hne].
  apply negb_true_iff, String.eqb_neq in Hne. exact Hne.
Qed.

(** C4 at the seed [Foo/Bar]: the link to the seed itself is returned along
    with the two external links, because only the link's side of the
    comparison is lower-cased; for the seed [foo/bar] the self-reference is
    dropped. *)
Theorem readme_self_reference_kept :
  DataHandler.get_list_of_repo_urls_from_readme
    "Forked from https://github.com/Foo/Bar see https://github.com/a/x and https://github.com/b/y"
    "Foo" "Bar"
  = [ "https://github.com/Foo/Bar"; "https://github.com/a/x"; "https://github.com/b/y" ]
  /\
  DataHandler.get_list_of_repo_urls_from_readme
    "Forked from https://github.com/foo/bar see https://github.com/a/x and https://github.com/b/y"
    "foo" "bar"
  = [ "https://github.com/a/x"; "https://github.com/b/y" ].
Proof. split; vm_compute; reflexivity. Qed.

End ReadmeLinks.

(* --------------------------------------------------------------------- *)
(** ** Blog URLs *)
(* --------------------------------------------------------------------- *)

Section BlogUrl.

Lemma append_not_fixed (p s : string) : Str.truthy p = true -> p +:+ s <> s.
Proof.
  intros Hp Heq. apply (f_equal String.length) in Heq.
  rewrite length_append in Heq. destruct p; [discriminate|]. simpl in Heq. lia.
Qed.

Lemma truthy_spec (s : string) : Str.truthy s = true <-> s <> EmptyString.
Proof. destruct s; simpl; split; congruence. Qed.

Lemma clean_blog_url_prefixed (s : string) :
  Utils.clean_blog_url (Some s) = Some ("https://" +:+ s) <->
  s <> EmptyString /\ ~ (exists t, s = "http" +:+ t).
Proof.
  unfold Utils.clean_blog_url. rewrite <- truthy_spec, <- startswith_spec.
  destruct (Str.truthy s), (Str.startswith "http" s); cbn [andb negb]; split;
    try solve [intuition congruence].
  all: intros Heq; apply (inj Some) in Heq; symmetry in Heq; exfalso;
    apply (append_not_fixed "https://" s eq_refl); exact Heq.
Qed.

Lemma clean_blog_url_unchanged (s : string) :
  Utils.clean_blog_url (Some s) = Some s <->
  s = EmptyString \/ exists t, s = "http" +:+ t.
Proof.
  unfold Utils.clean_blog_url.
  rewrite <- startswith_spec.
  destruct s as [|c s]; [cbn; tauto|].
  destruct (Str.startswith "http" (String c s)); cbn [Str.truthy andb negb]; split;
    try solve [intuition congruence].
  intros Heq. apply (inj Some) in Heq. exfalso.
  apply (append_not_fixed "https://" (String c s) eq_refl). exact Heq.
Qed.

(** C10 as stated fails: the rewrite does not follow the presence of a
    scheme.  A value without a scheme that begins with [http] is left alone,
    and a value with another scheme is prefixed. *)
Lemma clean_blog_url_counterexample :
  (has_url_scheme "httpbin.org" = false /\
   Utils.clean_blog_url (Some "httpbin.org") = Some "httpbin.org") /\
  (has_url_scheme "ftp://files.example.org" = true /\
   Utils.clean_blog_url (Some "ftp://files.example.org")
   = Some "https://ftp://files.example.org").
Proof. repeat split; reflexivity. Qed.

End BlogUrl.

(* --------------------------------------------------------------------- *)
(** ** Computations against the service *)
(* --------------------------------------------------------------------- *)

Section MonadFacts.
Import Remote.
Context {W : Type}.

Lemma outcome_eq {A} (o1 o2 : Outcome W A) :
  result o1 = result o2 -> world o1 = world o2 -> log o1 = log o2 -> o1 = o2.
Proof. destruct o1, o2; simpl; congruence. Qed.

Lemma bind_val {A B} (m : M W A) (f : A -> M W B) (w : W) (a : A) :
  result (m w) = Val a ->
  bind m f w = {| result := result (f a (world (m w)));
                  world := world (f a (world (m w)));
                  log := log (m w) ++ log (f a (world (m w))) |}.
Proof. intros Hr. unfold bind. rewrite Hr. reflexivity. Qed.

Lemma bind_exc {A B} (m : M W A) (f : A -> M W B) (w : W) :
  result (m w) = Exc ->
  bind m f w = {| result := Exc; world := world (m w); log := log (m w) |}.
Proof. intros Hr. unfold bind. rewrite Hr. reflexivity. Qed.

Lemma bind_ret_l {A B} (a : A) (f : A -> M W B) (w : W) :
  bind (ret a) f w = f a w.
Proof. apply outcome_eq; reflexivity. Qed.

Lemma bind_ext_at {A B} (m : M W A) (f g : A -> M W B) (w : W) :
  (forall a, result (m w) = Val a -> f a (world (m w)) = g a (world (m w))) ->
  bind m f w = bind m g w.
Proof.
  intros Hfg. unfold bind. destruct (result (m w)) as [a| |]; [|reflexivity..].
  rewrite (Hfg a eq_refl). reflexivity.
Qed.

Lemma bind_assoc_at {A B C} (m : M W A) (f : A -> M W B) (g : B -> M W C) (w : W) :
  bind (bind m f) g w = bind m (fun a => bind (f a) g) w.
Proof.
  unfold bind. destruct (result (m w)) as [a| |]; simpl; [|reflexivity..].
  destruct (result (f a (world (m w)))) as [b| |]; simpl;
    apply outcome_eq; simpl; rewrite ?app_assoc; reflexivity.
Qed.

(** The log of a sequence is the log of its first part followed by the log
    of what runs next. *)
Lemma log_bind {A B} (m : M W A) (f : A -> M W B) (w : W) :
  log (bind m f w) =
  log (m w) ++ match result (m w) with
               | Val a => log (f a (world (m w)))
               | _ => []
               end.
Proof.
  unfold bind. destruct (result (m w)); simpl; rewrite ?app_nil_r; reflexivity.
Qed.

Lemma log_try_except {A} (m h : M W A) (w : W) :
  log (try_except m h w) =
  log (m w) ++ match result (m w) with
               | Exc => log (h (world (m w)))
               | _ => []
               end.
Proof.
  unfold try_except. destruct (result (m w)); simpl; rewrite ?app_nil_r; reflexivity.
Qed.

Lemma logs_only_ret {A} P (a : A) : logs_only (W:=W) P (ret a).
Proof. intros w. constructor. Qed.

Lemma logs_only_raise {A} P : logs_only (W:=W) (A:=A) P raise.
Proof. intros w. constructor. Qed.

Lemma logs_only_bind {A B} P (m : M W A) (f : A -> M W B) :
  logs_only P m -> (forall a, logs_only P (f a)) -> logs_only P (bind m f).
Proof.
  intros Hm Hf w. rewrite log_bind. apply Forall_app. split; [apply Hm|].
  destruct (result (m w)); [apply Hf | constructor..].
Qed.

Lemma logs_only_try_except {A} P (m h : M W A) :
  logs_only P m -> logs_only P h -> logs_only P (try_except m h).
Proof.
  intros Hm Hh w. rewrite log_try_except. apply Forall_app. split; [apply Hm|].
  destruct (result (m w)); [constructor | apply Hh | constructor].
Qed.

Lemma logs_only_request {A} (P : Entry -> Prop) (c : Call) (endpoint : W -> option A * W) :
  P {| behalf := None; call := c |} -> logs_only P (request c endpoint).
Proof.
  intros Hc w. unfold request. destruct (endpoint w). simpl. repeat constructor. exact Hc.
Qed.

Lemma logs_only_on_behalf {A} (P Q : Entry -> Prop) (u : string) (m : M W A) :
  logs_only Q m ->
  (forall e, Q e -> P {| behalf := Some u; call := call e |}) ->
  logs_only P (on_behalf u m).
Proof.
  intros Hm HQP w. unfold on_behalf. simpl. apply Forall_fmap.
  eapply Forall_impl; [apply Hm | exact HQP].
Qed.

Lemma logs_only_impl {A} (P Q : Entry -> Prop) (m : M W A) :
  logs_only P m -> (forall e, P e -> Q e) -> logs_only Q m.
Proof. intros Hm HPQ w. eapply Forall_impl; [apply Hm | exact HPQ]. Qed.

Lemma returns_ret {A} (a : A) : returns (W:=W) (ret a).
Proof. intros w. exists a. reflexivity. Qed.

Lemma returns_bind {A B} (m : M W A) (f : A -> M W B) :
  returns m -> (forall a, returns (f a)) -> returns (bind m f).
Proof.
  intros Hm Hf w. destruct (Hm w) as [a Ha]. rewrite (bind_val _ _ _ _ Ha). simpl.
  apply Hf.
Qed.

Lemma returns_try_except {A} (m h : M W A) :
  bounded m -> returns h -> returns (try_except m h).
Proof.
  intros Hm Hh w. unfold try_except. specialize (Hm w).
  destruct (result (m w)) as [a| |] eqn:Hr; [eauto|apply Hh|congruence].
Qed.

Lemma bounded_returns {A} (m : M W A) : returns m -> bounded m.
Proof. intros Hm w. destruct (Hm w) as [a ->]. discriminate. Qed.

Lemma bounded_ret {A} (a : A) : bounded (W:=W) (ret a).
Proof. apply bounded_returns, returns_ret. Qed.

Lemma bounded_raise {A} : bounded (W:=W) (A:=A) raise.
Proof. intros w. discriminate. Qed.

Lemma bounded_bind {A B} (m : M W A) (f : A -> M W B) :
  bounded m -> (forall a, bounded (f a)) -> bounded (bind m f).
Proof.
  intros Hm Hf w. unfold bind. specialize (Hm w).
  destruct (result (m w)) as [a| |]; simpl; [apply Hf | discriminate | congruence].
Qed.

Lemma bounded_request {A} (c : Call) (endpoint : W -> option A * W) :
  bounded (request c endpoint).
Proof. intros w. unfold request. destruct (endpoint w) as [[a|] w']; discriminate. Qed.

Lemma bounded_try_except {A} (m h : M W A) :
  bounded m -> bounded h -> bounded (try_except m h).
Proof.
  intros Hm Hh w. unfold try_except. specialize (Hm w).
  destruct (result (m w)) eqn:Hr; [congruence | apply Hh | congruence].
Qed.

Lemma bounded_on_behalf {A} (u : string) (m : M W A) :
  bounded m -> bounded (on_behalf u m).
Proof. intros Hm w. apply Hm. Qed.

End MonadFacts.

(* --------------------------------------------------------------------- *)
(** ** The estimate from the public event feed *)
(* --------------------------------------------------------------------- *)

Section EventFeed.
Import Remote GitHubAPIClient.

Lemma in_window_commits_app cutoff (a b : list Event) :
  in_window_commits cutoff (a ++ b) =
  (in_window_commits cutoff a + in_window_commits cutoff b)%Z.
Proof. induction a as [|e a IH]; simpl; [reflexivity | rewrite IH; lia]. Qed.

Lemma in_window_commits_nonneg cutoff (a : list Event) :
  (0 <= in_window_commits cutoff a)%Z.
Proof. induction a as [|e a IH]; simpl; [lia | destruct (in_window cutoff e); lia]. Qed.

Lemma before_old_push_app cutoff (a b : list Event) :
  before_old_push cutoff (a ++ b) =
  if existsb (old_push cutoff) a then before_old_push cutoff a
  else a ++ before_old_push cutoff b.
Proof.
  induction a as [|e a IH]; simpl; [reflexivity|].
  destruct (old_push cutoff e); simpl; [reflexivity|].
  rewrite IH. destruct (existsb (old_push cutoff) a); reflexivity.
Qed.

Lemma before_old_push_prefix cutoff (a : list Event) :
  exists rest, a = before_old_push cutoff a ++ rest.
Proof.
  induction a as [|e a [rest IH]]; simpl; [exists []; reflexivity|].
  destruct (old_push cutoff e); [eexists; reflexivity|].
  exists rest. simpl. congruence.
Qed.

(** The inner loop returns at the first push event older than the cutoff and
    has then added the commits of the in-window push events before it. *)
Lemma scan_events_spec cutoff total (events : list Event) :
  scan_events cutoff total events =
  if existsb (old_push cutoff) events
  then inl (total + in_window_commits cutoff (before_old_push cutoff events))%Z
  else inr (total + in_window_commits cutoff events)%Z.
Proof.
  revert total. induction events as [|e events IH]; intros total.
  - simpl. rewrite Z.add_0_r. reflexivity.
  - assert (old_push cutoff e =
            String.eqb (type e) "PushEvent" && negb (cutoff <=? created_at e)%Z) as Hold.
    { unfold old_push, is_push. now rewrite Z.ltb_antisym. }
    assert (in_window cutoff e =
            String.eqb (type e) "PushEvent" && (cutoff <=? created_at e)%Z) as Hin
        by reflexivity.
    cbn [scan_events existsb before_old_push in_window_commits].
    rewrite Hold. destruct (String.eqb (type e) "PushEvent"); cbn [andb] in *.
    + destruct (cutoff <=? created_at e)%Z; cbn [negb orb] in *.
      * cbn [in_window_commits]. rewrite Hin, IH.
        destruct (existsb _ events); f_equal; lia.
      * cbn [in_window_commits]. rewrite Z.add_0_r. reflexivity.
    + cbn [orb in_window_commits]. rewrite Hin, IH.
      destruct (existsb _ events); f_equal; lia.
Qed.

(** Whatever the service answers, the pages requested are an initial part
    of the pages the loop is given, in order. *)
Lemma scan_event_pages_requests {W : Type} `{Service W}
    username cutoff (pages : list nat) total (w : W) :
  exists k, (k <= length pages)%nat /\
            calls (log (scan_event_pages username cutoff pages total w)) =
            map (GetEvents username) (take k pages).
Proof.
  revert total w. induction pages as [|p pages IH]; intros total w.
  - exists 0%nat. split; [lia | reflexivity].
  - cbn [scan_event_pages]. unfold bind, request.
    destruct (events_page username p w) as [[[events|code]|] w1]; cbn [result world log].
    + destruct events as [|e es].
      * exists 1%nat. split; [simpl; lia | reflexivity].
      * destruct (scan_events cutoff total (e :: es)) as [t|t].
        -- exists 1%nat. split; [simpl; lia | reflexivity].
        -- destruct (IH t w1) as (k & Hk & Hlog). exists (S k).
           split; [simpl; lia|]. unfold calls in *. rewrite map_app, Hlog. reflexivity.
    + exists 1%nat. split; [simpl; lia | reflexivity].
    + exists 1%nat. split; [simpl; lia | reflexivity].
Qed.

(** At most the first three pages are requested, whatever the service
    answers. *)
Lemma get_commits_from_events_at_most_three {W : Type} `{Service W}
    username (w : W) :
  exists k, (k <= 3)%nat /\
            calls (log (get_commits_from_events username w)) =
            map (GetEvents username) (take k [1; 2; 3]%nat).
Proof.
  unfold get_commits_from_events.
  rewrite (bind_val now _ w (clock w) eq_refl). cbn [result world log now app].
  apply (scan_event_pages_requests username _ [1; 2; 3]%nat).
Qed.

Section Served.
Context {W : Type} `{Service W}.
Variables (username : string) (feed : list (list Event)).
Hypothesis Hserves : serves_feed username feed.
Hypothesis Hpages : Forall (fun page => page <> []) feed.

Lemma feed_page_empty (i : nat) : nth i feed [] = [] -> drop i feed = [].
Proof.
  intros Hnth. apply drop_ge. destruct (Nat.le_gt_cases (length feed) i) as [|Hlt]; [assumption|].
  exfalso. rewrite Forall_forall in Hpages. apply (Hpages (nth i feed [])); [|assumption].
  apply list_elem_of_In, nth_In, Hlt.
Qed.

Lemma feed_page_drop (i : nat) e es :
  nth i feed [] = e :: es -> drop i feed = (e :: es) :: drop (S i) feed.
Proof.
  intros Hnth. destruct (Nat.le_gt_cases (length feed) i) as [Hge|Hlt].
  - rewrite nth_overflow in Hnth by assumption. discriminate.
  - destruct (lookup_lt_is_Some_2 feed i Hlt) as [x Hx].
    rewrite (nth_lookup_Some _ _ [] _ Hx) in Hnth. subst x. now apply drop_S.
Qed.

(** The page loop from page [p] on, with [k] pages left to request. *)
Lemma scan_event_pages_spec cutoff (k p : nat) (total : Z) (w : W) :
  (1 <= p)%nat ->
  exists j,
    (j <= k)%nat /\
    result (scan_event_pages username cutoff (seq p k) total w) =
      Val (total + in_window_commits cutoff
                     (before_old_push cutoff (concat (take k (drop (p - 1) feed)))))%Z /\
    calls (log (scan_event_pages username cutoff (seq p k) total w)) =
      map (GetEvents username) (seq p j) /\
    (forall i, (i < k)%nat ->
               existsb (old_push cutoff) (nth (p - 1 + i) feed []) = true ->
               (j <= S i)%nat).
Proof.
  revert p total w. induction k as [|k IH]; intros p total w Hp.
  - exists 0%nat. simpl. rewrite Z.add_0_r. repeat split; [lia | intros; lia].
  - cbn [seq scan_event_pages].
    pose proof (Hserves p w) as Hpage.
    unfold bind, request. destruct (events_page username p w) as [answer w1].
    cbn [fst] in Hpage. subst answer. cbn [result world log].
    destruct (nth (p - 1) feed []) as [|e es] eqn:Hnth.
    + exists 1%nat. rewrite (feed_page_empty _ Hnth), take_nil. cbn.
      rewrite Z.add_0_r. repeat split; [lia|].
      intros i Hi Hex. lia.
    + rewrite (feed_page_drop _ _ _ Hnth). rewrite firstn_cons. cbn [concat].
      replace (S (p - 1)) with (S p - 1)%nat by lia.
      rewrite scan_events_spec, before_old_push_app.
      destruct (existsb (old_push cutoff) (e :: es)) eqn:Hold.
      * exists 1%nat. cbn. repeat split; [lia|]. intros; lia.
      * destruct (IH (S p) (total + in_window_commits cutoff (e :: es))%Z w1)
          as (j & Hj & Hres & Hlog & Himm); [lia|].
        exists (S j). split; [lia|]. split; [|split].
        -- cbn [result]. rewrite Hres, in_window_commits_app. f_equal. lia.
        -- cbn [log]. unfold calls in *. rewrite map_app, Hlog. reflexivity.
        -- intros [|i] Hi Hex.
           ++ rewrite Nat.add_0_r, Hnth in Hex. congruence.
           ++ apply le_n_S, Himm; [lia|].
              replace (S p - 1 + i)%nat with (p - 1 + S i)%nat by lia. exact Hex.
Qed.

(** C8, amended.  When the service serves [username]'s event feed page by
    page, [get_commits_from_events] returns a number [n] after requesting at
    most the first three pages, in order; [n] is the sum of the commit counts
    of the push events inside the 365-day window that precede the first
    push-type event older than the cutoff in those three pages; no page is
    requested after a page that holds such a push event; and [n] is at most
    the in-window commit count of the whole feed. *)
Theorem get_commits_from_events_lower_bound (w : W) :
  let cutoff := (clock w - DAYS_365)%Z in
  let out := get_commits_from_events username w in
  exists (n : Z) (fetched : nat),
    result out = Val n /\
    (fetched <= 3)%nat /\
    calls (log out) = map (GetEvents username) (seq 1 fetched) /\
    n = in_window_commits cutoff (before_old_push cutoff (concat (take 3 feed))) /\
    (forall i, (i < 3)%nat ->
               existsb (old_push cutoff) (nth i feed []) = true ->
               (fetched <= S i)%nat) /\
    (n <= in_window_commits cutoff (concat feed))%Z.
Proof.
  cbv zeta. unfold get_commits_from_events.
  destruct (scan_event_pages_spec (clock w - DAYS_365) 3 1 0 w)
    as (j & Hj & Hres & Hlog & Himm); [lia|].
  change (seq 1 3) with [1; 2; 3]%nat in *.
  change (drop (1 - 1) feed) with feed in Hres.
  rewrite (bind_val now _ w (clock w) eq_refl).
  cbn [result world log now app].
  eexists _, j. split; [|split; [exact Hj|split; [|split; [|split]]]].
  - rewrite Hres, Z.add_0_l. reflexivity.
  - exact Hlog.
  - reflexivity.
  - intros i Hi Hex. apply Himm; [assumption|]. exact Hex.
  - destruct (before_old_push_prefix (clock w - DAYS_365) (concat (take 3 feed)))
      as [rest Hrest].
    assert (concat feed = concat (take 3 feed) ++ concat (drop 3 feed)) as Hfeed
        by (rewrite <- concat_app, take_drop; reflexivity).
    rewrite Hfeed, in_window_commits_app.
    apply (f_equal (in_window_commits (clock w - DAYS_365))) in Hrest.
    rewrite in_window_commits_app in Hrest.
    pose proof (in_window_commits_nonneg (clock w - DAYS_365) rest).
    pose proof (in_window_commits_nonneg (clock w - DAYS_365) (concat (drop 3 feed))).
    lia.
Qed.

End Served.

Lemma get_commits_from_events_lower_bound_witness :
  let cutoff := (86400000 - DAYS_365)%Z in
  let out := @get_commits_from_events unit pushed_service "octocat" tt in
  exists (n : Z) (fetched : nat),
    result out = Val n /\
    (fetched <= 3)%nat /\
    calls (log out) = map (GetEvents "octocat") (seq 1 fetched) /\
    n = in_window_commits cutoff
          (before_old_push cutoff (concat (take 3 pushed_feed))) /\
    (forall i, (i < 3)%nat ->
               existsb (old_push cutoff) (nth i pushed_feed []) = true ->
               (fetched <= S i)%nat) /\
    (n <= in_window_commits cutoff (concat pushed_feed))%Z.
Proof.
  apply (@get_commits_from_events_lower_bound unit pushed_service
           "octocat" pushed_feed).
  - intros page w. reflexivity.
  - repeat constructor; discriminate.
Defined.

(** C8 as stated fails: the scan does not return at the first event older
    than the cutoff when that event is not a push.  On a newest-first feed
    whose first page ends with an old event of another type, the total is kept
    and pages 2 and 3 are still requested. *)
Lemma get_commits_from_events_counterexample :
  let cutoff := (86400000 - DAYS_365)%Z in
  let out := @get_commits_from_events unit watched_service "octocat" tt in
  existsb (older cutoff) (nth 0 watched_feed []) = true /\
  result out = Val 2%Z /\
  calls (log out) =
    [GetEvents "octocat" 1; GetEvents "octocat" 2; GetEvents "octocat" 3].
Proof. repeat split; vm_compute; reflexivity. Qed.

End EventFeed.

(* --------------------------------------------------------------------- *)
(** ** What the client's calls are about *)
(* --------------------------------------------------------------------- *)

Section ClientFacts.
Import Remote GitHubAPIClient Crawler.
Context {W : Type} `{Service W}.

Lemma logs_only_now P : logs_only (W:=W) P now.
Proof. intros w. constructor. Qed.

Lemma bounded_now : bounded (W:=W) now.
Proof. intros w. discriminate. Qed.

(** Decompose a goal about a computation along its structure. *)
Ltac logs_step :=
  match goal with
  | |- logs_only _ (bind _ _) => apply logs_only_bind; [|intros ?]
  | |- logs_only _ (try_except _ _) => apply logs_only_try_except
  | |- logs_only _ (ret _) => apply logs_only_ret
  | |- logs_only _ raise => apply logs_only_raise
  | |- logs_only _ now => apply logs_only_now
  | |- logs_only _ (request _ _) => apply logs_only_request
  | |- logs_only _ (match ?x with _ => _ end) => destruct x
  | |- bounded (bind _ _) => apply bounded_bind; [|intros ?]
  | |- bounded (try_except _ _) => apply bounded_try_except
  | |- bounded (ret _) => apply bounded_ret
  | |- bounded raise => apply bounded_raise
  | |- bounded now => apply bounded_now
  | |- bounded (request _ _) => apply bounded_request
  | |- bounded (on_behalf _ _) => apply bounded_on_behalf
  | |- bounded (match ?x with _ => _ end) => destruct x
  | |- about _ _ => intros v; cbn; intros [= <-]; reflexivity
  | |- about _ _ => intros v; cbn; discriminate
  end.

Ltac logs := repeat logs_step; eauto.

Lemma about_scan_event_pages u cutoff pages total :
  logs_only (about u) (scan_event_pages u cutoff pages total).
Proof. revert total. induction pages as [|p pages IH]; intros total; cbn [scan_event_pages]; logs. Qed.

Lemma bounded_scan_event_pages u cutoff pages total :
  bounded (scan_event_pages u cutoff pages total).
Proof. revert total. induction pages as [|p pages IH]; intros total; cbn [scan_event_pages]; logs. Qed.

Lemma about_get_commits_from_events u : logs_only (about u) (get_commits_from_events u).
Proof. unfold get_commits_from_events. logs. apply about_scan_event_pages. Qed.

Lemma bounded_get_commits_from_events u : bounded (get_commits_from_events u).
Proof. unfold get_commits_from_events. logs. apply bounded_scan_event_pages. Qed.

Lemma about_yearly self u :
  logs_only (about u) (get_user_contributions_last_year self u).
Proof.
  unfold get_user_contributions_last_year.
  pose proof (about_get_commits_from_events u). logs.
Qed.

Lemma bounded_yearly self u : bounded (get_user_contributions_last_year self u).
Proof.
  unfold get_user_contributions_last_year.
  pose proof (bounded_get_commits_from_events u). logs.
Qed.

Lemma about_get_user_profile u : logs_only (about u) (get_user_profile u).
Proof. unfold get_user_profile. logs. Qed.

Lemma bounded_get_user_profile u : bounded (get_user_profile u).
Proof. unfold get_user_profile. logs. Qed.

Lemma about_commit_api u repo sha :
  logs_only (about u) (_get_email_from_commit_api repo sha).
Proof. unfold _get_email_from_commit_api. logs. Qed.

Lemma bounded_commit_api repo sha : bounded (_get_email_from_commit_api repo sha).
Proof. unfold _get_email_from_commit_api. logs. Qed.

Lemma about_first_valid u repo shas :
  logs_only (about u) (first_valid_commit_email repo shas).
Proof.
  pose proof (about_commit_api u repo).
  induction shas as [|sha shas IH]; cbn [first_valid_commit_email]; logs.
Qed.

Lemma bounded_first_valid repo shas : bounded (first_valid_commit_email repo shas).
Proof.
  pose proof (bounded_commit_api repo).
  induction shas as [|sha shas IH]; cbn [first_valid_commit_email]; logs.
Qed.

Lemma about_extract u repo :
  logs_only (about u) (_extract_email_from_repo_commits u repo).
Proof.
  unfold _extract_email_from_repo_commits. pose proof (about_first_valid u repo). logs.
Qed.

Lemma bounded_extract u repo : bounded (_extract_email_from_repo_commits u repo).
Proof.
  unfold _extract_email_from_repo_commits. pose proof (bounded_first_valid repo). logs.
Qed.

Lemma about_scan_oldest u i repos : logs_only (about u) (scan_oldest_repos u i repos).
Proof.
  pose proof (about_extract u).
  revert i. induction repos as [|r repos IH]; intros i; cbn [scan_oldest_repos]; logs.
Qed.

Lemma bounded_scan_oldest u i repos : bounded (scan_oldest_repos u i repos).
Proof.
  pose proof (bounded_extract u).
  revert i. induction repos as [|r repos IH]; intros i; cbn [scan_oldest_repos]; logs.
Qed.

Lemma about_scan_recent u repos : logs_only (about u) (scan_recent_repos u repos).
Proof.
  pose proof (about_extract u).
  induction repos as [|r repos IH]; cbn [scan_recent_repos]; logs.
Qed.

Lemma bounded_scan_recent u repos : bounded (scan_recent_repos u repos).
Proof.
  pose proof (bounded_extract u).
  induction repos as [|r repos IH]; cbn [scan_recent_repos]; logs.
Qed.

Lemma about_get_commit_email u src :
  logs_only (about u) (get_commit_email_from_repo u src).
Proof.
  unfold get_commit_email_from_repo.
  pose proof (about_scan_oldest u). pose proof (about_scan_recent u). logs.
Qed.

Lemma bounded_get_commit_email u src : bounded (get_commit_email_from_repo u src).
Proof.
  unfold get_commit_email_from_repo.
  pose proof (bounded_scan_oldest u). pose proof (bounded_scan_recent u). logs.
Qed.

Lemma about_scan_pinned u pinned ce : logs_only (about u) (scan_pinned_repos u pinned ce).
Proof.
  pose proof (about_extract u).
  revert ce. induction pinned as [|r pinned IH]; intros ce; cbn [scan_pinned_repos]; logs.
Qed.

Lemma bounded_scan_pinned u pinned ce : bounded (scan_pinned_repos u pinned ce).
Proof.
  pose proof (bounded_extract u).
  revert ce. induction pinned as [|r pinned IH]; intros ce; cbn [scan_pinned_repos]; logs.
Qed.

Lemma about_discover u src : logs_only (about u) (discover_commit_email u src).
Proof.
  unfold discover_commit_email, get_pinned_repos.
  pose proof (about_get_commit_email u src). pose proof (about_scan_pinned u). logs.
Qed.

Lemma bounded_discover u src : bounded (discover_commit_email u src).
Proof.
  unfold discover_commit_email, get_pinned_repos.
  pose proof (bounded_get_commit_email u src). pose proof (bounded_scan_pinned u). logs.
Qed.

Lemma about_qualify_contributor self url owner repo m2 c :
  logs_only (about (login c)) (qualify_contributor self url owner repo m2 c).
Proof.
  unfold qualify_contributor.
  pose proof (about_yearly self (login c)). pose proof (about_get_user_profile (login c)).
  pose proof (about_discover (login c)). logs.
Qed.

Lemma bounded_qualify_contributor self url owner repo m2 c :
  bounded (qualify_contributor self url owner repo m2 c).
Proof.
  unfold qualify_contributor.
  pose proof (bounded_yearly self (login c)). pose proof (bounded_get_user_profile (login c)).
  pose proof (bounded_discover (login c)). logs.
Qed.

(** Every call of the qualification loop is made for one of the
    contributors it is given and names no other user. *)
Lemma processed_qualify_contributors self url owner repo m2 high acc :
  logs_only (fun e => exists c, c ∈ high /\ behalf e = Some (login c) /\
                                about (login c) e)
            (qualify_contributors self url owner repo m2 high acc).
Proof.
  revert acc. induction high as [|c high IH]; intros acc; cbn [qualify_contributors].
  - apply logs_only_ret.
  - apply logs_only_bind.
    + eapply logs_only_on_behalf; [apply about_qualify_contributor|].
      intros e He. exists c. split; [now left|]. split; [reflexivity | exact He].
    + intros row. eapply logs_only_impl; [apply IH|].
      intros e (c' & Hc' & Hb & Ha). exists c'. split; [now right | tauto].
Qed.

Lemma bounded_qualify_contributors self url owner repo m2 high acc :
  bounded (qualify_contributors self url owner repo m2 high acc).
Proof.
  pose proof (bounded_qualify_contributor self url owner repo m2).
  revert acc. induction high as [|c high IH]; intros acc; cbn [qualify_contributors]; logs.
Qed.

Lemma anonymous_get_repo_contributors fuel owner repo page acc :
  logs_only anonymous (get_repo_contributors_from fuel owner repo page acc).
Proof.
  revert page acc. induction fuel as [|fuel IH]; intros page acc;
    cbn [get_repo_contributors_from].
  - intros w. constructor.
  - logs. split; reflexivity.
Qed.

Lemma bind_val_inv {A B} (m : M W A) (f : A -> M W B) (w : W) (b : B) :
  result (bind m f w) = Val b ->
  exists a, result (m w) = Val a /\ result (f a (world (m w))) = Val b.
Proof.
  unfold bind. destruct (result (m w)) as [a| |]; simpl; [eauto | discriminate..].
Qed.

(** A row the loop appends carries the login of its contributor. *)
Lemma qualify_contributor_row self url owner repo m2 c (w : W) row :
  result (qualify_contributor self url owner repo m2 c w) = Val (Some row) ->
  DataHandler.username row = Some (login c).
Proof.
  unfold qualify_contributor. intros Hr.
  apply bind_val_inv in Hr as (yearly & _ & Hr).
  destruct (m2 <=? yearly)%Z; [|discriminate].
  apply bind_val_inv in Hr as (profile & _ & Hr).
  apply bind_val_inv in Hr as (commit_email & _ & Hr).
  injection Hr as <-. reflexivity.
Qed.

Lemma qualify_contributors_rows self url owner repo m2 high acc (w : W) rows :
  result (qualify_contributors self url owner repo m2 high acc w) = Val rows ->
  forall r, r ∈ rows ->
            r ∈ acc \/ exists c, c ∈ high /\ DataHandler.username r = Some (login c).
Proof.
  revert acc w. induction high as [|c high IH]; intros acc w Hr r Hin;
    cbn [qualify_contributors] in Hr.
  - injection Hr as <-. now left.
  - apply bind_val_inv in Hr as (row & Hrow & Hr).
    destruct (IH _ _ Hr r Hin) as [Hacc | (c' & Hc' & Hu)].
    + destruct row as [row|]; [|now left].
      apply elem_of_app in Hacc as [Hacc | Hnew]; [now left|].
      apply list_elem_of_singleton in Hnew as ->. right. exists c. split; [now left|].
      exact (qualify_contributor_row _ _ _ _ _ _ _ _ Hrow).
    + right. exists c'. split; [now right | assumption].
Qed.

Lemma elem_of_high_contributors m1 contributors c :
  c ∈ high_contributors m1 contributors <->
  c ∈ contributors /\ (m1 <= contributions c)%Z.
Proof.
  unfold high_contributors. rewrite elem_of_List_filter, Z.leb_le. reflexivity.
Qed.

(** C7.  When the contributor listing of the repository has been read, a
    user all of whose entries in it have a contribution count below
    [min_repo_contributions] is never processed: no call of the run is made
    in that user's iteration of the loop or names that user (no yearly
    lookup, profile fetch, repository or commit listing, or pinned scrape),
    and no returned row carries that username. *)
Theorem below_threshold_never_processed
    self fuel repo_url m1 m2 owner repo (w : W) contributors (u : string) :
  Utils.parse_repo_url repo_url = (Some owner, Some repo) ->
  result (get_repo_contributors fuel owner repo w) = Val contributors ->
  (forall c, c ∈ contributors -> login c = u -> (contributions c < m1)%Z) ->
  let out := filter_contributors_for_repo self fuel repo_url m1 m2 w in
  Forall (fun e => behalf e <> Some u /\ subject (call e) <> Some u) (log out) /\
  exists rows, result out = Val rows /\ Some u ∉ DataHandler.usernames rows.
Proof.
  intros Hparse Hlist Hbelow. cbv zeta.
  unfold filter_contributors_for_repo.
  rewrite (parse_repo_url_quiet _ _ _ Hparse), Hparse.
  destruct (negb (Str.truthy owner) || negb (Str.truthy repo)).
  { split; [constructor|]. exists []. split; [reflexivity|]. simpl. apply not_elem_of_nil. }
  set (high := high_contributors m1 contributors).
  assert (forall c, c ∈ high -> login c <> u) as Hhigh.
  { intros c Hc Hu. apply elem_of_high_contributors in Hc as [Hc Hge].
    specialize (Hbelow c Hc Hu). lia. }
  set (w1 := world (get_repo_contributors fuel owner repo w)).
  set (loop := qualify_contributors self repo_url owner repo m2 high [] w1).
  assert (Forall (fun e => behalf e <> Some u /\ subject (call e) <> Some u)
                 (log (get_repo_contributors fuel owner repo w))) as Hlog1.
  { eapply Forall_impl; [apply anonymous_get_repo_contributors|].
    intros e [Hb Hs]. rewrite Hb, Hs. split; discriminate. }
  assert (Forall (fun e => behalf e <> Some u /\ subject (call e) <> Some u)
                 (log loop)) as Hlog2.
  { eapply Forall_impl; [apply processed_qualify_contributors|].
    intros e (c & Hc & Hb & Ha). specialize (Hhigh c Hc). split.
    - rewrite Hb. congruence.
    - intros Hs. apply Ha in Hs. congruence. }
  unfold try_except. rewrite (bind_val _ _ _ _ Hlist). fold w1 high loop.
  cbn [result world log].
  pose proof (bounded_qualify_contributors self repo_url owner repo m2 high [] w1) as Hb.
  fold loop in Hb.
  destruct (result loop) as [rows| |] eqn:Hres; cbn [result log]; [| |contradiction].
  - split; [apply Forall_app; tauto|]. exists rows. split; [reflexivity|].
    intros Hin. apply elem_of_usernames in Hin as (r & Hr & Hu).
    destruct (qualify_contributors_rows _ _ _ _ _ _ _ _ _ Hres r Hr)
      as [Hnil | (c & Hc & Hname)]; [inversion Hnil|].
    specialize (Hhigh c Hc). congruence.
  - split; [rewrite app_nil_r; apply Forall_app; tauto|]. exists []. split; [reflexivity|].
    simpl. apply not_elem_of_nil.
Qed.

End ClientFacts.

Lemma below_threshold_never_processed_witness :
  let out := @Crawler.filter_contributors_for_repo unit team_service
               {| GitHubAPIClient.token := Some "t0ken" |} 5
               "https://github.com/acme/platform" 100 400 tt in
  Forall (fun e => Remote.behalf e <> Some "bob" /\
                   Remote.subject (Remote.call e) <> Some "bob")
         (Remote.log out) /\
  exists rows, Remote.result out = Remote.Val rows /\
               Some "bob" ∉ DataHandler.usernames rows.
Proof.
  apply (@below_threshold_never_processed unit team_service
           {| GitHubAPIClient.token := Some "t0ken" |} 5
           "https://github.com/acme/platform" 100 400 "acme" "platform" tt
           [alice_candidate; bob_candidate] "bob").
  - vm_compute. reflexivity.
  - vm_compute. reflexivity.
  - intros c Hc Hu. apply elem_of_cons in Hc as [-> | Hc]; [discriminate|].
    apply list_elem_of_singleton in Hc as ->. reflexivity.
Defined.

(* --------------------------------------------------------------------- *)
(** ** Email discovery *)
(* --------------------------------------------------------------------- *)

Section Discovery.
Import Remote GitHubAPIClient Crawler.
Context {W : Type} `{Service W}.


Lemma is_valid_email_truthy e : Utils.is_valid_email e = true -> Str.truthy e = true.
Proof. unfold Utils.is_valid_email. destruct (Str.truthy e); [reflexivity | discriminate]. Qed.

Lemma found_valid_truthy x :
  found_valid x -> truthy_opt x = match x with Some _ => true | None => false end.
Proof.
  intros [-> | (e & -> & He)]; [reflexivity|]. simpl. now apply is_valid_email_truthy.
Qed.

Lemma commit_api_returns repo sha : returns (_get_email_from_commit_api repo sha).
Proof.
  unfold _get_email_from_commit_api. apply returns_try_except; [|apply returns_ret].
  apply bounded_bind; [apply bounded_request|]. intros [email|code]; apply bounded_ret.
Qed.

Lemma first_valid_found repo shas (w : W) :
  exists x, result (first_valid_commit_email repo shas w) = Val x /\ found_valid x.
Proof.
  revert w. induction shas as [|sha shas IH]; intros w; cbn [first_valid_commit_email].
  - exists None. split; [reflexivity | now left].
  - destruct (commit_api_returns repo sha w) as [email Hemail].
    rewrite (bind_val _ _ _ _ Hemail). cbn [result].
    destruct email as [e|]; [|apply IH].
    destruct (Str.truthy e && Utils.is_valid_email e) eqn:Hok; [|apply IH].
    exists (Some e). split; [reflexivity|]. right. exists e. split; [reflexivity|].
    now apply andb_true_iff in Hok.
Qed.

Lemma extract_found u repo (w : W) :
  exists x, result (_extract_email_from_repo_commits u repo w) = Val x /\ found_valid x.
Proof.
  unfold _extract_email_from_repo_commits, try_except, bind, request.
  destruct (repo_commits repo u w) as [[[commits|code]|] w1]; cbn.
  - destruct commits as [|c commits]; cbn.
    + exists None. split; [reflexivity | now left].
    + destruct (first_valid_found repo (rev (c :: commits)) w1) as (x & Hx & Hfound).
      cbn in Hx. rewrite Hx. cbn. eauto.
  - exists None. split; [reflexivity | now left].
  - exists None. split; [reflexivity | now left].
Qed.

Lemma check_each_found u repos (w : W) :
  exists x, result (check_each u repos w) = Val x /\ found_valid x.
Proof.
  revert w. induction repos as [|r repos IH]; intros w; cbn [check_each].
  - exists None. split; [reflexivity | now left].
  - destruct (extract_found u r w) as (x & Hx & Hfound).
    rewrite (bind_val _ _ _ _ Hx). cbn [result].
    destruct x as [e|]; [|apply IH]. exists (Some e). split; [reflexivity | assumption].
Qed.

Lemma scan_recent_repos_eq u repos (w : W) :
  scan_recent_repos u repos w = check_each u repos w.
Proof.
  revert w. induction repos as [|r repos IH]; intros w; [reflexivity|].
  cbn [scan_recent_repos check_each]. apply bind_ext_at. intros x Hx.
  destruct (extract_found u r w) as (x' & Hx' & Hfound).
  assert (x' = x) as -> by congruence.
  rewrite (found_valid_truthy _ Hfound). destruct x; [reflexivity | apply IH].
Qed.

Lemma scan_oldest_repos_eq u repos (i : nat) (w : W) :
  (i <= 9)%nat ->
  scan_oldest_repos u i repos w = check_each u (take (10 - i) repos) w.
Proof.
  revert i w. induction repos as [|r repos IH]; intros i w Hi.
  - rewrite take_nil. reflexivity.
  - replace (10 - i)%nat with (S (9 - i)) by lia. rewrite firstn_cons.
    cbn [scan_oldest_repos check_each]. apply bind_ext_at. intros x Hx.
    destruct (extract_found u r w) as (x' & Hx' & Hfound).
    assert (x' = x) as -> by congruence.
    rewrite (found_valid_truthy _ Hfound). destruct x; [reflexivity|].
    destruct (9 <=? i)%nat eqn:Hnine.
    + apply Nat.leb_le in Hnine. replace (9 - i)%nat with 0%nat by lia. reflexivity.
    + apply Nat.leb_gt in Hnine. rewrite IH by lia.
      replace (10 - S i)%nat with (9 - i)%nat by lia. reflexivity.
Qed.

Lemma scan_pinned_repos_eq u pinned (w : W) :
  scan_pinned_repos u pinned None w = check_each u pinned w.
Proof.
  revert w. induction pinned as [|r pinned IH]; intros w; [reflexivity|].
  cbn [scan_pinned_repos check_each]. apply bind_ext_at. intros x Hx.
  destruct (extract_found u r w) as (x' & Hx' & Hfound).
  assert (x' = x) as -> by congruence.
  rewrite (found_valid_truthy _ Hfound). destruct x; [reflexivity | apply IH].
Qed.

Ltac red_out := cbn [result world log fst snd app].

(** Name the outcome of a repository scan and use what is known of it. *)
Ltac scan_outcome u repos w x Hf :=
  let Hx := fresh "Hx" in
  destruct (check_each_found u repos w) as (x & Hx & Hf);
  destruct (check_each u repos w) as [? ? ?];
  cbn [result] in Hx; subst; red_out.

Ltac crunch :=
  repeat (red_out;
    match goal with
    | |- context [scan_oldest_repos ?u 0 ?repos ?w] =>
        rewrite (scan_oldest_repos_eq u repos 0 w) by lia;
        change (10 - 0)%nat with 10%nat
    | |- context [scan_recent_repos ?u ?repos ?w] =>
        rewrite (scan_recent_repos_eq u repos w)
    | |- context [scan_pinned_repos ?u ?p None ?w] =>
        rewrite (scan_pinned_repos_eq u p w)
    | |- context [check_each ?u ?repos ?w] =>
        let x := fresh "x" in
        let Hf := fresh "Hf" in
        scan_outcome u repos w x Hf; destruct x
    | |- context [user_repos ?u ?s ?w] =>
        destruct (user_repos u s w) as [[[?|?]|] ?]
    | |- context [pinned_repos ?u ?w] =>
        destruct (pinned_repos u w) as [[?|] ?]
    end).

(** The listings of [get_commit_email_from_repo] yield nothing or a valid
    email, and never raise. *)
Lemma get_commit_email_found u src (w : W) :
  exists x, result (get_commit_email_from_repo u src w) = Val x /\ found_valid x.
Proof.
  unfold get_commit_email_from_repo.
  unfold try_except, bind, request, ret.
  destruct (user_repos u params w) as [[[[|r rs]|code]|] w1]; crunch;
    eexists; (split; [reflexivity|]); solve [assumption | now left].
Qed.

(** X13.  Email discovery is the ordered list of strategies over the two
    listings the source requests; it yields a valid email or nothing, and the
    only exception that escapes it is one raised by the pinned-repository
    scraper. *)
Lemma discovery_is_ordered u src (w : W) :
  discover_commit_email u src w = ordered_discovery params recent_params u w /\
  match result (discover_commit_email u src w) with
  | Val (Some e) => Utils.is_valid_email e = true
  | Val None => True
  | Exc => exists w', (pinned_repos u w').1 = None
  | Timeout => False
  end.
Proof.
  split.
  - unfold discover_commit_email, ordered_discovery, get_commit_email_from_repo,
      strategy_oldest, strategy_recent, strategy_pinned, listing, get_pinned_repos.
    unfold try_except, bind, request, ret.
    destruct (user_repos u params w) as [[[[|r rs]|code]|] w1]; crunch;
      solve [ reflexivity
            | apply outcome_eq; red_out; rewrite ?app_nil_r, <- ?app_assoc; reflexivity ].
  - unfold discover_commit_email.
    destruct (get_commit_email_found u src w) as (x & Hx & Hfound).
    rewrite (bind_val _ _ _ _ Hx). red_out.
    destruct Hfound as [-> | (e & -> & He)]; [|exact He].
    unfold get_pinned_repos. unfold bind at 1. unfold request.
    destruct (pinned_repos u (world (get_commit_email_from_repo u src w)))
      as [[pinned|] w2] eqn:Hpin; red_out.
    + rewrite scan_pinned_repos_eq.
      destruct (check_each_found u pinned w2) as (y & Hy & Hfound). rewrite Hy.
      destruct Hfound as [-> | (e & -> & He)]; [exact I | exact He].
    + eexists. rewrite Hpin. reflexivity.
Qed.

End Discovery.

(** C5 at a user who is a member of a repository older than their own: the
    first listing is requested with [type=all], so strategy 1 scans
    [acme/platform], which is not the user's own, and returns the email found
    there; over the user's own repositories the strategies find nothing. *)
Theorem discovery_scans_unowned_repository :
  let out := @Crawler.discover_commit_email unit member_service
               "dev" "up/stream" tt in
  Remote.q_type GitHubAPIClient.params = "all" /\
  Remote.result out = Remote.Val (Some "dev@acme.io") /\
  Remote.calls (Remote.log out) =
    [ Remote.GetUserRepos "dev" GitHubAPIClient.params;
      Remote.GetCommits "acme/platform" "dev";
      Remote.GetCommitDetail "acme/platform" "sha1" ] /\
  owned_by "dev" "acme/platform" = false /\
  Remote.result (@ordered_discovery unit member_service own_oldest
                   GitHubAPIClient.recent_params "dev" tt)
  = Remote.Val None.
Proof. repeat split; vm_compute; reflexivity. Qed.

(* --------------------------------------------------------------------- *)
(** ** The user profile *)
(* --------------------------------------------------------------------- *)

Section UserProfile.
Import Remote GitHubAPIClient.
Context {W : Type} `{Service W}.

(** C10, amended.  The blog value is prefixed with ["https://"] exactly when
    it is not empty and does not begin with the letters [http], and is left
    as it is exactly when it is empty or begins with [http]; an absent value
    stays absent.  [get_user_profile] returns the empty record on a response
    whose status is not 200, raising nothing, and on status 200 the record's
    blog is the cleaned blog of the response, the other fields being copied. *)
Theorem clean_blog_and_profile (username : string) (w : W) (s : string) :
  (Utils.clean_blog_url (Some s) = Some ("https://" +:+ s) <->
   s <> EmptyString /\ ~ (exists t, s = "http" +:+ t)) /\
  (Utils.clean_blog_url (Some s) = Some s <->
   s = EmptyString \/ exists t, s = "http" +:+ t) /\
  Utils.clean_blog_url None = None /\
  match (profile username w).1 with
  | Some (StatusOther _) => result (get_user_profile username w) = Val None
  | Some (Status200 data) =>
      exists p,
        result (get_user_profile username w) = Val (Some p) /\
        blog p = Utils.clean_blog_url (blog data) /\
        (email p, location p, name p, bio p, company p, twitter_username p) =
        (email data, location data, name data, bio data, company data,
         twitter_username data) /\
        (public_repos p, followers p, following p, created_at_ p, updated_at p) =
        (public_repos data, followers data, following data, created_at_ data,
         updated_at data)
  | None => result (get_user_profile username w) = Exc
  end.
Proof.
  split; [apply clean_blog_url_prefixed|].
  split; [apply clean_blog_url_unchanged|].
  split; [reflexivity|].
  unfold get_user_profile, bind, request.
  destruct (profile username w) as [[[data|code]|] w1]; cbn.
  - eexists. split; [reflexivity|]. cbn. repeat split.
  - reflexivity.
  - reflexivity.
Qed.

End UserProfile.

(* --------------------------------------------------------------------- *)
(** ** Repository URLs *)
(* --------------------------------------------------------------------- *)

Section RepoUrls.

#[local] Arguments Str.contains : simpl never.

Lemma all_chars_app p (a b : string) :
  Utils.all_chars p (a +:+ b) = Utils.all_chars p a && Utils.all_chars p b.
Proof. induction a as [|c a IH]; simpl; [reflexivity|]. rewrite IH. apply andb_assoc. Qed.

Lemma all_chars_impl (p q : ascii -> bool) (s : string) :
  (forall c, p c = true -> q c = true) ->
  Utils.all_chars p s = true -> Utils.all_chars q s = true.
Proof.
  intros Hpq. induction s as [|c s IH]; simpl; [reflexivity|].
  intros [Hc Hs]%andb_true_iff. rewrite (Hpq c Hc). now apply IH.
Qed.

Lemma cut_none (c : ascii) (s : string) :
  Utils.all_chars (fun a => negb (Ascii.eqb a c)) s = true -> Str.cut c s = None.
Proof.
  induction s as [|a s IH]; simpl; [reflexivity|].
  intros [Ha Hs]%andb_true_iff. apply negb_true_iff in Ha. rewrite Ha, (IH Hs). reflexivity.
Qed.

Lemma contains_char_none (c : ascii) (s : string) :
  Utils.all_chars (fun a => negb (Ascii.eqb a c)) s = true ->
  Str.contains (String c EmptyString) s = false.
Proof.
  induction s as [|a s IH]; [reflexivity|]. simpl Utils.all_chars.
  intros [Ha Hs]%andb_true_iff. apply negb_true_iff in Ha.
  rewrite contains_char_cons, (IH Hs), Ascii.eqb_sym, Ha. reflexivity.
Qed.

Lemma until_none (c : ascii) (s : string) :
  Utils.all_chars (fun a => negb (Ascii.eqb a c)) s = true -> Utils.until c s = s.
Proof. intros Hs. unfold Utils.until. now rewrite cut_none. Qed.

Lemma split_app (c : ascii) (a t : string) :
  Str.contains (String c EmptyString) a = false ->
  Str.split c (a +:+ String c t) = a :: Str.split c t.
Proof.
  induction a as [|x a IH]; intros Ha.
  - simpl. rewrite Ascii.eqb_refl. reflexivity.
  - rewrite contains_char_cons in Ha. apply orb_false_iff in Ha as [Hx Ha].
    simpl. rewrite Ascii.eqb_sym, Hx, (IH Ha). reflexivity.
Qed.

Lemma rstrip_keep (c : ascii) (a n : string) :
  Str.truthy n = true -> Str.contains (String c EmptyString) n = false ->
  Str.rstrip c (a +:+ n) = a +:+ n.
Proof.
  intros Hn Hc.
  assert (Str.rstrip c n = n) as Hbase.
  { clear a. induction n as [|x n IH]; [discriminate|].
    rewrite contains_char_cons in Hc. apply orb_false_iff in Hc as [Hx Hc].
    simpl. destruct n as [|y n].
    - simpl. rewrite Ascii.eqb_sym, Hx. reflexivity.
    - rewrite (IH eq_refl Hc). reflexivity. }
  induction a as [|x a IH]; [exact Hbase|].
  simpl. rewrite IH. destruct (a +:+ n) eqn:Han; [|reflexivity].
  destruct a; [|discriminate]. simpl in Han. subst n. discriminate.
Qed.

Lemma is_segment_spec (s : string) :
  is_segment s = true ->
  Str.truthy s = true /\
  Utils.all_chars (fun a => negb (Utils.is_unsafe_byte a)) s = true /\
  (forall c, In c ["/"; "?"; "#"; ";"]%char ->
             Utils.all_chars (fun a => negb (Ascii.eqb a c)) s = true).
Proof.
  unfold is_segment. intros [Ht Hs]%andb_true_iff. split; [assumption|].
  split.
  - eapply all_chars_impl; [|exact Hs].
    intros a Ha. unfold is_segment_char in Ha. apply negb_true_iff in Ha.
    repeat apply orb_false_iff in Ha as [Ha ?]. now apply negb_true_iff.
  - intros c Hc. eapply all_chars_impl; [|exact Hs].
    intros a Ha. unfold is_segment_char in Ha. apply negb_true_iff in Ha.
    repeat apply orb_false_iff in Ha as [Ha ?].
    cbn in Hc. destruct Hc as [<- | [<- | [<- | [<- | []]]]]; apply negb_true_iff;
      assumption.
Qed.

Lemma remove_none (p : ascii -> bool) (s : string) :
  Utils.all_chars (fun a => negb (p a)) s = true -> Str.remove p s = s.
Proof.
  induction s as [|a s IH]; simpl; [reflexivity|].
  intros [Ha Hs]%andb_true_iff. apply negb_true_iff in Ha. rewrite Ha, (IH Hs).
  reflexivity.
Qed.

(** [urlparse] on a URL of the host. *)
Lemma urlparse_github (opt_s r : string) :
  opt_s = EmptyString \/ opt_s = "s" ->
  Utils.urlparse ("http" +:+ opt_s +:+ "://github.com" +:+ String "/" r) =
  {| Utils.scheme := "http" +:+ opt_s;
     Utils.netloc := "github.com";
     Utils.path :=
       Utils.drop_params
         (Utils.until "?"
            (Utils.until "#" (String "/" (Str.remove Utils.is_unsafe_byte r)))) |}.
Proof. intros [-> | ->]; vm_compute; reflexivity. Qed.

(** [parse_repo_url] on a canonical repository URL. *)
Lemma parse_repo_url_canonical (opt_s owner name : string) :
  opt_s = EmptyString \/ opt_s = "s" ->
  is_segment owner = true -> is_segment name = true ->
  Utils.parse_repo_url (canonical_url opt_s owner name) = (Some owner, Some name).
Proof.
  intros Hs (Ho & Ho_safe & Hoc)%is_segment_spec (Hn & Hn_safe & Hnc)%is_segment_spec.
  assert (Str.remove Utils.is_unsafe_byte (owner +:+ String "/" name) =
          owner +:+ String "/" name) as Hsafe.
  { apply remove_none. rewrite all_chars_app. simpl. now rewrite Ho_safe, Hn_safe. }
  pose proof (Hoc "/"%char ltac:(cbn; tauto)) as Ho_slash.
  pose proof (Hoc "?"%char ltac:(cbn; tauto)) as Ho_query.
  pose proof (Hoc "#"%char ltac:(cbn; tauto)) as Ho_frag.
  pose proof (Hnc "/"%char ltac:(cbn; tauto)) as Hn_slash.
  pose proof (Hnc "?"%char ltac:(cbn; tauto)) as Hn_query.
  pose proof (Hnc "#"%char ltac:(cbn; tauto)) as Hn_frag.
  pose proof (Hnc ";"%char ltac:(cbn; tauto)) as Hn_semi.
  clear Hoc Hnc.
  set (rest := String "/" (owner +:+ String "/" name)).
  assert (Utils.until "?" (Utils.until "#" rest) = rest) as Huntil.
  { assert (forall c, c = "#"%char \/ c = "?"%char -> Utils.until c rest = rest) as Hc.
    { intros c Hc. apply until_none. unfold rest. simpl. rewrite all_chars_app. simpl.
      destruct Hc as [-> | ->]; rewrite ?Ho_query, ?Ho_frag, ?Hn_query, ?Hn_frag;
        reflexivity. }
    rewrite (Hc "#"%char) by tauto. apply Hc. tauto. }
  assert (Utils.drop_params rest = rest) as Hparams.
  { unfold Utils.drop_params.
    change rest with (String "/" owner +:+ String "/" name).
    rewrite last_part_unique by now apply contains_char_none.
    now rewrite cut_none. }
  assert (Str.strip "/" rest = owner +:+ String "/" name) as Hstrip.
  { unfold Str.strip, rest. destruct owner as [|a owner]; [discriminate|].
    simpl in Ho_slash. apply andb_true_iff in Ho_slash as [Ha _].
    apply negb_true_iff in Ha.
    cbn [Str.lstrip]. rewrite Ascii.eqb_refl. cbn [String.append Str.lstrip]. rewrite Ha.
    change (String a (owner +:+ String "/" name))
      with (String a owner +:+ "/" +:+ name).
    rewrite <- append_assoc.
    apply rstrip_keep; [assumption | now apply contains_char_none]. }
  assert (Str.split "/" (owner +:+ String "/" name) = [owner; name]) as Hsplit.
  { rewrite split_app by now apply contains_char_none.
    rewrite split_no_sep by now apply contains_char_none. reflexivity. }
  unfold Utils.parse_repo_url.
  change (canonical_url opt_s owner name)
    with ("http" +:+ opt_s +:+ "://github.com" +:+ rest).
  unfold rest in *. clear rest.
  rewrite urlparse_github by assumption. cbn [Utils.scheme Utils.netloc Utils.path].
  rewrite Hsafe, Huntil, Hparams, Hstrip, Hsplit.
  destruct Hs as [-> | ->]; reflexivity.
Qed.

(** X1.  [parse_repo_url] reads back the owner and the name of a canonical
    repository URL, for either scheme: the segments may hold any characters
    but the four that end a path or a segment ([/], [?], [#], [;]) and the
    three that the parser removes (tab, carriage return, line feed). *)
Theorem parse_repo_url_round_trip (owner name : string) :
  is_segment owner = true -> is_segment name = true ->
  Utils.parse_repo_url ("https://github.com/" +:+ owner +:+ "/" +:+ name)
    = (Some owner, Some name) /\
  Utils.parse_repo_url ("http://github.com/" +:+ owner +:+ "/" +:+ name)
    = (Some owner, Some name).
Proof.
  intros Ho Hn. split.
  - apply (parse_repo_url_canonical "s" owner name); [now right | assumption..].
  - apply (parse_repo_url_canonical EmptyString owner name); [now left | assumption..].
Qed.

Lemma is_repo_char_segment (c : ascii) :
  DataHandler.is_repo_char c = true -> is_segment_char c = true.
Proof.
  destruct c as [[] [] [] [] [] [] [] []]; vm_compute; congruence.
Qed.

Lemma span_spec (p : ascii -> bool) (s h t : string) :
  Str.span p s = (h, t) -> s = h +:+ t /\ Utils.all_chars p h = true.
Proof.
  revert h t. induction s as [|c s IH]; intros h t; simpl.
  - intros [= <- <-]. split; reflexivity.
  - destruct (p c) eqn:Hc; [|intros [= <- <-]; split; reflexivity].
    destruct (Str.span p s) as [h' t']. intros [= <- <-].
    destruct (IH h' t' eq_refl) as [-> Hh]. simpl. rewrite Hc, Hh. split; reflexivity.
Qed.

Lemma drop_prefix_spec (p s r : string) :
  Str.drop_prefix p s = Some r -> s = p +:+ r.
Proof.
  revert s. induction p as [|a p IH]; intros s; simpl.
  - intros [= ->]. reflexivity.
  - destruct s as [|b s]; [discriminate|].
    destruct (Ascii.eqb a b) eqn:Hab; [|discriminate].
    apply Ascii.eqb_eq in Hab as ->. intros Hr. now rewrite (IH s Hr).
Qed.

Lemma repo_segment (s : string) :
  Str.truthy s = true -> Utils.all_chars DataHandler.is_repo_char s = true ->
  is_segment s = true.
Proof.
  intros Ht Hs. unfold is_segment. rewrite Ht.
  apply (all_chars_impl _ _ _ is_repo_char_segment Hs).
Qed.

(** The shape of a match of the link pattern. *)
Lemma match_repo_url_shape (s m : string) :
  DataHandler.match_repo_url s = Some m ->
  exists opt_s owner name rest,
    (opt_s = EmptyString \/ opt_s = "s") /\
    is_segment owner = true /\ is_segment name = true /\
    m = canonical_url opt_s owner name /\ s = m +:+ rest.
Proof.
  unfold DataHandler.match_repo_url.
  destruct (Str.drop_prefix "http" s) as [r0|] eqn:H0; [|discriminate].
  apply drop_prefix_spec in H0 as ->.
  set (choice := match r0 with
                 | String "s" r => ("s", r)
                 | _ => (EmptyString, r0)
                 end).
  assert (r0 = choice.1 +:+ choice.2 /\ (choice.1 = EmptyString \/ choice.1 = "s"))
    as [Hr0 Hopt].
  { unfold choice. destruct r0 as [|c r0]; [split; [reflexivity | now left]|].
    destruct c as [[] [] [] [] [] [] [] []];
      first [split; [reflexivity | now right] | split; [reflexivity | now left]]. }
  destruct choice as [opt_s r1]. cbn [fst snd] in *. subst r0.
  destruct (Str.drop_prefix "://github.com/" r1) as [r2|] eqn:H1; [|discriminate].
  apply drop_prefix_spec in H1 as ->.
  destruct (Str.span DataHandler.is_repo_char r2) as [owner r3] eqn:H2.
  apply span_spec in H2 as [-> Howner].
  destruct owner as [|a owner]; [discriminate|].
  destruct r3 as [|c r4]; [discriminate|].
  destruct (Ascii.eqb c "/") eqn:Hc.
  2: { destruct c as [[] [] [] [] [] [] [] []]; try discriminate. }
  apply Ascii.eqb_eq in Hc as ->.
  destruct (Str.span DataHandler.is_repo_char r4) as [name r5] eqn:H3.
  apply span_spec in H3 as [-> Hname].
  destruct name as [|b name]; [discriminate|].
  intros [= <-].
  exists opt_s, (String a owner), (String b name), r5.
  split; [assumption|].
  split; [now apply repo_segment|]. split; [now apply repo_segment|].
  split; [reflexivity|]. unfold canonical_url.
  destruct Hopt as [-> | ->]; cbn; rewrite append_assoc; reflexivity.
Qed.

Lemma findall_from_shape (s : string) (skip : nat) (m : string) :
  m ∈ DataHandler.findall_from skip s ->
  occurs_in m s /\
  exists opt_s owner name,
    (opt_s = EmptyString \/ opt_s = "s") /\
    is_segment owner = true /\ is_segment name = true /\
    m = canonical_url opt_s owner name.
Proof.
  revert skip. induction s as [|c s IH]; intros skip; simpl; [intros Hin; inversion Hin|].
  assert (forall k, m ∈ DataHandler.findall_from k s ->
                    occurs_in m (String c s) /\
                    exists opt_s owner name,
                      (opt_s = EmptyString \/ opt_s = "s") /\
                      is_segment owner = true /\ is_segment name = true /\
                      m = canonical_url opt_s owner name) as Hrest.
  { intros k Hk. destruct (IH k Hk) as [(pre & post & ->) Hshape].
    split; [|exact Hshape]. exists (String c pre), post. reflexivity. }
  destruct skip as [|k]; [|apply Hrest].
  destruct (DataHandler.match_repo_url (String c s)) as [m'|] eqn:Hmatch; [|apply Hrest].
  intros Hin. apply elem_of_cons in Hin as [-> | Hin]; [|now apply (Hrest _ Hin)].
  apply match_repo_url_shape in Hmatch
    as (opt_s & owner & name & rest & Hopt & Ho & Hn & Hm & Hs).
  split; [exists EmptyString, rest; exact Hs|]. eauto 10.
Qed.

(** X3.  A link is returned for a README exactly when the link pattern
    finds it there and the [owner/name] that [parse_repo_url] reads from
    it, lower-cased, is not the text [owner/repo] of the seed; every match of
    the pattern occurs in the README and is a URL that [parse_repo_url]
    accepts. *)
Theorem readme_links_spec (readme owner repo url : string) :
  (url ∈ DataHandler.get_list_of_repo_urls_from_readme readme owner repo <->
   url ∈ DataHandler.findall_repo_urls readme /\
   exists o n, Utils.parse_repo_url url = (Some o, Some n) /\
               Str.lower (o +:+ "/" +:+ n) <> owner +:+ "/" +:+ repo) /\
  Forall (fun m => occurs_in m readme /\
                   exists o n, Utils.parse_repo_url m = (Some o, Some n))
         (DataHandler.findall_repo_urls readme).
Proof.
  assert (forall m, m ∈ DataHandler.findall_repo_urls readme ->
                    occurs_in m readme /\
                    exists o n, Utils.parse_repo_url m = (Some o, Some n)) as Hfound.
  { intros m Hm. apply findall_from_shape in Hm
      as [Hocc (opt_s & o & n & Hopt & Ho & Hn & ->)].
    split; [assumption|]. exists o, n. now apply parse_repo_url_canonical. }
  split; [|apply Forall_forall; exact Hfound].
  unfold DataHandler.get_list_of_repo_urls_from_readme.
  rewrite list_elem_of_filter. split.
  - intros [Hkeep Hin]. split; [assumption|].
    destruct (Hfound url Hin) as [_ (o & n & Hparse)]. exists o, n.
    split; [assumption|]. rewrite Hparse in Hkeep. simpl in Hkeep.
    apply Is_true_true, andb_true_iff in Hkeep as [_ Hne].
    now apply negb_true_iff, String.eqb_neq in Hne.
  - intros [Hin (o & n & Hparse & Hne)]. split; [|assumption].
    rewrite Hparse. simpl. apply Is_true_true, andb_true_iff. split.
    + destruct o; reflexivity.
    + now apply negb_true_iff, String.eqb_neq.
Qed.

Lemma split_two (c : ascii) (t a b : string) :
  Str.split c t = [a; b] ->
  t = a +:+ String c b /\
  Str.contains (String c EmptyString) a = false /\
  Str.contains (String c EmptyString) b = false.
Proof.
  revert a. induction t as [|x t IH]; intros a; simpl; [discriminate|].
  destruct (Ascii.eqb x c) eqn:Hx.
  - apply Ascii.eqb_eq in Hx as ->. intros [= <- Hb].
    apply split_singleton in Hb as [-> Hb].
    split; [reflexivity|]. split; [reflexivity | assumption].
  - destruct (Str.split c t) as [|h tl] eqn:Hsplit; [discriminate|].
    intros [= <- ->]. destruct (IH h eq_refl) as (-> & Hh & Hb).
    split; [reflexivity|]. split; [|assumption].
    rewrite contains_char_cons, Hh, Ascii.eqb_sym, Hx. reflexivity.
Qed.

Lemma lstrip_head (c : ascii) (s : string) (a : ascii) (r : string) :
  Str.lstrip c s = String a r -> Ascii.eqb a c = false.
Proof.
  induction s as [|x s IH]; simpl; [discriminate|].
  destruct (Ascii.eqb x c) eqn:Hx; [exact IH|]. intros [= <- _]. exact Hx.
Qed.

Lemma rstrip_head (c : ascii) (s : string) (a : ascii) (r : string) :
  Str.rstrip c s = String a r -> exists r', s = String a r'.
Proof.
  destruct s as [|x s]; simpl; [discriminate|].
  destruct (Str.rstrip c s); [destruct (Ascii.eqb x c); [discriminate|]|];
    intros [= <- _]; eauto.
Qed.

Lemma rstrip_no_trailing (c : ascii) (s a : string) :
  Str.rstrip c s <> a +:+ String c EmptyString.
Proof.
  revert a. induction s as [|x s IH]; intros a; simpl.
  - destruct a; discriminate.
  - destruct (Str.rstrip c s) as [|y r] eqn:Hr.
    + destruct (Ascii.eqb x c) eqn:Hx; [destruct a; discriminate|].
      destruct a as [|a0 a]; simpl.
      * intros Heq. assert (x = c) as -> by congruence.
        rewrite Ascii.eqb_refl in Hx; discriminate.
      * intros Heq. assert (EmptyString = a +:+ String c EmptyString) as Ha by congruence.
        destruct a; discriminate.
    + destruct a as [|a0 a]; simpl.
      * intros Heq. congruence.
      * intros Heq. apply (IH a). congruence.
Qed.

(** The two parts that [parse_repo_url] takes from a stripped path are not
    empty. *)
Lemma strip_split_two (c : ascii) (p a b : string) :
  Str.split c (Str.strip c p) = [a; b] ->
  Str.truthy a = true /\ Str.truthy b = true /\
  Str.contains (String c EmptyString) a = false /\
  Str.contains (String c EmptyString) b = false.
Proof.
  intros Hsplit. apply split_two in Hsplit as (Hstrip & Ha & Hb).
  split; [|split; [|split; assumption]].
  - destruct a; [|reflexivity]. exfalso. simpl in Hstrip. unfold Str.strip in Hstrip.
    destruct (rstrip_head _ _ _ _ Hstrip) as [r' Hl].
    apply lstrip_head in Hl. rewrite Ascii.eqb_refl in Hl. discriminate.
  - destruct b; [|reflexivity]. exfalso.
    exact (rstrip_no_trailing _ _ _ Hstrip).
Qed.

Lemma urlparse_agree (url : string) :
  String.eqb (Utils.scheme (Utils.urlparse url)) "http" ||
  String.eqb (Utils.scheme (Utils.urlparse url)) "https" = true ->
  UtilsMore.urlparse url = Utils.urlparse url.
Proof.
  unfold UtilsMore.urlparse, Utils.urlparse.
  destruct (Utils.split_scheme (Utils.sanitize url)) as [sch rest].
  destruct (match Str.drop_prefix "//" rest with
            | Some r => Str.span (fun c => negb (Utils.is_netloc_end c)) r
            | None => (EmptyString, rest)
            end) as [loc rest'].
  cbn [Utils.scheme]. intros Hsch. rewrite Hsch.
  apply orb_true_iff in Hsch as [Hs | Hs]; apply String.eqb_eq in Hs as ->; reflexivity.
Qed.

(** X2.  A URL that [parse_repo_url] accepts yields an owner and a name that
    are not empty and hold no [/], and passes [is_valid_github_url]. *)
Theorem parse_repo_url_accepts (url owner name : string) :
  Utils.parse_repo_url url = (Some owner, Some name) ->
  Str.truthy owner = true /\ Str.truthy name = true /\
  Str.contains "/" owner = false /\ Str.contains "/" name = false /\
  UtilsMore.is_valid_github_url url = true.
Proof.
  intros Hparse.
  assert (Str.truthy url = true) as Htruthy.
  { destruct url; [discriminate | reflexivity]. }
  assert (String.eqb url "nan" = false) as Hnan.
  { destruct (String.eqb url "nan") eqn:Heq; [|reflexivity].
    apply String.eqb_eq in Heq as ->. discriminate. }
  unfold UtilsMore.is_valid_github_url. rewrite Htruthy, Hnan. cbn [negb orb].
  unfold Utils.parse_repo_url in Hparse.
  destruct (String.eqb (Utils.scheme (Utils.urlparse url)) "http" ||
            String.eqb (Utils.scheme (Utils.urlparse url)) "https") eqn:Hscheme;
    [|discriminate].
  rewrite (urlparse_agree url Hscheme). cbn [negb] in Hparse.
  destruct (String.eqb (Utils.netloc (Utils.urlparse url)) "github.com");
    [|discriminate].
  cbn [negb] in *.
  destruct (Str.split "/" (Str.strip "/" (Utils.path (Utils.urlparse url))))
    as [|p0 [|p1 [|p2 parts]]] eqn:Hsplit; try discriminate.
  injection Hparse as -> ->.
  destruct (strip_split_two _ _ _ _ Hsplit) as (Ho & Hn & Hoc & Hnc).
  rewrite Ho, Hn. repeat split; assumption.
Qed.

End RepoUrls.

Lemma parse_repo_url_round_trip_witness :
  Utils.parse_repo_url ("https://github.com/" +:+ "fffaraz" +:+ "/" +:+ "awesome-cpp")
    = (Some "fffaraz", Some "awesome-cpp") /\
  Utils.parse_repo_url ("http://github.com/" +:+ "fffaraz" +:+ "/" +:+ "awesome-cpp")
    = (Some "fffaraz", Some "awesome-cpp").
Proof. apply parse_repo_url_round_trip; reflexivity. Defined.

Lemma parse_repo_url_accepts_witness :
  Str.truthy "Foo" = true /\ Str.truthy "Bar" = true /\
  Str.contains "/" "Foo" = false /\ Str.contains "/" "Bar" = false /\
  UtilsMore.is_valid_github_url "https://github.com/Foo/Bar?tab=readme#top" = true.
Proof.
  apply (parse_repo_url_accepts "https://github.com/Foo/Bar?tab=readme#top" "Foo" "Bar").
  reflexivity.
Defined.

(** The converse fails: the sheet filter lets through URLs that
    [parse_repo_url] rejects. *)
Example is_valid_github_url_wider :
  UtilsMore.is_valid_github_url "https://github.com/acme/platform/issues" = true /\
  Utils.parse_repo_url "https://github.com/acme/platform/issues" = (None, None) /\
  UtilsMore.is_valid_github_url "//github.com/acme/platform" = true /\
  Utils.parse_repo_url "//github.com/acme/platform" = (None, None).
Proof. repeat split; reflexivity. Qed.

(* --------------------------------------------------------------------- *)
(** ** The sheet of repository URLs *)
(* --------------------------------------------------------------------- *)

Section SheetFacts.

#[local] Arguments Str.contains : simpl never.

Lemma flat_map_rows (column : list string) (a k : nat) :
  (a + k <= length column)%nat ->
  flat_map
    (fun idx =>
       if (idx <? Z.of_nat (length column))%Z then
         if UtilsMore.is_valid_github_url (nth (Z.to_nat idx) column EmptyString)
         then [nth (Z.to_nat idx) column EmptyString] else []
       else [])
    (map (fun i => (Z.of_nat a + Z.of_nat i)%Z) (seq 0 k)) =
  List.filter UtilsMore.is_valid_github_url (take k (drop a column)).
Proof.
  revert a. induction k as [|k IH]; intros a Hlen; [reflexivity|].
  cbn [seq map flat_map]. rewrite <- seq_shift, map_map.
  assert (a < length column)%nat as Ha by lia.
  destruct (lookup_lt_is_Some_2 column a Ha) as [x Hx].
  rewrite (drop_S _ _ _ Hx). cbn [take List.filter].
  replace (Z.of_nat a + Z.of_nat 0)%Z with (Z.of_nat a) by lia.
  rewrite Nat2Z.id, (nth_lookup_Some _ _ EmptyString _ Hx).
  assert ((Z.of_nat a <? Z.of_nat (length column))%Z = true) as -> by (apply Z.ltb_lt; lia).
  assert (map (fun i => (Z.of_nat a + Z.of_nat (S i))%Z) (seq 0 k) =
          map (fun i => (Z.of_nat (S a) + Z.of_nat i)%Z) (seq 0 k)) as ->.
  { apply map_ext. intros i. lia. }
  rewrite (IH (S a)) by lia.
  destruct (UtilsMore.is_valid_github_url x); reflexivity.
Qed.

(** X4.  The rows taken from a sheet are the valid URLs among the rows
    [start_row], ..., [end_row] of its first column, counted from 1, in
    their order: a [start_row] below 1 counts as 1, an [end_row] past the
    last row as the last row, and an empty range gives nothing. *)
Theorem extract_repos_from_rows_spec (column : list string) (start_row end_row : Z) :
  DataHandlerMore.extract_repos_from_rows column start_row end_row =
  List.filter UtilsMore.is_valid_github_url
    (rows_between (Z.to_nat (Z.max 1 start_row)) (Z.to_nat end_row) column).
Proof.
  unfold DataHandlerMore.extract_repos_from_rows, DataHandlerMore.range, rows_between.
  set (len := length column).
  set (a := Z.to_nat (Z.max 0 (start_row - 1))).
  set (k := Z.to_nat (Z.min (Z.of_nat len) end_row - Z.max 0 (start_row - 1))).
  replace (Z.to_nat (Z.max 1 start_row) - 1)%nat with a by (unfold a; lia).
  cbv zeta. fold len.
  change (Z.to_nat (Z.min (Z.of_nat len) end_row - Z.max 0 (start_row - 1))) with k.
  assert (map (fun i => (Z.max 0 (start_row - 1) + Z.of_nat i)%Z) (seq 0 k) =
          map (fun i => (Z.of_nat a + Z.of_nat i)%Z) (seq 0 k)) as ->.
  { apply map_ext. intros i. unfold a. lia. }
  destruct (Nat.le_gt_cases k 0) as [Hzero | Hpos].
  - assert (S (Z.to_nat end_row) - Z.to_nat (Z.max 1 start_row) = 0 \/
            length column <= a)%nat as Hcases by (unfold k, a, len in *; lia).
    assert (k = 0%nat) as Hk by lia. rewrite Hk. cbn [seq map flat_map].
    destruct Hcases as [-> | Hshort]; [reflexivity|].
    rewrite drop_ge by exact Hshort. rewrite take_nil. reflexivity.
  - assert (a + k <= len)%nat as Hfit by (unfold k, a in *; lia).
    unfold len in *.
    rewrite (flat_map_rows column a k Hfit). f_equal.
    destruct (Z.le_gt_cases end_row (Z.of_nat len)) as [Hin | Hout].
    + f_equal. unfold k, a in *. lia.
    + assert (k = length column - a)%nat as Hk by (unfold k, a in *; lia). rewrite Hk.
      rewrite !take_ge; [reflexivity|..]; rewrite length_drop; unfold a in *; lia.
Qed.

Lemma occurs_in_cons (p : string) (c : ascii) (s : string) :
  occurs_in p s -> occurs_in p (String c s).
Proof. intros (pre & post & ->). exists (String c pre), post. reflexivity. Qed.

Lemma occurs_in_prefix (p q s : string) : occurs_in p ((p +:+ q) +:+ s).
Proof. exists EmptyString, (q +:+ s). simpl. now rewrite append_assoc. Qed.

Lemma contains_drop_cons (p : string) (c : ascii) (s : string) :
  Str.startswith p (String c s) = false ->
  Str.contains p (String c s) = true -> Str.contains p (Str.drop 0 s) = true.
Proof. intros Hs. rewrite contains_unfold, Hs. exact id. Qed.

(** Where [old] occurs past the characters still to be skipped, the
    replacement occurs in the result. *)
Lemma replace_from_occurs (old new s : string) (skip : nat) :
  Str.truthy old = true ->
  Str.contains old (Str.drop skip s) = true ->
  occurs_in new (Str.replace_from skip old new s).
Proof.
  intros Hold. revert skip. induction s as [|c s IH]; intros skip Hocc.
  - destruct skip; cbn [Str.drop] in Hocc; rewrite contains_nil in Hocc by assumption;
      discriminate.
  - destruct skip as [|k]; cbn [Str.replace_from Str.drop] in *.
    + destruct (Str.startswith old (String c s)) eqn:Hstart.
      * exists EmptyString, (Str.replace_from (String.length old - 1) old new s).
        reflexivity.
      * apply occurs_in_cons, IH. now apply (contains_drop_cons old c s).
    + apply IH, Hocc.
Qed.

Lemma sub_edit_gid_no_match (s : string) :
  Str.contains "/edit?gid=" s = false -> Str.contains "/edit#gid=" s = false ->
  DataHandlerMore.sub_edit_gid_from 0 s = s.
Proof.
  induction s as [|c s IH]; [reflexivity|].
  rewrite (contains_unfold _ (String c s)), (contains_unfold "/edit#gid=" (String c s)).
  intros [Hs1 Hc1]%orb_false_iff [Hs2 Hc2]%orb_false_iff.
  cbn [DataHandlerMore.sub_edit_gid_from]. rewrite Hs1, Hs2. cbn [orb].
  now rewrite IH.
Qed.

Lemma length_sub_edit_gid_ge (s : string) (skip : nat) :
  (String.length s <= String.length (DataHandlerMore.sub_edit_gid_from skip s) + skip)%nat.
Proof.
  revert skip. induction s as [|c s IH]; intros skip; [simpl; lia|].
  destruct skip as [|k]; cbn [DataHandlerMore.sub_edit_gid_from].
  - destruct (Str.startswith "/edit?gid=" (String c s) ||
              Str.startswith "/edit#gid=" (String c s)).
    + rewrite length_append. specialize (IH 9%nat). simpl String.length in *. lia.
    + specialize (IH 0%nat). simpl String.length in *. lia.
  - specialize (IH k). simpl String.length. lia.
Qed.

Lemma sub_edit_gid_match (s : string) (skip : nat) :
  Str.contains "/edit?gid=" (Str.drop skip s) ||
  Str.contains "/edit#gid=" (Str.drop skip s) = true ->
  occurs_in "/export?format=csv" (DataHandlerMore.sub_edit_gid_from skip s) /\
  (String.length s < String.length (DataHandlerMore.sub_edit_gid_from skip s) + skip)%nat.
Proof.
  revert skip. induction s as [|c s IH]; intros skip Hocc.
  - destruct skip; cbn in Hocc; discriminate.
  - destruct skip as [|k]; cbn [DataHandlerMore.sub_edit_gid_from Str.drop] in *.
    + destruct (Str.startswith "/edit?gid=" (String c s)) eqn:Hs1;
        [|destruct (Str.startswith "/edit#gid=" (String c s)) eqn:Hs2]; cbn [orb].
      * split; [apply (occurs_in_prefix "/export?format=csv" "&gid=")|].
        rewrite length_append. pose proof (length_sub_edit_gid_ge s 9).
        simpl String.length in *. lia.
      * split; [apply (occurs_in_prefix "/export?format=csv" "&gid=")|].
        rewrite length_append. pose proof (length_sub_edit_gid_ge s 9).
        simpl String.length in *. lia.
      * rewrite (contains_unfold _ (String c s)),
          (contains_unfold "/edit#gid=" (String c s)), Hs1, Hs2 in Hocc.
        cbn [orb] in Hocc. destruct (IH 0%nat Hocc) as [Hin Hlen].
        split; [now apply occurs_in_cons|]. simpl String.length. lia.
    + destruct (IH k Hocc) as [Hin Hlen]. split; [assumption|].
      simpl String.length. lia.
Qed.

(** X5.  The export URL computed for a sheet URL holds the text
    [/export?format=csv] and differs from the sheet URL, except for a sheet
    URL that holds [/edit] and one of [?gid=], [#gid=] but neither directly
    after [/edit]: that URL is used as it is. *)
Theorem csv_export_url_spec (sheet_url : string) :
  if Str.contains "/edit" sheet_url &&
     (Str.contains "?gid=" sheet_url || Str.contains "#gid=" sheet_url) &&
     negb (Str.contains "/edit?gid=" sheet_url || Str.contains "/edit#gid=" sheet_url)
  then DataHandlerMore.csv_export_url sheet_url = sheet_url
  else
    Str.contains "/export?format=csv" (DataHandlerMore.csv_export_url sheet_url) = true /\
    DataHandlerMore.csv_export_url sheet_url <> sheet_url.
Proof.
  unfold DataHandlerMore.csv_export_url.
  destruct (Str.contains "/edit" sheet_url) eqn:Hedit; cbn [andb].
  - destruct (Str.contains "?gid=" sheet_url || Str.contains "#gid=" sheet_url) eqn:Hgid;
      cbn [andb].
    + destruct (Str.contains "/edit?gid=" sheet_url || Str.contains "/edit#gid=" sheet_url)
        eqn:Hmatch; cbn [negb].
      * destruct (sub_edit_gid_match sheet_url 0 Hmatch) as [Hin Hlen].
        split; [now apply contains_spec|]. intros Heq. rewrite Heq in Hlen. lia.
      * apply orb_false_iff in Hmatch as [H1 H2]. now apply sub_edit_gid_no_match.
    + split.
      * apply contains_spec. unfold Str.replace. now apply replace_from_occurs.
      * apply replace_occurrence; [simpl; lia | reflexivity | assumption].
  - split.
    + apply contains_spec. exists sheet_url, EmptyString. now rewrite append_nil_r.
    + intros Heq. apply (f_equal String.length) in Heq. rewrite length_append in Heq.
      simpl in Heq. lia.
Qed.

(** X6.  [is_rate_limit_exceeded] answers [True] exactly for a response
    with status 403 whose JSON body is an object with a message that holds
    the phrase in Python's sense of [in]: a text in which the phrase occurs,
    an array one of whose elements is the phrase, or an object one of whose
    keys is the phrase.  It raises on a value that is not a response, and on
    a response with status 403 whose body is JSON of another kind or has a
    message that is no container. *)
Theorem is_rate_limit_exceeded_spec (value : UtilsMore.PyValue) :
  (UtilsMore.is_rate_limit_exceeded value = Some true <->
   exists r,
     value = UtilsMore.PyResponse r /\ UtilsMore.status_code r = 403%nat /\
     ((exists text,
          UtilsMore.json r = UtilsMore.JsonObject (UtilsMore.TextMessage text) /\
          occurs_in "API rate limit exceeded" text) \/
      (exists items,
          UtilsMore.json r = UtilsMore.JsonObject (UtilsMore.ArrayMessage items) /\
          Some "API rate limit exceeded" ∈ items) \/
      (exists keys,
          UtilsMore.json r = UtilsMore.JsonObject (UtilsMore.ObjectMessage keys) /\
          "API rate limit exceeded" ∈ keys))) /\
  (UtilsMore.is_rate_limit_exceeded value = None <->
   (forall r, value <> UtilsMore.PyResponse r) \/
   exists r,
     value = UtilsMore.PyResponse r /\ UtilsMore.status_code r = 403%nat /\
     (UtilsMore.json r = UtilsMore.JsonOther \/
      UtilsMore.json r = UtilsMore.JsonObject UtilsMore.OtherMessage)).
Proof.
  assert (forall items,
    existsb (UtilsMore.is_text "API rate limit exceeded") items = true <->
    Some "API rate limit exceeded" ∈ items) as Hitems.
  { intros items. rewrite existsb_exists. split.
    - intros ([text|] & Hin & Heq); [|discriminate].
      apply String.eqb_eq in Heq as <-. now apply list_elem_of_In.
    - intros Hin. exists (Some "API rate limit exceeded").
      split; [now apply list_elem_of_In | reflexivity]. }
  assert (forall keys,
    existsb (String.eqb "API rate limit exceeded") keys = true <->
    "API rate limit exceeded" ∈ keys) as Hkeys.
  { intros keys. rewrite existsb_exists. split.
    - intros (key & Hin & Heq). apply String.eqb_eq in Heq as <-.
      now apply list_elem_of_In.
    - intros Hin. exists "API rate limit exceeded".
      split; [now apply list_elem_of_In | reflexivity]. }
  destruct value as [|s|[code body]]; cbn [UtilsMore.is_rate_limit_exceeded].
  - split; split; try discriminate.
    + intros (r & Hr & _). discriminate.
    + intros _. left. discriminate.
    + reflexivity.
  - split; split; try discriminate.
    + intros (r & Hr & _). discriminate.
    + intros _. left. discriminate.
    + reflexivity.
  - cbn [UtilsMore.status_code UtilsMore.json].
    destruct (Nat.eqb code 403) eqn:Hcode.
    2: { apply Nat.eqb_neq in Hcode. split; split; try discriminate.
         - intros (r & [= <-] & Hc & _). contradiction.
         - intros [Hno | (r & [= <-] & Hc & _)];
             [exfalso; eapply Hno; reflexivity | contradiction]. }
    apply Nat.eqb_eq in Hcode as ->. split.
    + (* the answer [True] *)
      split.
      * intros Htrue. eexists. split; [reflexivity|]. split; [reflexivity|].
        cbn [UtilsMore.json].
        destruct body as [|[|text|items|keys|]|]; try discriminate.
        -- left. exists text. split; [reflexivity|].
           apply contains_spec. now injection Htrue.
        -- right. left. exists items. split; [reflexivity|].
           apply Hitems. now injection Htrue.
        -- right. right. exists keys. split; [reflexivity|].
           apply Hkeys. now injection Htrue.
      * intros (r & [= <-] & _ & Hbody). cbn [UtilsMore.json] in Hbody.
        destruct Hbody as [(text & -> & Hocc) | [(items & -> & Hin) | (keys & -> & Hin)]];
          f_equal.
        -- now apply contains_spec.
        -- now apply Hitems.
        -- now apply Hkeys.
    + (* the exception *)
      split.
      * intros Hnone. right. eexists. split; [reflexivity|]. split; [reflexivity|].
        cbn [UtilsMore.json].
        destruct body as [|[|text|items|keys|]|]; try discriminate;
          [now right | now left].
      * intros [Hno | (r & [= <-] & _ & [Hj | Hj])];
          [exfalso; eapply Hno; reflexivity | ..];
          cbn [UtilsMore.json] in Hj; rewrite Hj; reflexivity.
Qed.

End SheetFacts.

(* --------------------------------------------------------------------- *)
(** ** Further properties of the result store *)
(* --------------------------------------------------------------------- *)

Section StoreMore.
Import DataHandler.

Implicit Types (df : list Contributor) (fs : FileSystem).

Lemma drop_duplicates_from_length seen df :
  (length (drop_duplicates_from seen df) <= length df)%nat.
Proof.
  revert seen. induction df as [|a df IH]; intros seen; simpl; [lia|].
  destruct (decide (username a ∈ seen)); simpl; [specialize (IH seen) | specialize (IH ({[username a]} ∪ seen))]; lia.
Qed.

Lemma List_filter_length {A} (f : A -> bool) (l : list A) :
  (length (List.filter f l) <= length l)%nat.
Proof. induction l as [|a l IH]; simpl; [lia|]. destruct (f a); simpl; lia. Qed.





(** The rows that survive step 4, and the exclusion set they are tested
    against. *)
Lemma merge_new_df contributors filename check_directory fs :
  new_df (merge contributors filename check_directory fs) =
  List.filter
    (fun r => negb (isin ((scan_directory check_directory filename fs).1 ∪
                           (load_existing filename fs).2) r))
    (drop_duplicates contributors).
Proof.
  unfold merge.
  destruct (scan_directory check_directory filename fs) as [others n].
  destruct (load_existing filename fs) as [existing current]. simpl.
  apply step4_filter.
Qed.

Lemma merge_combined_new contributors filename check_directory fs :
  combined_df (merge contributors filename check_directory fs) =
  drop_duplicates ((load_existing filename fs).1 ++
                   new_df (merge contributors filename check_directory fs)).
Proof. rewrite merge_combined_df, merge_new_df. reflexivity. Qed.

Lemma save_to_excel_rows fs now c cs filename check_directory :
  exists added,
    sheet_at filename
      (save_to_excel now WriteOk (c :: cs) filename check_directory fs) =
    Some (drop_duplicates (load_existing filename fs).1 ++ added) /\
    forall r, r ∈ added ->
              r ∈ c :: cs /\
              username r ∉ usernames (load_existing filename fs).1 /\
              forall u, username r = Some u ->
                        u ∉ (scan_directory check_directory filename fs).1.
Proof.
  rewrite save_to_excel_target, merge_combined_new.
  unfold drop_duplicates at 1. rewrite drop_duplicates_from_app.
  eexists. split; [reflexivity|]. intros r Hr.
  apply drop_duplicates_from_elem in Hr as [Hr Hseen].
  rewrite merge_new_df in Hr. apply elem_of_List_filter in Hr as [Hr Hnot].
  apply drop_duplicates_from_elem in Hr as [Hr _]. apply negb_true_iff in Hnot.
  split; [exact Hr|]. split.
  - intros Hin. apply Hseen, elem_of_union_r, elem_of_key_set, Hin.
  - intros u Hu Hin.
    assert (isin ((scan_directory check_directory filename fs).1 ∪
                  (load_existing filename fs).2) r = true) as Hyes.
    { apply isin_true. exists u. split; [assumption | set_solver]. }
    congruence.
Qed.


(** X22.  The counts of the ['Progress Log'] add up: the batch is what was
    removed as internal duplicates, plus what was removed as already known,
    plus what was added; and the total is at most the rows the target had
    plus the rows added. *)
Theorem progress_log_accounts contributors filename check_directory fs now :
  let m := merge contributors filename check_directory fs in
  let p := progress_log (workbook_of now check_directory m) in
  length contributors =
    (duplicates_removed_internal p + duplicates_removed_external p +
     new_contributors_added p)%nat /\
  (total_contributors p <=
     length (load_existing filename fs).1 + new_contributors_added p)%nat /\
  (contributors_with_email p <= total_contributors p)%nat.
Proof.
  cbv zeta. unfold workbook_of. cbn [progress_log duplicates_removed_internal
    duplicates_removed_external new_contributors_added total_contributors
    contributors_with_email].
  assert (removed_internal (merge contributors filename check_directory fs) =
          length contributors - length (drop_duplicates contributors))%nat as Hint.
  { unfold merge.
    destruct (scan_directory check_directory filename fs) as [others n].
    destruct (load_existing filename fs) as [existing current]. reflexivity. }
  assert (removed_external (merge contributors filename check_directory fs) =
          length (drop_duplicates contributors) -
          length (new_df (merge contributors filename check_directory fs)))%nat as Hext.
  { unfold merge.
    destruct (scan_directory check_directory filename fs) as [others n].
    destruct (load_existing filename fs) as [existing current]. reflexivity. }
  rewrite Hint, Hext.
  pose proof (drop_duplicates_from_length ∅ contributors) as H1.
  fold (drop_duplicates contributors) in H1.
  assert (length (new_df (merge contributors filename check_directory fs)) <=
          length (drop_duplicates contributors))%nat as H2.
  { rewrite merge_new_df. apply List_filter_length. }
  split; [lia|]. split.
  - rewrite merge_combined_new.
    pose proof (drop_duplicates_from_length ∅
                  ((load_existing filename fs).1 ++
                   new_df (merge contributors filename check_directory fs))) as H3.
    unfold drop_duplicates. rewrite length_app in H3. exact H3.
  - apply List_filter_length.
Qed.




End StoreMore.

(* --------------------------------------------------------------------- *)
(** ** Further properties of the blog URL *)
(* --------------------------------------------------------------------- *)

Section BlogMore.

(** X7.  Cleaning a blog value twice is cleaning it once, and a cleaned
    value is absent, empty, or begins with [http]. *)
Theorem clean_blog_url_idempotent (blog_url : option string) :
  Utils.clean_blog_url (Utils.clean_blog_url blog_url) = Utils.clean_blog_url blog_url /\
  match Utils.clean_blog_url blog_url with
  | Some s => s = EmptyString \/ exists t, s = "http" +:+ t
  | None => blog_url = None
  end.
Proof.
  destruct blog_url as [s|]; [|split; reflexivity].
  assert (exists s', Utils.clean_blog_url (Some s) = Some s' /\
                     (s' = EmptyString \/ exists t, s' = "http" +:+ t))
    as (s' & Heq & Hs').
  { unfold Utils.clean_blog_url.
    destruct (Str.truthy s && negb (Str.startswith "http" s)) eqn:Hc;
      eexists; (split; [reflexivity|]).
    - right. exists ("s://" +:+ s). reflexivity.
    - apply andb_false_iff in Hc as [Ht | Hh].
      + left. destruct s; [reflexivity | discriminate].
      + right. apply negb_false_iff in Hh. now apply startswith_spec. }
  rewrite Heq. split; [now apply clean_blog_url_unchanged | exact Hs'].
Qed.

End BlogMore.

Section StoreFrame.
Import DataHandler.

Lemma scan_directory_set_unscanned check_directory filename path c fs :
  scanned check_directory path = false ->
  scan_directory check_directory filename (set_file path c fs) =
  scan_directory check_directory filename fs.
Proof.
  unfold scanned, scan_directory, excel_files, set_file. simpl.
  destruct check_directory as [d|]; [|reflexivity].
  destruct (Str.truthy d); [|reflexivity]. cbn [andb]. intros Hscan.
  case_bool_decide; [|reflexivity].
  assert (forall y : FileContent,
             ~ Is_true (in_directory d (path, y).1 &&
                        is_excel_name (path, y).1 &&
                        negb (String.eqb (path, y).1 filename))) as Hnot.
  { intros y. simpl. rewrite Hscan. exact id. }
  destruct c as [c|].
  - rewrite map_filter_insert_not by exact Hnot. reflexivity.
  - rewrite map_filter_delete_not; [reflexivity|]. intros y _. apply Hnot.
Qed.

Lemma load_existing_set_other filename path c fs :
  path <> filename ->
  load_existing filename (set_file path c fs) = load_existing filename fs.
Proof.
  intros Hne. unfold load_existing, set_file. simpl.
  destruct c as [c|]; [rewrite lookup_insert_ne | rewrite lookup_delete_ne];
    first [reflexivity | assumption].
Qed.

(** X25.  What [save_to_excel] computes does not depend on a file that is
    neither the target, nor the check directory itself, nor an Excel
    workbook of the check directory: writing or deleting such a file
    beforehand changes nothing of the merge.  The paths are absolute and in
    normal form, so that different texts name different files and the
    entries of the directory are the paths one name below it. *)
Theorem merge_ignores_unscanned_files
    contributors filename check_directory path c fs :
  is_normal_path filename = true -> is_normal_path path = true ->
  apart_from check_directory path = true ->
  path <> filename -> scanned check_directory path = false ->
  merge contributors filename check_directory (set_file path c fs) =
  merge contributors filename check_directory fs.
Proof.
  intros _ _ _ Hne Hscan. unfold merge.
  rewrite (scan_directory_set_unscanned _ _ _ _ _ Hscan),
    (load_existing_set_other _ _ _ _ Hne).
  reflexivity.
Qed.

Lemma merge_ignores_unscanned_files_witness :
  merge [sample_row "dave" "o/r2"] "/data/results.xlsx" (Some "/data")
        (set_file "/data/notes.txt" (Some Unreadable) archive_fs) =
  merge [sample_row "dave" "o/r2"] "/data/results.xlsx" (Some "/data") archive_fs.
Proof.
  apply merge_ignores_unscanned_files.
  - reflexivity.
  - reflexivity.
  - reflexivity.
  - discriminate.
  - reflexivity.
Defined.

End StoreFrame.

(* --------------------------------------------------------------------- *)
(** ** Further properties of the client *)
(* --------------------------------------------------------------------- *)

Section Paging.

Lemma nth_nil_drop {A} (l : list (list A)) (i : nat) :
  Forall (fun p => p <> []) l -> nth i l [] = [] -> drop i l = [].
Proof.
  intros Hl Hnth. apply drop_ge.
  destruct (Nat.le_gt_cases (length l) i) as [|Hlt]; [assumption|].
  exfalso. rewrite Forall_forall in Hl. apply (Hl (nth i l [])); [|assumption].
  apply list_elem_of_In, nth_In, Hlt.
Qed.

Lemma nth_cons_drop {A} (l : list (list A)) (i : nat) x xs :
  nth i l [] = x :: xs -> drop i l = (x :: xs) :: drop (S i) l.
Proof.
  intros Hnth. destruct (Nat.le_gt_cases (length l) i) as [Hge|Hlt].
  - rewrite nth_overflow in Hnth by assumption. discriminate.
  - destruct (lookup_lt_is_Some_2 l i Hlt) as [y Hy].
    rewrite (nth_lookup_Some _ _ [] _ Hy) in Hnth. subst y. now apply drop_S.
Qed.

End Paging.

Section ClientMore.
Import Remote GitHubAPIClient Crawler.
Context {W : Type} `{Service W}.

Lemma get_repo_contributors_from_spec owner repo pages fuel k acc (w : W) :
  serves_listing owner repo pages ->
  Forall (fun p => p <> []) pages ->
  (length (drop k pages) < fuel)%nat ->
  result (get_repo_contributors_from fuel owner repo (S k) acc w) =
    Val (acc ++ concat (drop k pages)) /\
  calls (log (get_repo_contributors_from fuel owner repo (S k) acc w)) =
    map (GetContributors owner repo) (seq (S k) (S (length (drop k pages)))).
Proof.
  intros Hserves Hpages. revert k acc w.
  induction fuel as [|fuel IH]; intros k acc w Hlt; [lia|].
  cbn [get_repo_contributors_from]. unfold bind, request.
  pose proof (Hserves (S k) w) as Hpage.
  destruct (contributors_page owner repo (S k) w) as [answer w1].
  cbn [fst] in Hpage. subst answer. cbn [result world log].
  replace (S k - 1)%nat with k by lia.
  destruct (nth k pages []) as [|c cs] eqn:Hnth.
  - rewrite (nth_nil_drop pages k Hpages Hnth). cbn. rewrite app_nil_r. split; reflexivity.
  - rewrite (nth_cons_drop pages k c cs Hnth) in *. cbn [length] in Hlt.
    destruct (IH (S k) (acc ++ c :: cs) w1) as [Hres Hlog]; [lia|].
    cbn [result world log]. rewrite Hres. split.
    + rewrite concat_cons, app_assoc. reflexivity.
    + unfold calls in *. cbn [app map length seq]. rewrite Hlog. reflexivity.
Qed.

(** X8.  When the service serves the contributor listing of a repository in
    non-empty pages, [get_repo_contributors] returns the pages concatenated
    in order, having requested page 1 up to the first empty page and no
    other. *)
Theorem get_repo_contributors_reads_all_pages owner repo pages fuel (w : W) :
  serves_listing owner repo pages ->
  Forall (fun p => p <> []) pages ->
  (length pages < fuel)%nat ->
  result (get_repo_contributors fuel owner repo w) = Val (concat pages) /\
  calls (log (get_repo_contributors fuel owner repo w)) =
    map (GetContributors owner repo) (seq 1 (S (length pages))).
Proof.
  intros Hserves Hpages Hfuel. unfold get_repo_contributors.
  apply (get_repo_contributors_from_spec owner repo pages fuel 0 [] w Hserves Hpages).
  exact Hfuel.
Qed.

(** The inner loop never lowers the count. *)
Lemma scan_events_ge cutoff total (events : list Event) :
  match scan_events cutoff total events with
  | inl t => (total <= t)%Z
  | inr t => (total <= t)%Z
  end.
Proof.
  rewrite scan_events_spec.
  pose proof (in_window_commits_nonneg cutoff events).
  pose proof (in_window_commits_nonneg cutoff (before_old_push cutoff events)).
  destruct (existsb _ events); lia.
Qed.

Lemma scan_event_pages_result u cutoff pages total (w : W) :
  match result (scan_event_pages u cutoff pages total w) with
  | Val n => (total <= n)%Z
  | Exc => exists page w', (events_page u page w').1 = None
  | Timeout => False
  end.
Proof.
  revert total w. induction pages as [|p pages IH]; intros total w.
  - cbn. lia.
  - cbn [scan_event_pages]. unfold bind, request.
    destruct (events_page u p w) as [[[events|code]|] w1] eqn:Hpage; cbn [result world log].
    + destruct events as [|e es]; [cbn; lia|].
      pose proof (scan_events_ge cutoff total (e :: es)) as Hge.
      destruct (scan_events cutoff total (e :: es)) as [t|t]; [cbn; lia|].
      specialize (IH t w1).
      destruct (result (scan_event_pages u cutoff pages t w1)); [lia | exact IH | exact IH].
    + cbn. lia.
    + exists p, w. rewrite Hpage. reflexivity.
Qed.

(** X10.  Whatever the service answers, the estimate from the event feed
    requests an initial part of the pages 1, 2, 3, in this order and nothing
    else; the number it returns is not negative; it raises only when a
    request for a page of events raised. *)
Theorem get_commits_from_events_any_service u (w : W) :
  (exists k, (k <= 3)%nat /\
             calls (log (get_commits_from_events u w)) =
             map (GetEvents u) (take k [1; 2; 3]%nat)) /\
  match result (get_commits_from_events u w) with
  | Val n => (0 <= n)%Z
  | Exc => exists page w', (events_page u page w').1 = None
  | Timeout => False
  end.
Proof.
  split; [apply get_commits_from_events_at_most_three|].
  unfold get_commits_from_events.
  rewrite (bind_val now _ w (clock w) eq_refl). cbn [result world log now app].
  apply scan_event_pages_result.
Qed.

(** X9.  The yearly count.  Its requests are at most one GraphQL request,
    made first and only with a token, followed by at most two runs of the
    estimate from the event feed, each an initial part of the pages 1, 2, 3.
    It never waits for a rate limit; the number it returns is the total of
    the GraphQL answer or is not negative; it raises only when a request
    for a page of events raised.  Without a token it is the estimate from
    the event feed.  With one, a total in the answer is returned as it is
    and an answer without the user gives 0, after the single request; an
    answer with another status or with errors gives the estimate, which the
    handler runs a second time when its first run raised; and a request that
    raised, or an answer that cannot be read ([data] is null), gives the
    estimate, run once. *)
Theorem get_user_contributions_last_year_cases self u (w : W) :
  let out := get_user_contributions_last_year self u w in
  let w1 := (graphql u w).2 in
  let first := get_commits_from_events u w1 in
  let again := get_commits_from_events u (world first) in
  (exists j k, (j <= 3)%nat /\ (k <= 3)%nat /\
     calls (log out) =
       (if has_token self then [PostGraphQL u] else []) ++
       map (GetEvents u) (take j [1; 2; 3]%nat) ++
       map (GetEvents u) (take k [1; 2; 3]%nat)) /\
  match result out with
  | Val n =>
      (0 <= n)%Z \/
      (has_token self = true /\ (graphql u w).1 = Some (Status200 (GqlTotal n)))
  | Exc => exists page w', (events_page u page w').1 = None
  | Timeout => False
  end /\
  if negb (has_token self) then out = get_commits_from_events u w
  else
    match (graphql u w).1 with
    | Some (Status200 (GqlTotal n)) =>
        result out = Val n /\ calls (log out) = [PostGraphQL u]
    | Some (Status200 GqlNoUser) =>
        result out = Val 0%Z /\ calls (log out) = [PostGraphQL u]
    | Some (Status200 GqlErrors) | Some (StatusOther _) =>
        match result first with
        | Exc =>
            result out = result again /\
            calls (log out) = PostGraphQL u :: calls (log first) ++ calls (log again)
        | _ =>
            result out = result first /\
            calls (log out) = PostGraphQL u :: calls (log first)
        end
    | Some (Status200 GqlMalformed) | None =>
        result out = result first /\
        calls (log out) = PostGraphQL u :: calls (log first)
    end.
Proof.
  cbv zeta.
  assert (forall w0,
    (exists k, (k <= 3)%nat /\
               calls (log (get_commits_from_events u w0)) =
               map (GetEvents u) (take k [1; 2; 3]%nat)) /\
    match result (get_commits_from_events u w0) with
    | Val n => (0 <= n)%Z
    | Exc => exists page w', (events_page u page w').1 = None
    | Timeout => False
    end) as Hfeed.
  { intros w0. split; [apply get_commits_from_events_at_most_three|].
    unfold get_commits_from_events.
    rewrite (bind_val now _ w0 (clock w0) eq_refl). cbn [result world log now app].
    apply scan_event_pages_result. }
  assert (forall m : M W Z,
    (forall w0, m w0 = get_commits_from_events u w0) ->
    forall w0,
    (exists j k, (j <= 3)%nat /\ (k <= 3)%nat /\
       calls (log (m w0)) =
         map (GetEvents u) (take j [1; 2; 3]%nat) ++
         map (GetEvents u) (take k [1; 2; 3]%nat)) /\
    match result (m w0) with
    | Val n => (0 <= n)%Z
    | Exc => exists page w', (events_page u page w').1 = None
    | Timeout => False
    end) as Honce.
  { intros m Hm w0. rewrite Hm. destruct (Hfeed w0) as [(j & Hj & Hlog) Hres].
    split; [|exact Hres]. exists j, 0%nat. rewrite Hlog, app_nil_r.
    repeat split; [assumption | lia]. }
  assert (forall w0,
    let first := get_commits_from_events u w0 in
    let again := get_commits_from_events u (world first) in
    exists j k, (j <= 3)%nat /\ (k <= 3)%nat /\
      calls (log first) ++ calls (log again) =
        map (GetEvents u) (take j [1; 2; 3]%nat) ++
        map (GetEvents u) (take k [1; 2; 3]%nat)) as Htwice.
  { intros w0. cbv zeta.
    destruct (Hfeed w0) as [(j & Hj & Hlog) _].
    destruct (Hfeed (world (get_commits_from_events u w0))) as [(k & Hk & Hlog') _].
    exists j, k. rewrite Hlog, Hlog'. repeat split; assumption. }
  unfold get_user_contributions_last_year.
  destruct (has_token self) eqn:Htoken; cbn [negb].
  2: { destruct (Honce _ (fun w0 => eq_refl) w) as [(j & k & Hj & Hk & Hlog) Hres].
       split; [exists j, k; repeat split; assumption|].
       split; [|reflexivity].
       destruct (result (get_commits_from_events u w)); [now left | assumption..]. }
  unfold try_except, bind, request.
  destruct (graphql u w) as [[[[| | |n]|code]|] w1]; cbn [fst snd result world log].
  - (* errors in the answer *)
    destruct (Hfeed w1) as [(j & Hj & Hlog) Hres].
    destruct (Htwice w1) as (j2 & k2 & Hj2 & Hk2 & Hlog2).
    destruct (Hfeed (world (get_commits_from_events u w1))) as [_ Hres'].
    destruct (result (get_commits_from_events u w1)) eqn:Hfirst;
      cbn [result world log]; rewrite ?Hfirst; cbn [result world log].
    + split; [|split; [now left | split; reflexivity]].
      exists j, 0%nat. unfold calls in *. cbn [map app]. rewrite Hlog, app_nil_r.
      repeat split; [assumption | lia].
    + split; [|split].
      * exists j2, k2. unfold calls in *. cbn [map app]. rewrite map_app, Hlog2.
        repeat split; assumption.
      * destruct (result (get_commits_from_events u
                            (world (get_commits_from_events u w1))));
          [now left | assumption..].
      * unfold calls. rewrite map_app. split; reflexivity.
    + contradiction.
  - (* no user *)
    split; [|split; [left; lia | split; reflexivity]].
    exists 0%nat, 0%nat. repeat split; lia.
  - (* an answer that cannot be read *)
    unfold raise. cbn [result world log app].
    destruct (Hfeed w1) as [(j & Hj & Hlog) Hres].
    split; [|split; [|split; reflexivity]].
    + exists j, 0%nat. unfold calls in *. cbn [map app]. rewrite Hlog, app_nil_r.
      repeat split; [assumption | lia].
    + destruct (result (get_commits_from_events u w1)); [now left | assumption..].
  - (* a total *)
    split; [|split; [now right | split; reflexivity]].
    exists 0%nat, 0%nat. repeat split; lia.
  - (* another status *)
    destruct (Hfeed w1) as [(j & Hj & Hlog) Hres].
    destruct (Htwice w1) as (j2 & k2 & Hj2 & Hk2 & Hlog2).
    destruct (Hfeed (world (get_commits_from_events u w1))) as [_ Hres'].
    destruct (result (get_commits_from_events u w1)) eqn:Hfirst;
      cbn [result world log]; rewrite ?Hfirst; cbn [result world log].
    + split; [|split; [now left | split; reflexivity]].
      exists j, 0%nat. unfold calls in *. cbn [map app]. rewrite Hlog, app_nil_r.
      repeat split; [assumption | lia].
    + split; [|split].
      * exists j2, k2. unfold calls in *. cbn [map app]. rewrite map_app, Hlog2.
        repeat split; assumption.
      * destruct (result (get_commits_from_events u
                            (world (get_commits_from_events u w1))));
          [now left | assumption..].
      * unfold calls. rewrite map_app. split; reflexivity.
    + contradiction.
  - (* the request raised *)
    destruct (Hfeed w1) as [(j & Hj & Hlog) Hres].
    split; [|split; [|split; reflexivity]].
    + exists j, 0%nat. unfold calls in *. cbn [map app]. rewrite Hlog, app_nil_r.
      repeat split; [assumption | lia].
    + destruct (result (get_commits_from_events u w1)); [now left | assumption..].
Qed.

(** One lookup of a commit: one request, and no exception leaves it. *)
Lemma commit_api_outcome repo sha (w : W) :
  exists email w1,
    _get_email_from_commit_api repo sha w =
    {| result := Val email; world := w1;
       log := [ {| behalf := None; call := GetCommitDetail repo sha |} ] |}.
Proof.
  unfold _get_email_from_commit_api, try_except, bind, request.
  destruct (commit_detail repo sha w) as [[[email|code]|] w1];
    cbn [result world log app]; eexists _, _; reflexivity.
Qed.

(** The commits whose details are requested are an initial part of the list
    given, and all of it when nothing is found. *)
Lemma first_valid_checked repo shas (w : W) :
  exists checked,
    calls (log (first_valid_commit_email repo shas w)) =
      map (GetCommitDetail repo) checked /\
    checked `prefix_of` shas /\
    (result (first_valid_commit_email repo shas w) = Val None -> checked = shas).
Proof.
  revert w. induction shas as [|sha shas IH]; intros w; cbn [first_valid_commit_email].
  - exists []. split; [reflexivity|]. split; reflexivity.
  - destruct (commit_api_outcome repo sha w) as (email & w1 & Hapi).
    rewrite (bind_val _ _ w email) by (rewrite Hapi; reflexivity).
    rewrite Hapi. cbn [result world log app].
    assert (exists checked,
      calls (log (first_valid_commit_email repo shas w1)) = map (GetCommitDetail repo) checked /\
      sha :: checked `prefix_of` sha :: shas /\
      (result (first_valid_commit_email repo shas w1) = Val None ->
       sha :: checked = sha :: shas)) as Hrest.
    { destruct (IH w1) as (checked & Hlog & Hpre & Hall). exists checked.
      split; [assumption|]. split; [now apply prefix_cons | intros Hr; f_equal; auto]. }
    destruct email as [e|].
    + destruct (Str.truthy e && Utils.is_valid_email e); cbn [result world log app].
      * exists [sha]. split; [reflexivity|].
        split; [exists shas; reflexivity | discriminate].
      * destruct Hrest as (checked & Hlog & Hpre & Hall). exists (sha :: checked).
        split; [unfold calls in *; cbn [map]; now rewrite Hlog | tauto].
    + destruct Hrest as (checked & Hlog & Hpre & Hall). exists (sha :: checked).
      split; [unfold calls in *; cbn [map]; now rewrite Hlog | tauto].
Qed.

(** X11.  The scan of one repository never raises and returns nothing or an
    address that passes the validity filter.  It lists the user's commits
    once and then asks for the details of commits of that listing from the
    last one backwards (the oldest first), stopping at the first valid
    address; when it returns nothing it has asked for every commit listed. *)
Theorem extract_email_scans_oldest_first u repo (w : W) :
  let out := _extract_email_from_repo_commits u repo w in
  (exists x, result out = Val x /\ found_valid x) /\
  exists checked,
    calls (log out) = GetCommits repo u :: map (GetCommitDetail repo) checked /\
    match (repo_commits repo u w).1 with
    | Some (Status200 commits) =>
        checked `prefix_of` rev commits /\
        (result out = Val None -> checked = rev commits)
    | _ => checked = []
    end.
Proof.
  cbv zeta. split; [apply extract_found|].
  unfold _extract_email_from_repo_commits, try_except, bind, request.
  destruct (repo_commits repo u w) as [[[commits|code]|] w1]; cbn [fst result world log app].
  - destruct commits as [|c commits]; cbn [result world log app].
    + exists []. split; [reflexivity|]. split; reflexivity.
    + destruct (first_valid_checked repo (rev (c :: commits)) w1)
        as (checked & Hlog & Hpre & Hall).
      destruct (first_valid_found repo (rev (c :: commits)) w1) as (x & Hx & _).
      exists checked. rewrite Hx in *. cbn [result world log app].
      split; [unfold calls in *; cbn [map]; now rewrite Hlog|].
      split; [assumption|]. intros [= ->]. now apply Hall.
  - exists []. split; reflexivity.
  - exists []. split; reflexivity.
Qed.

End ClientMore.

Lemma get_repo_contributors_reads_all_pages_witness :
  Remote.result (@GitHubAPIClient.get_repo_contributors unit team_service
                   5 "acme" "platform" tt) =
    Remote.Val (concat [ [alice_candidate; bob_candidate] ]) /\
  Remote.calls (Remote.log (@GitHubAPIClient.get_repo_contributors unit team_service
                              5 "acme" "platform" tt)) =
    map (Remote.GetContributors "acme" "platform") (seq 1 2).
Proof.
  apply (@get_repo_contributors_reads_all_pages unit team_service "acme" "platform"
           [ [alice_candidate; bob_candidate] ] 5 tt).
  - intros page w. reflexivity.
  - repeat constructor; discriminate.
  - simpl. lia.
Defined.

(* --------------------------------------------------------------------- *)
(** ** Counting calls *)
(* --------------------------------------------------------------------- *)

Section Budget.
Import Remote GitHubAPIClient Crawler.
Context {W : Type} `{Service W}.

Lemma count_calls_app p (l1 l2 : list Entry) :
  count_calls p (l1 ++ l2) = (count_calls p l1 + count_calls p l2)%nat.
Proof.
  unfold count_calls, calls. rewrite map_app, List.filter_app, length_app. reflexivity.
Qed.

Lemma logs_at_most_ret {A} p n (a : A) : logs_at_most (W:=W) p n (ret a).
Proof. intros w. cbn. lia. Qed.

Lemma logs_at_most_request {A} p (c : Call) (endpoint : W -> option A * W) :
  logs_at_most p (if p c then 1 else 0) (request c endpoint).
Proof.
  intros w. unfold request. destruct (endpoint w) as [answer w1].
  unfold count_calls. cbn. destruct (p c); cbn; lia.
Qed.

Lemma logs_at_most_bind {A B} p n1 n2 n (m : M W A) (f : A -> M W B) :
  logs_at_most p n1 m -> (forall a, logs_at_most p n2 (f a)) ->
  (n1 + n2 <= n)%nat -> logs_at_most p n (bind m f).
Proof.
  intros Hm Hf Hn w. rewrite log_bind, count_calls_app. specialize (Hm w).
  destruct (result (m w)) as [a| |].
  - specialize (Hf a (world (m w))). lia.
  - cbn. lia.
  - cbn. lia.
Qed.

Lemma logs_at_most_try_except {A} p n1 n2 n (m h : M W A) :
  logs_at_most p n1 m -> logs_at_most p n2 h ->
  (n1 + n2 <= n)%nat -> logs_at_most p n (try_except m h).
Proof.
  intros Hm Hh Hn w. rewrite log_try_except, count_calls_app. specialize (Hm w).
  destruct (result (m w)) as [a| |].
  - cbn. lia.
  - specialize (Hh (world (m w))). lia.
  - cbn. lia.
Qed.

Lemma logs_at_most_weaken {A} p n n' (m : M W A) :
  logs_at_most p n m -> (n <= n')%nat -> logs_at_most p n' m.
Proof. intros Hm Hn w. specialize (Hm w). lia. Qed.

Lemma first_valid_no_listing p repo shas :
  (forall r s, p (GetCommitDetail r s) = false) ->
  logs_at_most (W:=W) p 0 (first_valid_commit_email repo shas).
Proof.
  intros Hp w. destruct (first_valid_checked repo shas w) as (checked & Hlog & _).
  unfold count_calls. rewrite Hlog. clear Hlog.
  induction checked as [|c checked IH]; cbn; [lia|]. rewrite Hp. exact IH.
Qed.

Lemma extract_commit_listings u repo :
  logs_at_most (W:=W) is_commit_listing 1 (_extract_email_from_repo_commits u repo).
Proof.
  unfold _extract_email_from_repo_commits.
  apply (logs_at_most_try_except _ 1 0); [|apply logs_at_most_ret|lia].
  apply (logs_at_most_bind _ 1 0); [apply (logs_at_most_request is_commit_listing)| |lia].
  intros [[|c commits]|code]; try apply logs_at_most_ret.
  apply first_valid_no_listing. reflexivity.
Qed.

Lemma extract_repo_listings u repo :
  logs_at_most (W:=W) is_repo_listing 0 (_extract_email_from_repo_commits u repo).
Proof.
  unfold _extract_email_from_repo_commits.
  apply (logs_at_most_try_except _ 0 0); [|apply logs_at_most_ret|lia].
  apply (logs_at_most_bind _ 0 0); [apply (logs_at_most_request is_repo_listing)| |lia].
  intros [[|c commits]|code]; try apply logs_at_most_ret.
  apply first_valid_no_listing. reflexivity.
Qed.

Lemma scan_oldest_commit_listings u i repos :
  logs_at_most (W:=W) is_commit_listing (S (9 - i)) (scan_oldest_repos u i repos).
Proof.
  revert i. induction repos as [|r repos IH]; intros i; cbn [scan_oldest_repos].
  - apply logs_at_most_ret.
  - apply (logs_at_most_bind _ 1 (9 - i)); [apply extract_commit_listings| |lia].
    intros email. destruct (truthy_opt email); [apply logs_at_most_ret|].
    destruct (9 <=? i)%nat eqn:Hnine; [apply logs_at_most_ret|].
    apply Nat.leb_gt in Hnine.
    eapply logs_at_most_weaken; [apply (IH (S i)) | lia].
Qed.

Lemma scan_oldest_repo_listings u i repos :
  logs_at_most (W:=W) is_repo_listing 0 (scan_oldest_repos u i repos).
Proof.
  revert i. induction repos as [|r repos IH]; intros i; cbn [scan_oldest_repos].
  - apply logs_at_most_ret.
  - apply (logs_at_most_bind _ 0 0); [apply extract_repo_listings| |lia].
    intros email. destruct (truthy_opt email); [apply logs_at_most_ret|].
    destruct (9 <=? i)%nat; [apply logs_at_most_ret | apply IH].
Qed.

Lemma scan_recent_commit_listings u repos :
  logs_at_most (W:=W) is_commit_listing (length repos) (scan_recent_repos u repos).
Proof.
  induction repos as [|r repos IH]; cbn [scan_recent_repos length].
  - apply logs_at_most_ret.
  - apply (logs_at_most_bind _ 1 (length repos)); [apply extract_commit_listings| |lia].
    intros email. destruct (truthy_opt email); [apply logs_at_most_ret | apply IH].
Qed.

Lemma scan_recent_repo_listings u repos :
  logs_at_most (W:=W) is_repo_listing 0 (scan_recent_repos u repos).
Proof.
  induction repos as [|r repos IH]; cbn [scan_recent_repos].
  - apply logs_at_most_ret.
  - apply (logs_at_most_bind _ 0 0); [apply extract_repo_listings| |lia].
    intros email. destruct (truthy_opt email); [apply logs_at_most_ret | apply IH].
Qed.

(** X12.  One run of [get_commit_email_from_repo] requests at most two
    listings of the user's repositories and at most fifteen listings of
    commits (ten repositories of the first listing, five of the second),
    whatever the service answers; it never raises, and what it returns is
    nothing or an address that passes the validity filter. *)
Theorem get_commit_email_from_repo_budget u src (w : W) :
  let out := get_commit_email_from_repo u src w in
  (count_calls is_repo_listing (log out) <= 2)%nat /\
  (count_calls is_commit_listing (log out) <= 15)%nat /\
  exists x, result out = Val x /\ found_valid x.
Proof.
  cbv zeta. split; [|split; [|apply get_commit_email_found]].
  - revert w. change (logs_at_most is_repo_listing 2 (get_commit_email_from_repo u src)).
    unfold get_commit_email_from_repo.
    apply (logs_at_most_try_except _ 2 0); [|apply logs_at_most_ret|lia].
    apply (logs_at_most_bind _ 1 1); [apply (logs_at_most_request is_repo_listing)| |lia].
    intros [[|r repos]|code]; try apply logs_at_most_ret.
    apply (logs_at_most_bind _ 0 1); [apply scan_oldest_repo_listings| |lia].
    intros [email|]; [apply logs_at_most_ret|].
    apply (logs_at_most_bind _ 1 0); [apply (logs_at_most_request is_repo_listing)| |lia].
    intros [recent|code]; [|apply logs_at_most_ret].
    apply (logs_at_most_bind _ 0 0); [apply scan_recent_repo_listings| |lia].
    intros [email|]; apply logs_at_most_ret.
  - revert w. change (logs_at_most is_commit_listing 15 (get_commit_email_from_repo u src)).
    unfold get_commit_email_from_repo.
    apply (logs_at_most_try_except _ 15 0); [|apply logs_at_most_ret|lia].
    apply (logs_at_most_bind _ 0 15); [apply (logs_at_most_request is_commit_listing)| |lia].
    intros [[|r repos]|code]; try apply logs_at_most_ret.
    apply (logs_at_most_bind _ 10 5); [apply (scan_oldest_commit_listings u 0)| |lia].
    intros [email|]; [apply logs_at_most_ret|].
    apply (logs_at_most_bind _ 0 5); [apply (logs_at_most_request is_commit_listing)| |lia].
    intros [recent|code]; [|apply logs_at_most_ret].
    apply (logs_at_most_bind _ 5 0); [| |lia].
    + eapply logs_at_most_weaken; [apply scan_recent_commit_listings|].
      rewrite length_take. lia.
    + intros [email|]; apply logs_at_most_ret.
Qed.

End Budget.

(* --------------------------------------------------------------------- *)
(** ** Further properties of the crawler *)
(* --------------------------------------------------------------------- *)

Section CrawlerRows.
Import Remote GitHubAPIClient Crawler.
Context {W : Type} `{Service W}.

Lemma discover_found u src (w : W) x :
  result (discover_commit_email u src w) = Val x -> found_valid x.
Proof.
  unfold discover_commit_email. intros Hr.
  apply bind_val_inv in Hr as (ce & Hce & Hr).
  destruct (get_commit_email_found u src w) as (x' & Hx' & Hfound).
  assert (x' = ce) as -> by congruence.
  destruct ce as [e|].
  - cbn in Hr. injection Hr as <-. exact Hfound.
  - apply bind_val_inv in Hr as (pinned & _ & Hr).
    rewrite scan_pinned_repos_eq in Hr.
    destruct (check_each_found u pinned
                (world (get_pinned_repos u (world (get_commit_email_from_repo u src w)))))
      as (y & Hy & Hfy).
    congruence.
Qed.

Lemma qualify_contributor_fields self url owner repo m2 c (w : W) row :
  result (qualify_contributor self url owner repo m2 c w) = Val (Some row) ->
  row_for url owner repo m2 c row.
Proof.
  unfold qualify_contributor. intros Hr.
  apply bind_val_inv in Hr as (yearly & _ & Hr).
  destruct (m2 <=? yearly)%Z eqn:Hyearly; [|discriminate].
  apply Z.leb_le in Hyearly.
  apply bind_val_inv in Hr as (profile & _ & Hr).
  apply bind_val_inv in Hr as (commit_email & Hce & Hr).
  apply discover_found in Hce.
  injection Hr as <-. unfold row_for. cbn.
  repeat (split; [first [reflexivity | assumption]|]).
  eexists. split; [reflexivity|].
  rewrite (found_valid_truthy _ Hce).
  destruct Hce as [-> | (e & -> & He)]; [now left | now right].
Qed.

Lemma qualify_contributors_fields self url owner repo m2 high acc (w : W) rows :
  result (qualify_contributors self url owner repo m2 high acc w) = Val rows ->
  forall r, r ∈ rows ->
            r ∈ acc \/ exists c, c ∈ high /\ row_for url owner repo m2 c r.
Proof.
  revert acc w. induction high as [|c high IH]; intros acc w Hr r Hin;
    cbn [qualify_contributors] in Hr.
  - injection Hr as <-. now left.
  - apply bind_val_inv in Hr as (row & Hrow & Hr).
    destruct (IH _ _ Hr r Hin) as [Hacc | (c' & Hc' & Hu)].
    + destruct row as [row|]; [|now left].
      apply elem_of_app in Hacc as [Hacc | Hnew]; [now left|].
      apply list_elem_of_singleton in Hnew as ->. right. exists c. split; [now left|].
      exact (qualify_contributor_fields _ _ _ _ _ _ _ _ Hrow).
    + right. exists c'. split; [now right | assumption].
Qed.

Lemma filter_contributors_rows self fuel url m1 m2 (w : W) rows :
  result (filter_contributors_for_repo self fuel url m1 m2 w) = Val rows ->
  forall r, r ∈ rows -> qualified_row url m1 m2 r.
Proof.
  unfold filter_contributors_for_repo.
  destruct (Utils.urlparse_raises url); [discriminate|].
  destruct (Utils.parse_repo_url url) as [[owner|] [repo|]] eqn:Hparse;
    try (intros [= <-] r Hr; inversion Hr).
  destruct (negb (Str.truthy owner) || negb (Str.truthy repo));
    [intros [= <-] r Hr; inversion Hr|].
  unfold try_except.
  destruct (result (bind _ _ w)) as [rows'| |] eqn:Hres; cbn [result].
  2: { intros [= <-] r Hr. inversion Hr. }
  2: { rewrite Hres. discriminate. }
  rewrite Hres. intros [= ->] r Hr.
  apply bind_val_inv in Hres as (contributors & _ & Hloop).
  destruct (qualify_contributors_fields _ _ _ _ _ _ _ _ _ Hloop r Hr)
    as [Hnil | (c & Hc & Hrow)]; [inversion Hnil|].
  apply elem_of_high_contributors in Hc as [_ Hge].
  destruct Hrow as (Hurl & Hname & Huser & Hcontrib & _ & Hyearly & Hemail).
  unfold qualified_row. rewrite Hcontrib. eauto 10.
Qed.

(** Where the parser does not raise, [filter_contributors_for_repo] lets no
    exception out: everything after the parse is inside the [try]. *)
Lemma filter_contributors_quiet self fuel url m1 m2 (w : W) :
  Utils.urlparse_raises url = false ->
  result (filter_contributors_for_repo self fuel url m1 m2 w) <> Exc.
Proof.
  intros Hquiet. unfold filter_contributors_for_repo. rewrite Hquiet.
  destruct (Utils.parse_repo_url url) as [[owner|] [repo|]]; try discriminate.
  destruct (negb (Str.truthy owner) || negb (Str.truthy repo)); [discriminate|].
  unfold try_except. destruct (result (bind _ _ w)) eqn:Hres; cbn [result];
    rewrite ?Hres; discriminate.
Qed.

(** X14.  [filter_contributors_for_repo] parses its URL before the [try]:
    on a URL whose network location holds one bracket without the other the
    parser's [ValueError] leaves the function, before any request.  On a URL
    of ASCII characters without brackets it lets no exception out; each row
    it returns carries the URL it was called with and the [owner/repo]
    parsed from it, a username, a repository count of at least
    [min_repo_contributions], a yearly count of at least
    [min_yearly_contributions], and a commit email that is empty or passes
    the validity filter; and for a URL that [parse_repo_url] rejects it
    returns the empty list without a request. *)
Theorem filter_contributors_for_repo_rows self fuel url m1 m2 (w : W) :
  let out := filter_contributors_for_repo self fuel url m1 m2 w in
  if Utils.urlparse_raises url then out = raise w
  else if plain_url url then
    match result out with
    | Val rows => Forall (qualified_row url m1 m2) rows
    | Exc => False
    | Timeout => True
    end /\
    match Utils.parse_repo_url url with
    | (Some _, Some _) => True
    | _ => out = ret [] w
    end
  else True.
Proof.
  cbv zeta. destruct (Utils.urlparse_raises url) eqn:Hquiet.
  - unfold filter_contributors_for_repo. now rewrite Hquiet.
  - destruct (plain_url url); [|exact I]. split.
    + pose proof (filter_contributors_quiet self fuel url m1 m2 w Hquiet) as Hexc.
      destruct (result (filter_contributors_for_repo self fuel url m1 m2 w))
        as [rows| |] eqn:Hres; [|congruence|exact I].
      apply Forall_forall. intros r Hr.
      exact (filter_contributors_rows _ _ _ _ _ _ _ Hres r Hr).
    + unfold filter_contributors_for_repo. rewrite Hquiet.
      destruct (Utils.parse_repo_url url) as [[owner|] [repo|]]; [exact I | reflexivity..].
Qed.

End CrawlerRows.

(* --------------------------------------------------------------------- *)
(** ** The pipeline: URLs, stars, processing, saving *)
(* --------------------------------------------------------------------- *)

Section Pipeline.
Import Remote RemoteMore GitHubAPIClient Crawler.
Context {W : Type} `{Service W} `{Sources W}.

Lemma consult_outcome {A} (endpoint : W -> option A * W) (w : W) :
  log (consult endpoint w) = [] /\
  world (consult endpoint w) = (endpoint w).2 /\
  result (consult endpoint w) =
    match (endpoint w).1 with Some a => Val a | None => Exc end.
Proof. unfold consult. destruct (endpoint w) as [answer w1]. repeat split. Qed.

Lemma skipped_for_stars_outcome url min_stars (w : W) :
  log (CrawlerMore.skipped_for_stars url min_stars w) = [] /\
  match result (CrawlerMore.skipped_for_stars url min_stars w) with
  | Val _ => True
  | Exc => (exists owner repo w', (repo_record owner repo w').1 = None) \/
           Utils.urlparse_raises url = true
  | Timeout => False
  end.
Proof.
  unfold CrawlerMore.skipped_for_stars.
  destruct (negb (min_stars =? 0)%Z); [|split; [reflexivity | exact I]].
  destruct (Utils.urlparse_raises url); [split; [reflexivity | now right]|].
  destruct (Utils.parse_repo_url url) as [owner repo].
  unfold GitHubAPIClientMore.get_repo_stars, bind, consult.
  destruct (repo_record (DataHandler.fmt owner) (DataHandler.fmt repo) w)
    as [[[n|]|] w1] eqn:Hrec; cbn [result world log app]; (split; [reflexivity|]);
    try exact I.
  left. exists (DataHandler.fmt owner), (DataHandler.fmt repo), w. now rewrite Hrec.
Qed.

Lemma loop_exception_plain urls :
  loop_exception urls ->
  (exists owner repo (w' : W), (repo_record owner repo w').1 = None) \/
  exists url, url ∈ urls /\ plain_url url = false.
Proof.
  intros [Hstars | (u & Hu & Hraises)]; [now left|].
  right. exists u. split; [assumption|].
  destruct (plain_url u) eqn:Hplain; [|reflexivity].
  rewrite (plain_url_quiet u Hplain) in Hraises. discriminate.
Qed.

Lemma loop_exception_cons url urls :
  loop_exception urls -> loop_exception (url :: urls).
Proof.
  intros [Hstars | (u & Hu & Hraises)]; [now left|].
  right. exists u. split; [now right | assumption].
Qed.

Lemma process_multiple_repos_rows self fuel urls min_stars m1 m2 acc (w : W) :
  match result (CrawlerMore.process_multiple_repos self fuel urls min_stars m1 m2 acc w) with
  | Val rows =>
      exists added,
        rows = acc ++ added /\
        Forall (fun r => exists url, url ∈ urls /\ qualified_row url m1 m2 r) added
  | Exc => loop_exception urls
  | Timeout => True
  end.
Proof.
  revert acc w. induction urls as [|url urls IH]; intros acc w;
    cbn [CrawlerMore.process_multiple_repos].
  - cbn. exists []. split; [now rewrite app_nil_r | constructor].
  - unfold bind at 1.
    destruct (skipped_for_stars_outcome url min_stars w) as [_ Hskip].
    destruct (result (CrawlerMore.skipped_for_stars url min_stars w)) as [skip| |];
      cbn [result]; [| | exact I].
    2: { destruct Hskip as [Hstars | Hraises]; [now left|].
         right. exists url. split; [now left | assumption]. }
    assert (forall acc' w',
      match result (CrawlerMore.process_multiple_repos self fuel urls min_stars m1 m2 acc' w') with
      | Val rows =>
          exists added,
            rows = acc' ++ added /\
            Forall (fun r => exists u, u ∈ url :: urls /\ qualified_row u m1 m2 r) added
      | Exc => loop_exception (url :: urls)
      | Timeout => True
      end) as IH'.
    { intros acc' w'. specialize (IH acc' w').
      destruct (result (CrawlerMore.process_multiple_repos self fuel urls min_stars m1 m2 acc' w'));
        [|now apply loop_exception_cons | assumption].
      destruct IH as (added & -> & Hadded). exists added. split; [reflexivity|].
      eapply Forall_impl; [exact Hadded|]. intros r (u & Hu & Hq). exists u.
      split; [now right | assumption]. }
    destruct skip; [apply IH'|].
    unfold bind.
    destruct (Utils.urlparse_raises url) eqn:Hquiet.
    { assert (result (filter_contributors_for_repo self fuel url m1 m2
                (world (CrawlerMore.skipped_for_stars url min_stars w))) = Exc) as ->
        by (unfold filter_contributors_for_repo; now rewrite Hquiet).
      right. exists url. split; [now left | assumption]. }
    pose proof (filter_contributors_quiet self fuel url m1 m2
                  (world (CrawlerMore.skipped_for_stars url min_stars w)) Hquiet) as Hno.
    destruct (result (filter_contributors_for_repo self fuel url m1 m2 _))
      as [contributors| |] eqn:Hfilter; cbn [result]; [|contradiction | exact I].
    specialize (IH' (acc ++ contributors)
                    (world (filter_contributors_for_repo self fuel url m1 m2
                      (world (CrawlerMore.skipped_for_stars url min_stars w))))).
    destruct (result (CrawlerMore.process_multiple_repos _ _ _ _ _ _ (acc ++ contributors) _));
      [|assumption..].
    destruct IH' as (added & -> & Hadded). exists (contributors ++ added).
    split; [now rewrite app_assoc|]. apply Forall_app. split; [|assumption].
    apply Forall_forall. intros r Hr. exists url. split; [now left|].
    exact (filter_contributors_rows _ _ _ _ _ _ _ Hfilter r Hr).
Qed.

(** X15.  [process_multiple_repos] starts from the empty list: the rows it
    returns were each returned for one of the given URLs under the two
    thresholds.  An exception leaves it only when a star lookup raised, or
    when one of the URLs is not made of ASCII characters without brackets
    (the parser can raise on such a URL, and it is called outside any
    [try]). *)
Theorem process_multiple_repos_extends self fuel urls min_stars m1 m2 (w : W) :
  match result (CrawlerMore.process_multiple_repos self fuel urls min_stars m1 m2 [] w) with
  | Val rows =>
      Forall (fun r => exists url, url ∈ urls /\ qualified_row url m1 m2 r) rows
  | Exc => (exists owner repo w', (repo_record owner repo w').1 = None) \/
           exists url, url ∈ urls /\ plain_url url = false
  | Timeout => True
  end.
Proof.
  pose proof (process_multiple_repos_rows self fuel urls min_stars m1 m2 [] w) as Hrows.
  destruct (result (CrawlerMore.process_multiple_repos self fuel urls min_stars m1 m2 [] w));
    [|now apply loop_exception_plain | assumption].
  destruct Hrows as (added & -> & Hadded). exact Hadded.
Qed.

(** X16.  With a star threshold, a repository whose record carries no star
    count, a count of 0, or a count below the threshold is passed over: when
    this holds of every record and every URL is made of ASCII characters
    without brackets (so that the parser returns),
    [process_multiple_repos] returns the list it started from and makes no
    request to the service. *)
Theorem process_multiple_repos_star_gate
    self fuel urls min_stars m1 m2 acc (w : W) :
  min_stars <> 0%Z ->
  Forall (fun url => plain_url url = true) urls ->
  (forall owner repo w',
      match (repo_record owner repo w').1 with
      | Some None => True
      | Some (Some n) => n = 0%Z \/ (n < min_stars)%Z
      | None => False
      end) ->
  result (CrawlerMore.process_multiple_repos self fuel urls min_stars m1 m2 acc w) = Val acc /\
  log (CrawlerMore.process_multiple_repos self fuel urls min_stars m1 m2 acc w) = [].
Proof.
  intros Hmin Hplain Hlow. revert w.
  induction Hplain as [|url urls Hurl Hurls IH]; intros w;
    cbn [CrawlerMore.process_multiple_repos]; [split; reflexivity|].
  assert (exists w1, CrawlerMore.skipped_for_stars url min_stars w =
                     {| result := Val true; world := w1; log := [] |}) as [w1 Hskip].
  { unfold CrawlerMore.skipped_for_stars.
    apply Z.eqb_neq in Hmin. rewrite Hmin. cbn [negb].
    rewrite (plain_url_quiet url Hurl).
    destruct (Utils.parse_repo_url url) as [owner repo].
    unfold GitHubAPIClientMore.get_repo_stars, bind, consult.
    specialize (Hlow (DataHandler.fmt owner) (DataHandler.fmt repo) w).
    destruct (repo_record (DataHandler.fmt owner) (DataHandler.fmt repo) w)
      as [[[n|]|] w1]; cbn [fst] in Hlow; cbn [result world log app];
      [|eexists; reflexivity | contradiction].
    exists w1. unfold ret.
    assert ((n =? 0)%Z || (n <? min_stars)%Z = true) as ->; [|reflexivity].
    destruct Hlow as [-> | Hlt]; [reflexivity|].
    apply Z.ltb_lt in Hlt. rewrite Hlt. apply orb_true_r. }
  rewrite (bind_val _ _ w true) by (rewrite Hskip; reflexivity).
  rewrite Hskip. cbn [result world log app]. apply IH.
Qed.

End Pipeline.

Lemma process_multiple_repos_star_gate_witness :
  Remote.result
    (@CrawlerMore.process_multiple_repos unit team_service (fixed_stars (Some 50%Z))
       {| GitHubAPIClient.token := Some "t0ken" |} 5
       ["https://github.com/acme/platform"; "https://github.com/acme/tools"]
       100 100 400 [] tt) = Remote.Val [] /\
  Remote.log
    (@CrawlerMore.process_multiple_repos unit team_service (fixed_stars (Some 50%Z))
       {| GitHubAPIClient.token := Some "t0ken" |} 5
       ["https://github.com/acme/platform"; "https://github.com/acme/tools"]
       100 100 400 [] tt) = [].
Proof.
  apply (@process_multiple_repos_star_gate unit team_service (fixed_stars (Some 50%Z))).
  - discriminate.
  - repeat constructor.
  - intros owner repo w'. cbn. right. lia.
Defined.

Section Extraction.
Import Remote RemoteMore GitHubAPIClient Crawler.
Context {W : Type} `{Service W} `{Sources W}.

(** The rate-limit test raises on every value a README fetch can return. *)
Lemma is_rate_limit_exceeded_readme (readme_content : option string) :
  UtilsMore.is_rate_limit_exceeded (CrawlerMore.readme_value readme_content) = None.
Proof. destruct readme_content; reflexivity. Qed.

Lemma get_repo_readme_outcome owner repo (w : W) :
  log (GitHubAPIClientMore.get_repo_readme owner repo w) = [] /\
  result (GitHubAPIClientMore.get_repo_readme owner repo w) <> Timeout.
Proof.
  unfold GitHubAPIClientMore.get_repo_readme, bind, consult.
  destruct (readme_record owner repo w) as [[[content|code]|] w1];
    cbn [result world log app]; [|split; [reflexivity | discriminate]..].
  destruct (truthy_opt content); [|split; [reflexivity | discriminate]].
  destruct (decode_readme (DataHandler.fmt content));
    split; first [reflexivity | discriminate].
Qed.

Lemma extract_repos_readme_raises google_sheet_url start_row end_row master_repo (w : W) :
  truthy_opt master_repo = true ->
  result (CrawlerMore.extract_repos google_sheet_url start_row end_row master_repo w) = Exc /\
  log (CrawlerMore.extract_repos google_sheet_url start_row end_row master_repo w) = [].
Proof.
  intros Htruthy.
  assert (forall readme (w1 : W),
    match UtilsMore.is_rate_limit_exceeded (CrawlerMore.readme_value readme) with
    | None => raise
    | Some true => timeout
    | Some false =>
        if truthy_opt readme then
          ret (Some (DataHandler.get_list_of_repo_urls_from_readme
                       (DataHandler.fmt readme)
                       (DataHandler.fmt (Utils.parse_repo_url (DataHandler.fmt master_repo)).1)
                       (DataHandler.fmt (Utils.parse_repo_url (DataHandler.fmt master_repo)).2)))
        else ret None
    end w1 = raise w1) as Hraise.
  { intros readme w1. now rewrite is_rate_limit_exceeded_readme. }
  unfold CrawlerMore.extract_repos.
  destruct master_repo as [m|]; [|discriminate]. rewrite Htruthy.
  destruct (Utils.urlparse_raises (DataHandler.fmt (Some m)));
    [destruct google_sheet_url; split; reflexivity|].
  destruct (Utils.parse_repo_url (DataHandler.fmt (Some m))) as [owner repo].
  cbn [fst snd] in Hraise.
  destruct (get_repo_readme_outcome (DataHandler.fmt owner) (DataHandler.fmt repo) w)
    as [Hlog Hres].
  assert (forall m0 : M W (option (list string)),
             (m0 = (readme_content <- GitHubAPIClientMore.get_repo_readme
                                        (DataHandler.fmt owner) (DataHandler.fmt repo) ;;
                    match UtilsMore.is_rate_limit_exceeded
                            (CrawlerMore.readme_value readme_content) with
                    | None => raise
                    | Some true => timeout
                    | Some false =>
                        if truthy_opt readme_content then
                          ret (Some (DataHandler.get_list_of_repo_urls_from_readme
                                       (DataHandler.fmt readme_content)
                                       (DataHandler.fmt owner) (DataHandler.fmt repo)))
                        else ret None
                    end)) ->
             result (m0 w) = Exc /\ log (m0 w) = []) as Hgoal.
  { intros m0 ->. rewrite log_bind, Hlog. unfold bind.
    destruct (result (GitHubAPIClientMore.get_repo_readme _ _ w)) as [readme| |];
      [|split; reflexivity | contradiction].
    rewrite Hraise. split; reflexivity. }
  destruct google_sheet_url; apply Hgoal; reflexivity.
Qed.

(** X18.  [extract_repos] makes no request to the service.  With a
    non-empty [master_repo] it never returns: the rate-limit test is applied
    to the text of the README (or to [None]), which has no [status_code], so
    the call raises.  Otherwise, with a sheet URL it returns the valid rows
    of the sheet, or the empty list when the sheet cannot be read; with
    neither argument it returns nothing; with no sheet URL and an empty
    [master_repo] it raises. *)
Theorem extract_repos_cases google_sheet_url start_row end_row master_repo (w : W) :
  let out := CrawlerMore.extract_repos google_sheet_url start_row end_row master_repo w in
  log out = [] /\
  if truthy_opt master_repo then result out = Exc
  else
    match google_sheet_url, master_repo with
    | Some sheet_url, _ =>
        result out =
        Val (Some match (read_csv (DataHandlerMore.csv_export_url sheet_url) w).1 with
                  | Some column =>
                      DataHandlerMore.extract_repos_from_rows column start_row end_row
                  | None => []
                  end)
    | None, None => result out = Val None
    | None, Some _ => result out = Exc
    end.
Proof.
  cbv zeta. destruct (truthy_opt master_repo) eqn:Htruthy.
  { destruct (extract_repos_readme_raises google_sheet_url start_row end_row
                master_repo w Htruthy) as [Hres Hlog]. split; assumption. }
  unfold CrawlerMore.extract_repos. rewrite Htruthy.
  assert (forall sheet_url,
    let sheet := DataHandlerMore.extract_repos_from_google_sheet sheet_url
                   start_row end_row w in
    log sheet = [] /\
    result sheet =
      Val match (read_csv (DataHandlerMore.csv_export_url sheet_url) w).1 with
          | Some column =>
              DataHandlerMore.extract_repos_from_rows column start_row end_row
          | None => []
          end) as Hsheet.
  { intros sheet_url. cbv zeta.
    unfold DataHandlerMore.extract_repos_from_google_sheet, try_except, bind, consult.
    destruct (read_csv (DataHandlerMore.csv_export_url sheet_url) w) as [[column|] w1];
      cbn [fst result world log app]; split; reflexivity. }
  destruct google_sheet_url as [sheet_url|].
  - destruct (Hsheet sheet_url) as [Hlog Hres].
    assert (log (bind (DataHandlerMore.extract_repos_from_google_sheet sheet_url
                         start_row end_row)
                      (fun urls => ret (Some urls)) w) = [] /\
            result (bind (DataHandlerMore.extract_repos_from_google_sheet sheet_url
                            start_row end_row)
                         (fun urls => ret (Some urls)) w) =
            Val (Some match (read_csv (DataHandlerMore.csv_export_url sheet_url) w).1 with
                      | Some column =>
                          DataHandlerMore.extract_repos_from_rows column start_row end_row
                      | None => []
                      end)) as Hboth.
    { rewrite (bind_val _ _ w _ Hres). cbn [result world log]. rewrite Hlog.
      split; reflexivity. }
    destruct master_repo; exact Hboth.
  - destruct master_repo; split; reflexivity.
Qed.

(** The target's rows before a run: the rows [sheet_at] gives, read back. *)
Lemma load_existing_sheet filename fs r :
  r ∈ (DataHandler.load_existing filename fs).1 ->
  exists old, DataHandler.sheet_at filename fs = Some old /\
              r ∈ DataHandler.read_excel old.
Proof.
  unfold DataHandler.load_existing, DataHandler.sheet_at.
  destruct (DataHandler.files fs !! filename) as [[wb|rows|]|]; cbn [fst];
    try (intros Hr; inversion Hr; fail). intros Hr. eauto.
Qed.

End Extraction.

Section MainFacts.
Import Remote RemoteMore GitHubAPIClient Crawler.
Context {W : Type} `{Service W} `{Sources W}.

Lemma row_number_outcome row (w : W) :
  log (Main.row_number row w) = [] /\
  result (Main.row_number row w) <> Timeout.
Proof.
  assert (log (consult input_int w) = [] /\ result (consult input_int w) <> Timeout)
    as Hinput.
  { unfold consult. destruct (input_int w) as [[n|] w1]; split;
      first [reflexivity | discriminate]. }
  unfold Main.row_number. destruct row as [n|]; [|exact Hinput].
  destruct (n =? 0)%Z; [exact Hinput|]. split; [reflexivity | discriminate].
Qed.

Lemma bind_silent_exc {A B} (m : M W A) (f : A -> M W B) (w : W) :
  log (m w) = [] -> result (m w) <> Timeout ->
  (forall a w', result (f a w') = Exc /\ log (f a w') = []) ->
  result (bind m f w) = Exc /\ log (bind m f w) = [].
Proof.
  intros Hlog Hres Hf. rewrite log_bind, Hlog. unfold bind.
  destruct (result (m w)) as [a| |]; [|split; reflexivity | contradiction].
  destruct (Hf a (world (m w))) as [Hr Hl]. cbn [result app]. split; assumption.
Qed.

(** X19.  Started with a non-empty [master_repo], [main] raises before it
    processes or saves anything, and makes no request to the service: the
    README branch of [extract_repos] always raises. *)
Theorem main_readme_mode_raises
    GITHUB_TOKEN fuel now write google_sheet_url start_row end_row master_repo
    min_stars fs (w : W) :
  truthy_opt master_repo = true ->
  result (Main.main GITHUB_TOKEN fuel now write google_sheet_url start_row end_row
                    master_repo min_stars fs w) = Exc /\
  log (Main.main GITHUB_TOKEN fuel now write google_sheet_url start_row end_row
                 master_repo min_stars fs w) = [].
Proof.
  intros Htruthy. unfold Main.main.
  apply bind_silent_exc; [apply row_number_outcome..|]. intros START_ROW w1.
  apply bind_silent_exc; [apply row_number_outcome..|]. intros END_ROW w2.
  cbv zeta.
  destruct (extract_repos_readme_raises google_sheet_url START_ROW END_ROW
              master_repo w2 Htruthy) as [Hres Hlog].
  rewrite (bind_exc _ _ _ Hres). cbn [result log]. split; [reflexivity | exact Hlog].
Qed.

(** X20.  [main] hands its thresholds to [process_multiple_repos] one place
    to the left of where that function takes them.  Whatever the sheet and
    the service hold, every row of the result file after a run is a row the
    file had before (as it was stored when nothing is saved, as it is read
    back when the file is written again), or has a repository count of at
    least [DEFAULT_MIN_YEARLY_CONTRIBUTIONS] and a yearly count of at least
    the [min_stars] that [main] was given. *)
Theorem main_rows_thresholds
    GITHUB_TOKEN fuel now google_sheet_url start_row end_row master_repo
    min_stars fs (w : W) :
  match result (Main.main GITHUB_TOKEN fuel now DataHandler.WriteOk google_sheet_url
                          start_row end_row master_repo min_stars fs w) with
  | Val after =>
      match DataHandler.sheet_at "github_contributors_results.xlsx" after with
      | Some rows =>
          Forall (fun r =>
                    (exists old,
                        DataHandler.sheet_at "github_contributors_results.xlsx" fs
                          = Some old /\
                        (r ∈ old \/ r ∈ DataHandler.read_excel old)) \/
                    ((Config.DEFAULT_MIN_YEARLY_CONTRIBUTIONS
                        <= DataHandler.repo_contributions r)%Z /\
                     (min_stars <= DataHandler.yearly_contributions r)%Z))
                 rows
      | None => True
      end
  | _ => True
  end.
Proof.
  destruct (result (Main.main _ _ _ _ _ _ _ _ _ _ w)) as [after| |] eqn:Hmain;
    [|exact I..].
  assert (match DataHandler.sheet_at "github_contributors_results.xlsx" fs with
          | Some rows =>
              Forall (fun r =>
                (exists old,
                    DataHandler.sheet_at "github_contributors_results.xlsx" fs
                      = Some old /\
                    (r ∈ old \/ r ∈ DataHandler.read_excel old)) \/
                ((Config.DEFAULT_MIN_YEARLY_CONTRIBUTIONS
                    <= DataHandler.repo_contributions r)%Z /\
                 (min_stars <= DataHandler.yearly_contributions r)%Z)) rows
          | None => True
          end) as Hsame.
  { destruct (DataHandler.sheet_at _ fs) as [old|] eqn:Hold; [|exact I].
    apply Forall_forall. intros r Hr. left. eauto. }
  unfold Main.main in Hmain.
  apply bind_val_inv in Hmain as (START_ROW & _ & Hmain).
  apply bind_val_inv in Hmain as (END_ROW & _ & Hmain).
  cbv zeta in Hmain.
  apply bind_val_inv in Hmain as (repo_urls & _ & Hmain).
  destruct repo_urls as [[|url urls]|]; [| |discriminate].
  { injection Hmain as <-. exact Hsame. }
  apply bind_val_inv in Hmain as (all_contributors & Hall & Hmain).
  injection Hmain as <-.
  pose proof (process_multiple_repos_rows
                {| token := Some GITHUB_TOKEN |} fuel (url :: urls)
                Config.DEFAULT_MIN_REPO_CONTRIBUTIONS
                Config.DEFAULT_MIN_YEARLY_CONTRIBUTIONS min_stars []) as Hrows.
  match type of Hall with result (_ ?w0) = _ => specialize (Hrows w0) end.
  rewrite Hall in Hrows. destruct Hrows as (added & -> & Hadded). cbn [app] in *.
  unfold CrawlerMore.save_to_excel.
  destruct added as [|c cs]; [exact Hsame|].
  destruct (save_to_excel_rows fs now c cs "github_contributors_results.xlsx" None)
    as (kept & -> & Hkept).
  apply Forall_forall. intros r Hr. apply elem_of_app in Hr as [Hr | Hr].
  - left. unfold DataHandler.drop_duplicates in Hr.
    apply drop_duplicates_from_elem in Hr as [Hr _].
    apply load_existing_sheet in Hr as (old & Hold & Hr). eauto.
  - right. apply Hkept in Hr as [Hr _].
    rewrite Forall_forall in Hadded. destruct (Hadded r Hr) as (u & _ & Hq).
    destruct Hq as (_ & _ & _ & Hrepo & Hyearly & _). split; assumption.
Qed.

Lemma count_stars_from urls (acc : gmap string Z) (seen : list string) (w0 : W) :
  map_Forall (fun url n => url ∈ seen /\ n <> 0%Z) acc ->
  match result (CrawlerMore.count_stars urls acc w0) with
  | Val star_counts =>
      map_Forall (fun url n => url ∈ seen ++ urls /\ n <> 0%Z) star_counts
  | Exc => loop_exception urls
  | Timeout => False
  end.
Proof.
  revert acc seen w0. induction urls as [|url urls IH]; intros acc seen w0 Hacc;
    cbn [CrawlerMore.count_stars].
  - cbn. rewrite app_nil_r. exact Hacc.
  - destruct (Utils.urlparse_raises url) eqn:Hquiet.
    { right. exists url. split; [now left | assumption]. }
    destruct (Utils.parse_repo_url url) as [owner repo].
    unfold GitHubAPIClientMore.get_repo_stars, bind, consult.
    destruct (repo_record (DataHandler.fmt owner) (DataHandler.fmt repo) w0)
      as [[stars|] w1] eqn:Hrec; cbn [result world log].
    2: { left. exists (DataHandler.fmt owner), (DataHandler.fmt repo), w0.
         now rewrite Hrec. }
    assert (forall acc',
      map_Forall (fun u n => u ∈ seen ++ [url] /\ n <> 0%Z) acc' ->
      match result (CrawlerMore.count_stars urls acc' w1) with
      | Val star_counts =>
          map_Forall (fun u n => u ∈ seen ++ url :: urls /\ n <> 0%Z) star_counts
      | Exc => loop_exception (url :: urls)
      | Timeout => False
      end) as IH'.
    { intros acc' Hacc'. specialize (IH acc' (seen ++ [url]) w1 Hacc').
      rewrite <- app_assoc in IH.
      destruct (result (CrawlerMore.count_stars urls acc' w1));
        [assumption | now apply loop_exception_cons | assumption]. }
    assert (map_Forall (fun u n => u ∈ seen ++ [url] /\ n <> 0%Z) acc) as Hacc1.
    { eapply map_Forall_impl; [exact Hacc|]. intros u n [Hu Hn].
      split; [apply elem_of_app; now left | assumption]. }
    destruct stars as [n|].
    + destruct (n =? 0)%Z eqn:Hzero.
      * exact (IH' acc Hacc1).
      * apply Z.eqb_neq in Hzero. apply IH'.
        apply map_Forall_insert_2; [|assumption].
        split; [apply elem_of_app; right; now left | assumption].
    + exact (IH' acc Hacc1).
Qed.

(** X17.  [count_stars] records a star count only for URLs it was given and
    never records a count of 0.  An exception leaves it only when a star
    lookup raised, or when one of the URLs is not made of ASCII characters
    without brackets (the parser can raise on such a URL). *)
Theorem count_stars_records urls (w : W) :
  match result (CrawlerMore.count_stars urls ∅ w) with
  | Val star_counts =>
      map_Forall (fun url n => url ∈ urls /\ n <> 0%Z) star_counts
  | Exc => (exists owner repo w', (repo_record owner repo w').1 = None) \/
           exists url, url ∈ urls /\ plain_url url = false
  | Timeout => False
  end.
Proof.
  pose proof (count_stars_from urls ∅ [] w (map_Forall_empty _)) as Hgen.
  destruct (result (CrawlerMore.count_stars urls ∅ w));
    [exact Hgen | now apply loop_exception_plain | exact Hgen].
Qed.

End MainFacts.

(** The configuration [main.py] runs with when started as a script. *)
Lemma main_readme_mode_raises_witness :
  Remote.result
    (@Main.main unit team_service (fixed_stars None) "t0ken" 5
       "2024-01-01 00:00:00" DataHandler.WriteOk None (Some 1%Z) (Some 100%Z)
       (Some "https://github.com/fffaraz/awesome-cpp") 1000 no_files tt) = Remote.Exc /\
  Remote.log
    (@Main.main unit team_service (fixed_stars None) "t0ken" 5
       "2024-01-01 00:00:00" DataHandler.WriteOk None (Some 1%Z) (Some 100%Z)
       (Some "https://github.com/fffaraz/awesome-cpp") 1000 no_files tt) = [].
Proof.
  apply (@main_readme_mode_raises unit team_service (fixed_stars None)).
  reflexivity.
Defined.

(** A run over a sheet: nobody has 400 contributions in the last year, yet
    the contributor with 450 repository contributions is saved, and the one
    with 150 is not. *)
Example main_saves_under_shifted_thresholds :
  exists after rows,
    Remote.result
      (@Main.main unit quiet_service sheet_sources "t0ken" 5
         "2024-01-01 00:00:00" DataHandler.WriteOk
         (Some "https://docs.google.com/spreadsheets/d/abc/edit#gid=0")
         (Some 1%Z) (Some 100%Z) None 0 no_files tt) = Remote.Val after /\
    DataHandler.sheet_at "github_contributors_results.xlsx" after = Some rows /\
    DataHandler.usernames rows = [Some "erin"] /\
    map DataHandler.yearly_contributions rows = [5%Z].
Proof. eexists _, _. repeat split; vm_compute; reflexivity. Qed.
